(** * vsphere-influxdb: metric resolution and sample reduction

    A shallow embedding of [vsphere-influxdb.go]: the counter catalog
    resolver of [VCenter.Init], the inventory tables, the query builder
    and the point assembler of [VCenter.Query], and the sample reductions
    [min], [max], [sum] and [average].

    Go's [int64] is a [Z] with the two's complement wrap-around written out,
    [float64] is the binary64 instance of the Standard Library's [SpecFloat],
    Go strings are byte strings, Go maps are [gmap]s. *)

From Stdlib Require Import ZArith List Ascii String Lia SpecFloat.
From stdpp Require Import gmap strings list fin_maps.

Local Open Scope Z_scope.

(** ** 64-bit signed integers *)

Module Int64.

Definition min_int : Z := - 2 ^ 63.
Definition max_int : Z := 2 ^ 63 - 1.

(** The value an [int64] operation leaves after overflow. *)
Definition wrap (z : Z) : Z := (z + 2 ^ 63) mod 2 ^ 64 - 2 ^ 63.

Definition in_range (z : Z) : Prop := min_int <= z <= max_int.

Definition add (a b : Z) : Z := wrap (a + b).

End Int64.

(** ** Go's [strings] package, on byte strings *)

Module strings.

Local Open Scope string_scope.

(** [strings.HasPrefix] *)
Fixpoint HasPrefix (s prefix : string) : bool :=
  match prefix, s with
  | EmptyString, _ => true
  | String _ _, EmptyString => false
  | String p prefix', String c s' => Ascii.eqb c p && HasPrefix s' prefix'
  end.

Fixpoint drop (k : nat) (s : string) : string :=
  match k, s with
  | O, _ => s
  | S _, EmptyString => EmptyString
  | S k', String _ s' => drop k' s'
  end.

(** [strings.HasSuffix]:
    [len(s) >= len(suffix) && s[len(s)-len(suffix):] == suffix] *)
Definition HasSuffix (s suffix : string) : bool :=
  (String.length suffix <=? String.length s)%nat
  && String.eqb (drop (String.length s - String.length suffix) s) suffix.

(** [strings.Index]: the byte offset of the first occurrence, or [-1]. *)
Fixpoint Index_from (i : Z) (s substr : string) : Z :=
  if HasPrefix s substr then i
  else match s with
       | EmptyString => -1
       | String _ s' => Index_from (i + 1) s' substr
       end.

Definition Index (s substr : string) : Z := Index_from 0 s substr.

(** [strings.Replace(s, old, new, -1)] for a non-empty [old]: every
    non-overlapping occurrence, leftmost first.  [skip] counts the bytes
    of a matched occurrence still to be passed over. *)
Fixpoint Replace_go (old new : string) (skip : nat) (s : string) : string :=
  match s with
  | EmptyString => EmptyString
  | String c s' =>
      match skip with
      | S k => Replace_go old new k s'
      | O =>
          if HasPrefix s old
          then new ++ Replace_go old new (String.length old - 1) s'
          else String c (Replace_go old new O s')
      end
  end.

(** With an empty [old] Go puts [new] in front of every rune and at the
    end (here: every byte, the same thing on ASCII).  The program only
    gets there with an empty [new] as well, from an empty
    [config.Domain], and then [s] comes back as it is. *)
Fixpoint Replace_empty (new s : string) : string :=
  match s with
  | EmptyString => EmptyString
  | String c s' => String c (new ++ Replace_empty new s')
  end.

Definition Replace (s old new : string) : string :=
  match old with
  | EmptyString => new ++ Replace_empty new s
  | String _ _ => Replace_go old new O s
  end.

(** [strings.Split(s, sep)[0]] for a non-empty [sep]: what comes before
    the first occurrence of [sep], or all of [s]. *)
Fixpoint Split_head (s sep : string) : string :=
  match s with
  | EmptyString => EmptyString
  | String c s' => if HasPrefix s sep then EmptyString else String c (Split_head s' sep)
  end.

(** [strings.ToLower] restricted to ASCII letters; the program itself is
    modelled over any lower-casing function. *)
Definition lower_byte (c : ascii) : ascii :=
  let n := N_of_ascii c in
  if ((65 <=? n) && (n <=? 90))%N then ascii_of_N (n + 32) else c.

Fixpoint ascii_ToLower (s : string) : string :=
  match s with
  | EmptyString => EmptyString
  | String c s' => String (lower_byte c) (ascii_ToLower s')
  end.

End strings.

(** ** [float64]: IEEE 754 binary64, round to nearest even *)

Module Float64.

Definition prec : Z := 53.
Definition emax : Z := 1024.

(** [float64(z)] for an integer [z]. *)
Definition of_int (z : Z) : spec_float := binary_normalize prec emax z 0 false.

Definition div : spec_float -> spec_float -> spec_float := SFdiv prec emax.
Definition add : spec_float -> spec_float -> spec_float := SFadd prec emax.

(** The constant [.5], that is [2^52 * 2^-53]. *)
Definition half : spec_float := S754_finite false 4503599627370496 (-53).

(** The integer part of a finite float's value, rounded down. *)
Definition floor_int (s : bool) (m : positive) (e : Z) : Z :=
  if 0 <=? e then cond_Zopp s (Z.pos m * 2 ^ e)
  else cond_Zopp s (Z.pos m) / 2 ^ (- e).

(** [math.Floor]: zeros, infinities and NaN are returned as they are. *)
Definition Floor (x : spec_float) : spec_float :=
  match x with
  | S754_finite s m e =>
      if 0 <=? e then x
      else binary_normalize prec emax (floor_int s m e) 0 s
  | _ => x
  end.

(** The conversion [int64(x)] where Go defines it: the fraction is
    discarded.  [None] where the value does not fit (NaN, an infinity, a
    value outside [int64]): the conversion succeeds there too, but its
    result is implementation-dependent. *)
Definition to_int64 (x : spec_float) : option Z :=
  match x with
  | S754_zero _ => Some 0
  | S754_finite s m e =>
      let z := if 0 <=? e then cond_Zopp s (Z.pos m * 2 ^ e)
               else cond_Zopp s (Z.pos m / 2 ^ (- e)) in
      if (Int64.min_int <=? z) && (z <=? Int64.max_int) then Some z else None
  | S754_infinity _ | S754_nan => None
  end.

Definition is_nan (x : spec_float) : bool :=
  match x with S754_nan => true | _ => false end.

Definition is_finite (x : spec_float) : bool :=
  match x with S754_zero _ | S754_finite _ _ _ => true | _ => false end.

End Float64.

(** ** The sample reductions (lines 556-609 of the source) *)

Module Reduce.

(** [func min(n ...int64) int64]: the loop body, then the loop. *)
Definition min_step (min i : Z) : Z :=
  if 0 <=? i then
    if min =? -1 then i
    else if i <? min then i else min
  else min.

Definition min (n : list Z) : Z := fold_left min_step n (-1).

(** [func max(n ...int64) int64] *)
Definition max_step (max i : Z) : Z :=
  if 0 <=? i then
    if max =? -1 then i
    else if max <? i then i else max
  else max.

Definition max (n : list Z) : Z := fold_left max_step n (-1).

(** [func sum(n ...int64) int64]: [total += i] is an [int64] addition. *)
Definition sum_step (total i : Z) : Z :=
  if 0 <? i then Int64.add total i else total.

Definition sum (n : list Z) : Z := fold_left sum_step n 0.

(** [serie.Value[len(serie.Value)-1]]: indexing an empty slice panics,
    which is [None] here. *)
Definition latest (n : list Z) : option Z :=
  match n with
  | [] => None
  | _ :: _ => n !! (length n - 1)%nat
  end.

(** [func average(n ...int64) int64].  The loop leaves [(total, count)];
    [average_favg] is the quotient [favg]; [average_floor] is
    [math.Floor(favg + .5)]. *)
Definition average_step (tc : Z * Z) (i : Z) : Z * Z :=
  let '(total, count) := tc in
  if 0 <=? i then (Int64.add total i, Int64.add count 1) else (total, count).

Definition average_acc (n : list Z) : Z * Z := fold_left average_step n (0, 0).

Definition average_favg (n : list Z) : spec_float :=
  let '(total, count) := average_acc n in
  Float64.div (Float64.of_int total) (Float64.of_int count).

Definition average_floor (n : list Z) : spec_float :=
  Float64.Floor (Float64.add (average_favg n) Float64.half).

(** The result where Go defines the final conversion. *)
Definition average_defined (n : list Z) : option Z :=
  Float64.to_int64 (average_floor n).

Section ImplementationDependent.

(** What the platform's [float64] to [int64] conversion gives for a float
    that [int64] cannot represent. *)
Variable impl_int64 : spec_float -> Z.

Definition average (n : list Z) : Z :=
  match average_defined n with
  | Some z => z
  | None => impl_int64 (average_floor n)
  end.

End ImplementationDependent.

End Reduce.


(** ** The data of the program and of the vSphere API it reads *)

Module MetricDef.
(** [type MetricDef struct]; [Key] is an [int32]. *)
Record t : Type := Build { Metric : string; Instances : string; Key : Z }.
End MetricDef.

Module Metric.
(** [type Metric struct]; the field [Definition] is [Definitions] here. *)
Record t : Type := Build { ObjectType : list string; Definitions : list MetricDef.t }.
End Metric.

Module MetricGroup.
(** [type MetricGroup struct]; its [Mor] field is never written or read. *)
Record t : Type := Build { ObjectType : string; Metrics : list MetricDef.t }.
End MetricGroup.

Module ManagedObjectReference.
(** [types.ManagedObjectReference], used as a map key. *)
Record t : Type := Build { Type_ : string; Value : string }.

#[global] Instance eq_dec : EqDecision t.
Proof. solve_decision. Defined.

#[global] Instance countable : Countable t.
Proof.
  refine (inj_countable' (fun r => (Type_ r, Value r))
                         (fun p => Build p.1 p.2) _).
  by intros [].
Defined.
End ManagedObjectReference.

Module PerfCounterInfo.
(** [types.PerfCounterInfo]: [GroupInfo] and [NameInfo] stand for the
    [Key] of their element description, [RollupType] for its printed
    name. *)
Record t : Type := Build
  { Key : Z; NameInfo : string; GroupInfo : string; RollupType : string }.
End PerfCounterInfo.

Module PerfMetricId.
Record t : Type := Build { CounterId : Z; Instance : string }.
End PerfMetricId.

Module PerfQuerySpec.
(** [types.PerfQuerySpec]; the two times are offsets in seconds from the
    clock reading [time.Now()]. *)
Record t : Type := Build
  { Entity : ManagedObjectReference.t;
    StartTime : Z;
    EndTime : Z;
    MetricId : list PerfMetricId.t;
    IntervalId : Z }.
End PerfQuerySpec.

Module PerfMetricIntSeries.
Record t : Type := Build { Id : PerfMetricId.t; Value : list Z }.
End PerfMetricIntSeries.

(** [types.BasePerfMetricSeries]: the program asserts the first variant. *)
Inductive BasePerfMetricSeries : Type :=
  | IntSeries (serie : PerfMetricIntSeries.t)
  | SeriesCSV (id : PerfMetricId.t) (csv : string).

Module PerfEntityMetric.
Record t : Type := Build
  { Entity : ManagedObjectReference.t; Value : list BasePerfMetricSeries }.
End PerfEntityMetric.

(** [types.BasePerfEntityMetricBase] *)
Inductive BasePerfEntityMetricBase : Type :=
  | EntityMetric (pem : PerfEntityMetric.t)
  | EntityMetricCSV (entity : ManagedObjectReference.t) (csv : string).

(** The part of [Configuration] the pipeline reads. *)
Record Configuration : Type :=
  { Metrics : list Metric.t; Interval : Z; Domain : string }.

Module Point.
(** An InfluxDB point as handed to [influxclient.NewPoint], without its
    time stamp. *)
Record t : Type := Build
  { measurement : string; tags : gmap string string; fields : gmap string Z }.
End Point.

(** ** The counter catalog resolver ([VCenter.Init], lines 147-172) *)

Module Resolver.

Definition identifier (perf : PerfCounterInfo.t) : string :=
  (PerfCounterInfo.GroupInfo perf ++ "." ++ PerfCounterInfo.NameInfo perf
     ++ "." ++ PerfCounterInfo.RollupType perf)%string.

(** The loop over [vcenter.MetricGroups] with its [break]: the first
    group of that object type gets the definition; [None] is
    [added == false]. *)
Fixpoint append_first (mtype : string) (metricd : MetricDef.t)
    (groups : list MetricGroup.t) : option (list MetricGroup.t) :=
  match groups with
  | [] => None
  | metricgroup :: rest =>
      if String.eqb (MetricGroup.ObjectType metricgroup) mtype
      then Some (MetricGroup.Build (MetricGroup.ObjectType metricgroup)
                   (MetricGroup.Metrics metricgroup ++ [metricd]) :: rest)
      else match append_first mtype metricd rest with
           | Some rest' => Some (metricgroup :: rest')
           | None => None
           end
  end.

(** The body of [for _, mtype := range metric.ObjectType]. *)
Definition add_to_group (metricd : MetricDef.t)
    (groups : list MetricGroup.t) (mtype : string) : list MetricGroup.t :=
  match append_first mtype metricd groups with
  | Some groups' => groups'
  | None => groups ++ [MetricGroup.Build mtype [metricd]]
  end.

(** The body of [for _, metricdef := range metric.Definition]. *)
Definition resolve_def (perf : PerfCounterInfo.t) (metric : Metric.t)
    (groups : list MetricGroup.t) (metricdef : MetricDef.t) : list MetricGroup.t :=
  if String.eqb (MetricDef.Metric metricdef) (identifier perf)
  then
    let metricd := MetricDef.Build (MetricDef.Metric metricdef)
                     (MetricDef.Instances metricdef) (PerfCounterInfo.Key perf) in
    fold_left (add_to_group metricd) (Metric.ObjectType metric) groups
  else groups.

Definition resolve_metric (perf : PerfCounterInfo.t)
    (groups : list MetricGroup.t) (metric : Metric.t) : list MetricGroup.t :=
  fold_left (resolve_def perf metric) (Metric.Definitions metric) groups.

Definition resolve_counter (config : Configuration)
    (groups : list MetricGroup.t) (perf : PerfCounterInfo.t) : list MetricGroup.t :=
  fold_left (resolve_metric perf) (Metrics config) groups.

(** [VCenter.Init] once the catalog [perfmanager.PerfCounter] has been
    retrieved: the new value of [vcenter.MetricGroups]. *)
Definition Init (PerfCounter : list PerfCounterInfo.t) (config : Configuration)
    (MetricGroups : list MetricGroup.t) : list MetricGroup.t :=
  fold_left (resolve_counter config) PerfCounter MetricGroups.

End Resolver.

(** ** The query builder and the point assembler ([VCenter.Query]) *)

Module Query.

Local Open Scope string_scope.
Local Open Scope list_scope.
Local Open Scope Z_scope.

(** A Go map read: the zero value for a missing key. *)
Definition get {K} `{Countable K} {V} (zero : V) (m : gmap K V) (k : K) : V :=
  default zero (m !! k).

(** [for k, v := range src { dst[k] = v }] *)
Definition copy_into {V} (src dst : gmap string V) : gmap string V :=
  map_fold (fun k v acc => <[k:=v]> acc) dst src.

(** Lines 254-266: the objects that are queried, clusters left out. *)
Definition new_mors (mors : list ManagedObjectReference.t) : list ManagedObjectReference.t :=
  fold_left (fun acc mor =>
               if String.eqb (ManagedObjectReference.Type_ mor) "VirtualMachine"
               then acc ++ [mor]
               else if String.eqb (ManagedObjectReference.Type_ mor) "HostSystem"
               then acc ++ [mor]
               else acc) mors [].

(** Lines 387-392 *)
Definition metricToName (MetricGroups : list MetricGroup.t) : gmap Z string :=
  fold_left (fun acc metricgroup =>
               fold_left (fun acc metricdef =>
                            <[MetricDef.Key metricdef := MetricDef.Metric metricdef]> acc)
                         (MetricGroup.Metrics metricgroup) acc)
            MetricGroups ∅.

(** Lines 408-415: the metric ids of one object. *)
Definition metricIds (MetricGroups : list MetricGroup.t)
    (mor : ManagedObjectReference.t) : list PerfMetricId.t :=
  fold_left (fun acc metricgroup =>
               if String.eqb (MetricGroup.ObjectType metricgroup)
                             (ManagedObjectReference.Type_ mor)
               then fold_left (fun acc metricdef =>
                                 acc ++ [PerfMetricId.Build (MetricDef.Key metricdef)
                                           (MetricDef.Instances metricdef)])
                              (MetricGroup.Metrics metricgroup) acc
               else acc)
            MetricGroups [].

(** Line 416 *)
Definition query_of (config : Configuration) (MetricGroups : list MetricGroup.t)
    (mor : ManagedObjectReference.t) : PerfQuerySpec.t :=
  PerfQuerySpec.Build mor (-1 - Interval config) (-1) (metricIds MetricGroups mor) 20.

(** Lines 396-417 *)
Definition queries (config : Configuration) (MetricGroups : list MetricGroup.t)
    (mors : list ManagedObjectReference.t) : list PerfQuerySpec.t :=
  fold_left (fun queries mor => queries ++ [query_of config MetricGroups mor]) mors [].

Section Assembler.

(** [strings.ToLower], and the platform's conversion of a float that
    [int64] cannot represent. *)
Variable ToLower : string -> string.
Variable impl_int64 : spec_float -> Z.

(** Lines 477-488; [None] is the panic of [.latest] on no samples. *)
Definition value_of (metricName : string) (Value : list Z) : option Z :=
  if strings.HasSuffix metricName ".average" then Some (Reduce.average impl_int64 Value)
  else if strings.HasSuffix metricName ".maximum" then Some (Reduce.max Value)
  else if strings.HasSuffix metricName ".minimum" then Some (Reduce.min Value)
  else if strings.HasSuffix metricName ".latest" then Reduce.latest Value
  else if strings.HasSuffix metricName ".summation" then Some (Reduce.sum Value)
  else Some (-1).

(** Lines 468-475 *)
Definition metricName_of (names : gmap Z string) (serie : PerfMetricIntSeries.t) : string :=
  ToLower (get "" names (PerfMetricId.CounterId (PerfMetricIntSeries.Id serie))).

Definition influxMetricName_of (metricName : string) : string :=
  strings.Replace metricName "." "_".

Definition measurementName_of (metricName : string) : string :=
  strings.Split_head metricName ".".

Definition instanceName_of (influxMetricName : string) (serie : PerfMetricIntSeries.t) : string :=
  if negb (strings.Index influxMetricName "datastore" =? -1) then ""
  else ToLower (strings.Replace (PerfMetricId.Instance (PerfMetricIntSeries.Id serie)) "." "_").

(** Measurement, then name, then instance, then the map itself. *)
Local Abbreviation nested V := (gmap string (gmap string (gmap string (gmap string V)))).

(** Lines 494-516: the three [nil] checks, then the write to the
    innermost map. *)
Definition update_special {V} (m : nested V) (measurementName name instanceName : string)
    (f : gmap string V -> gmap string V) : nested V :=
  let by_name := get ∅ m measurementName in
  let by_instance := get ∅ by_name name in
  let inner := get ∅ by_instance instanceName in
  <[measurementName := <[name := <[instanceName := f inner]> by_instance]> by_name]> m.

Definition lookup_special {V} (m : nested V) (measurementName name instanceName : string)
    : gmap string V :=
  get ∅ (get ∅ (get ∅ m measurementName) name) instanceName.

(** The three maps the loop over [pem.Value] writes. *)
Record state : Type := State
  { fields : gmap string Z;
    special_fields : nested Z;
    special_tags : nested string }.

(** The body of [for _, baseserie := range pem.Value] (lines 467-518);
    [None] is a panic (a failed type assertion, or [.latest] on no
    samples). *)
Definition serie_step (names : gmap Z string) (tags : gmap string string)
    (st : state) (baseserie : BasePerfMetricSeries) : option state :=
  match baseserie with
  | SeriesCSV _ _ => None
  | IntSeries serie =>
      let metricName := metricName_of names serie in
      let influxMetricName := influxMetricName_of metricName in
      let instanceName := instanceName_of influxMetricName serie in
      let measurementName := measurementName_of metricName in
      match value_of metricName (PerfMetricIntSeries.Value serie) with
      | None => None
      | Some value =>
          if String.eqb instanceName ""
          then Some (State (<[influxMetricName := value]> (fields st))
                           (special_fields st) (special_tags st))
          else
            let name := get "" tags "name" in
            Some (State (fields st)
                    (update_special (special_fields st) measurementName name instanceName
                       (fun inner => <[influxMetricName := value]> inner))
                    (update_special (special_tags st) measurementName name instanceName
                       (fun inner => <["instance" := instanceName]> (copy_into tags inner))))
      end
  end.

Fixpoint series_loop (names : gmap Z string) (tags : gmap string string)
    (st : state) (Value : list BasePerfMetricSeries) : option state :=
  match Value with
  | [] => Some st
  | baseserie :: rest =>
      match serie_step names tags st baseserie with
      | None => None
      | Some st' => series_loop names tags st' rest
      end
  end.

(** Lines 534-544: one point per (measurement, name, instance).  Go
    ranges over a map in no fixed order, so only membership in this list
    means something. *)
Definition special_points (special_fields : nested Z) (special_tags : nested string)
    : list Point.t :=
  mv ← map_to_list special_fields;
  nm ← map_to_list mv.2;
  iv ← map_to_list nm.2;
  [Point.Build mv.1 (lookup_special special_tags mv.1 nm.1 iv.1) iv.2].

(** What [Query] has collected before it reads the samples. *)
Record inventory : Type :=
  { morToName : gmap ManagedObjectReference.t string;
    vm_summary : gmap ManagedObjectReference.t (gmap string string);
    host_summary : gmap ManagedObjectReference.t (gmap string string);
    host_extra_metrics : gmap ManagedObjectReference.t (gmap string Z) }.

(** Lines 449-461 *)
Definition tags_of (inv : inventory) (vcName name : string)
    (Entity : ManagedObjectReference.t) : gmap string string :=
  let tags := <["host" := vcName]> (<["name" := name]> ∅) in
  let tags := match vm_summary inv !! Entity with
              | Some summary => copy_into summary tags
              | None => tags
              end in
  match host_summary inv !! Entity with
  | Some summary => copy_into summary tags
  | None => tags
  end.

(** The body of [for _, base := range perfres.Returnval] (lines 441-544):
    the points added to the batch for one entity. *)
Definition entity_points (config : Configuration) (Hostname : string)
    (names : gmap Z string) (inv : inventory)
    (base : BasePerfEntityMetricBase) : option (list Point.t) :=
  match base with
  | EntityMetricCSV _ _ => None
  | EntityMetric pem =>
      let Entity := PerfEntityMetric.Entity pem in
      let vcName := strings.Replace Hostname (Domain config) "" in
      let entityName := ToLower (ManagedObjectReference.Type_ Entity) in
      let name := ToLower (strings.Replace (get "" (morToName inv) Entity) (Domain config) "") in
      let tags := tags_of inv vcName name Entity in
      match series_loop names tags (State ∅ ∅ ∅) (PerfEntityMetric.Value pem) with
      | None => None
      | Some st =>
          let fields := match host_extra_metrics inv !! Entity with
                        | Some metrics => copy_into metrics (fields st)
                        | None => fields st
                        end in
          Some (Point.Build entityName tags fields
                  :: special_points (special_fields st) (special_tags st))
      end
  end.

(** Lines 440-545: the batch written to InfluxDB. *)
Fixpoint batch (config : Configuration) (Hostname : string)
    (names : gmap Z string) (inv : inventory)
    (Returnval : list BasePerfEntityMetricBase) : option (list Point.t) :=
  match Returnval with
  | [] => Some []
  | base :: rest =>
      match entity_points config Hostname names inv base with
      | None => None
      | Some pts =>
          match batch config Hostname names inv rest with
          | None => None
          | Some pts' => Some (pts ++ pts')
          end
      end
  end.

End Assembler.

End Query.

(** ** The inventory [VCenter.Query] collects (lines 210-221, 290-351, 380-384) *)

Module HostSystem.
(** What the program reads of a [mo.HostSystem]: [Self],
    [Summary.Config.Name] and [Summary.Hardware.NumCpuThreads]. *)
Record t : Type := Build
  { Self : ManagedObjectReference.t; Name : string; NumCpuThreads : Z }.
End HostSystem.

Module VirtualMachine.
(** What the program reads of a [mo.VirtualMachine]: [Self], the text
    [fmt.Sprintln(vm.Summary.Config)] and the pointer
    [Summary.Runtime.Host], which may be nil. *)
Record t : Type := Build
  { Self : ManagedObjectReference.t;
    Config : string;
    Host : option ManagedObjectReference.t }.
End VirtualMachine.

Module ClusterComputeResource.
(** [Name], and the [Key] of every entry of
    [Configuration.DasVmConfig]. *)
Record t : Type := Build
  { Name : string; DasVmConfig : list ManagedObjectReference.t }.
End ClusterComputeResource.

Module ManagedEntity.
Record t : Type := Build { Self : ManagedObjectReference.t; Name : string }.
End ManagedEntity.

Module Inventory.

Local Open Scope string_scope.
Local Open Scope list_scope.
Local Open Scope Z_scope.

(** Lines 210-215 *)
Definition datacenters (ChildEntity : list ManagedObjectReference.t)
    : list ManagedObjectReference.t :=
  fold_left (fun acc child =>
               if String.eqb (ManagedObjectReference.Type_ child) "Datacenter"
               then acc ++ [child] else acc) ChildEntity [].

(** Lines 217-221 *)
Definition objectTypes (MetricGroups : list MetricGroup.t) : list string :=
  fold_left (fun acc group => acc ++ [MetricGroup.ObjectType group]) MetricGroups []
    ++ ["ClusterComputeResource"].

(** Lines 291-322 *)
Definition vmToCluster (clmo : list ClusterComputeResource.t)
    : gmap ManagedObjectReference.t string :=
  fold_left (fun acc cl =>
               fold_left (fun acc vm => <[vm := ClusterComputeResource.Name cl]> acc)
                         (ClusterComputeResource.DasVmConfig cl) acc)
            clmo ∅.

(** Lines 325-333 *)
Definition host_summary (hsmo : list HostSystem.t)
    : gmap ManagedObjectReference.t (gmap string string) :=
  fold_left (fun acc host =>
               <[HostSystem.Self host := <["name" := HostSystem.Name host]> ∅]> acc)
            hsmo ∅.

Definition host_extra_metrics (hsmo : list HostSystem.t)
    : gmap ManagedObjectReference.t (gmap string Z) :=
  fold_left (fun acc host =>
               <[HostSystem.Self host :=
                   <["cpu_corecount_total" := HostSystem.NumCpuThreads host]> ∅]> acc)
            hsmo ∅.

Definition newline : ascii := ascii_of_N 10.

(** After an opening bracket: the text up to the first closing bracket,
    that bracket included, unless a line ends first ([.] does not match a
    newline). *)
Fixpoint upto_close (s : string) : option string :=
  match s with
  | EmptyString => None
  | String c s' =>
      if Ascii.eqb c "]" then Some (String c EmptyString)
      else if Ascii.eqb c newline then None
      else match upto_close s' with
           | Some m => Some (String c m)
           | None => None
           end
  end.

(** [re.FindString] for the pattern [\[(.*?)\]]: the leftmost match, the
    shortest there; the empty string when nothing matches. *)
Fixpoint FindString (s : string) : string :=
  match s with
  | EmptyString => EmptyString
  | String c s' =>
      if Ascii.eqb c "["
      then match upto_close s' with
           | Some m => String c m
           | None => FindString s'
           end
      else FindString s'
  end.

(** Line 346 *)
Definition datastore_of (Config : string) : string :=
  strings.Replace (strings.Replace (FindString Config) "[" "") "]" "".

(** The body of [for _, vm := range vmmo] (lines 340-350): the tags of
    one virtual machine; [None] is the panic on a nil
    [Summary.Runtime.Host]. *)
Definition vm_tags (clusters : gmap ManagedObjectReference.t string)
    (hosts : gmap ManagedObjectReference.t (gmap string string))
    (vm : VirtualMachine.t) : option (gmap string string) :=
  let summary := <["datastore" := datastore_of (VirtualMachine.Config vm)]> ∅ in
  let summary :=
    if negb (String.eqb (Query.get "" clusters (VirtualMachine.Self vm)) "")
    then <["cluster" := Query.get "" clusters (VirtualMachine.Self vm)]> summary
    else summary in
  match VirtualMachine.Host vm with
  | None => None
  | Some host => Some (<["esx" := Query.get "" (Query.get ∅ hosts host) "name"]> summary)
  end.

(** Lines 336-351 *)
Fixpoint vm_summary_from (clusters : gmap ManagedObjectReference.t string)
    (hosts : gmap ManagedObjectReference.t (gmap string string))
    (acc : gmap ManagedObjectReference.t (gmap string string))
    (vmmo : list VirtualMachine.t)
    : option (gmap ManagedObjectReference.t (gmap string string)) :=
  match vmmo with
  | [] => Some acc
  | vm :: rest =>
      match vm_tags clusters hosts vm with
      | None => None
      | Some summary =>
          vm_summary_from clusters hosts (<[VirtualMachine.Self vm := summary]> acc) rest
      end
  end.

Definition vm_summary (clusters : gmap ManagedObjectReference.t string)
    (hosts : gmap ManagedObjectReference.t (gmap string string))
    (vmmo : list VirtualMachine.t)
    : option (gmap ManagedObjectReference.t (gmap string string)) :=
  vm_summary_from clusters hosts ∅ vmmo.

(** Lines 380-384 *)
Definition morToName (objects : list ManagedEntity.t)
    : gmap ManagedObjectReference.t string :=
  fold_left (fun acc object => <[ManagedEntity.Self object := ManagedEntity.Name object]> acc)
            objects ∅.

(** What [Query] has in hand, from the objects the platform returned,
    when it starts to read the samples. *)
Definition collect (hsmo : list HostSystem.t) (vmmo : list VirtualMachine.t)
    (clmo : list ClusterComputeResource.t) (objects : list ManagedEntity.t)
    : option Query.inventory :=
  match vm_summary (vmToCluster clmo) (host_summary hsmo) vmmo with
  | None => None
  | Some vms =>
      Some {| Query.morToName := morToName objects;
              Query.vm_summary := vms;
              Query.host_summary := host_summary hsmo;
              Query.host_extra_metrics := host_extra_metrics hsmo |}
  end.

End Inventory.


(** ** Notions the statements are written in *)

Module Spec.

(** The samples the reductions count as data. *)
Definition valid (n : list Z) : list Z := List.filter (fun i => 0 <=? i) n.

(** The mathematical sum of the strictly positive samples. *)
Definition positive_total (n : list Z) : Z :=
  fold_right Z.add 0 (List.filter (fun i => 0 <? i) n).

(** The samples counted by [average]: their sum and their number. *)
Definition valid_total (n : list Z) : Z := fold_right Z.add 0 (valid n).
Definition valid_count (n : list Z) : Z := Z.of_nat (length (valid n)).

(** The mean [total / count] rounded to the nearest integer, a half
    upwards: [floor (total / count + 1/2)]. *)
Definition rounded_mean (total count : Z) : Z := (2 * total + count) / (2 * count).

(** Where the fraction [N / D] lies between its integer part and the
    next integer, as [SpecFloat] records it. *)
Definition loc (N D : Z) : location :=
  if N mod D =? 0 then loc_Exact else loc_Inexact (2 * (N mod D) ?= D).

(** [N / D] rounded to the nearest integer, a tie to the even one. *)
Definition rne (N D : Z) : Z := round_nearest_even (N / D) (loc N D).

(** A shift record stands for the quotient [N / D] and for where the
    remainder lies. *)
Definition stands_for (mrs : shr_record) (N D : Z) : Prop :=
  shr_m mrs = N / D /\ loc_of_shr_record mrs = loc N D.

(** A declared definition resolved against a catalog entry. *)
Definition resolved (perf : PerfCounterInfo.t) (metricdef : MetricDef.t) : MetricDef.t :=
  MetricDef.Build (MetricDef.Metric metricdef) (MetricDef.Instances metricdef)
    (PerfCounterInfo.Key perf).

(** The group of object type [mtype] holds the definition [d]. *)
Definition holds (groups : list MetricGroup.t) (mtype : string) (d : MetricDef.t) : Prop :=
  exists g, In g groups /\ MetricGroup.ObjectType g = mtype /\ In d (MetricGroup.Metrics g).

(** [d] under [mtype] comes from a catalog entry whose identifier is the
    name of a metric declared for [mtype]. *)
Definition justified (PerfCounter : list PerfCounterInfo.t) (config : Configuration)
    (mtype : string) (d : MetricDef.t) : Prop :=
  exists perf metric metricdef,
    In perf PerfCounter /\ In metric (Metrics config) /\
    In metricdef (Metric.Definitions metric) /\ In mtype (Metric.ObjectType metric) /\
    MetricDef.Metric metricdef = Resolver.identifier perf /\
    d = resolved perf metricdef.

(** One group per object type, none of them empty. *)
Definition well_grouped (groups : list MetricGroup.t) : Prop :=
  NoDup (map MetricGroup.ObjectType groups) /\
  forall g, In g groups -> MetricGroup.Metrics g <> [].

(** The counter id of a definition with its instance selector. *)
Definition id_of (metricdef : MetricDef.t) : PerfMetricId.t :=
  PerfMetricId.Build (MetricDef.Key metricdef) (MetricDef.Instances metricdef).

(** The groups whose object type is the type of [mor]. *)
Definition matching (MetricGroups : list MetricGroup.t)
    (mor : ManagedObjectReference.t) : list MetricGroup.t :=
  List.filter (fun g => String.eqb (MetricGroup.ObjectType g)
                                   (ManagedObjectReference.Type_ mor)) MetricGroups.

(** The byte [c] occurs in [s]. *)
Fixpoint has (c : ascii) (s : string) : bool :=
  match s with
  | EmptyString => false
  | String x s' => Ascii.eqb x c || has c s'
  end.

(** [g'] is [g] with definitions added at the end. *)
Definition extends (g g' : MetricGroup.t) : Prop :=
  MetricGroup.ObjectType g' = MetricGroup.ObjectType g /\
  exists more, MetricGroup.Metrics g' = MetricGroup.Metrics g ++ more.

(** [groups'] is [groups] with its groups extended and new groups added at
    the end. *)
Definition grows (groups groups' : list MetricGroup.t) : Prop :=
  exists ext new, groups' = ext ++ new /\ Forall2 extends groups ext.

(** The object types whose objects [Query] asks samples for. *)
Definition queried (mor : ManagedObjectReference.t) : bool :=
  String.eqb (ManagedObjectReference.Type_ mor) "VirtualMachine"
  || String.eqb (ManagedObjectReference.Type_ mor) "HostSystem".

(** The hosts retrieved, by their reference; of two with the same
    reference the later one. *)
Definition host_table (hsmo : list HostSystem.t) : gmap ManagedObjectReference.t HostSystem.t :=
  fold_left (fun acc host => <[HostSystem.Self host := host]> acc) hsmo ∅.

(** The innermost map under measurement, name and instance is there. *)
Definition present {V} (m : gmap string (gmap string (gmap string (gmap string V))))
    (measurementName name instanceName : string) (inner : gmap string V) : Prop :=
  exists by_name by_instance,
    m !! measurementName = Some by_name /\
    by_name !! name = Some by_instance /\
    by_instance !! instanceName = Some inner.

Section Series.

Variable ToLower : string -> string.
Variable impl_int64 : spec_float -> Z.
Variable names : gmap Z string.

(** The field name, instance, measurement and value of a series, as the
    assembler computes them. *)
Definition field_of (serie : PerfMetricIntSeries.t) : string :=
  Query.influxMetricName_of (Query.metricName_of ToLower names serie).

Definition instance_of (serie : PerfMetricIntSeries.t) : string :=
  Query.instanceName_of ToLower (field_of serie) serie.

Definition measurement_of (serie : PerfMetricIntSeries.t) : string :=
  Query.measurementName_of (Query.metricName_of ToLower names serie).

Definition sample_value (serie : PerfMetricIntSeries.t) : option Z :=
  Query.value_of impl_int64 (Query.metricName_of ToLower names serie)
    (PerfMetricIntSeries.Value serie).

(** A series on which the loop body panics. *)
Definition panics (baseserie : BasePerfMetricSeries) : Prop :=
  match baseserie with
  | SeriesCSV _ _ => True
  | IntSeries serie =>
      strings.HasSuffix (Query.metricName_of ToLower names serie) ".latest" = true /\
      PerfMetricIntSeries.Value serie = []
  end.

(** One more value in a field map, when [keep] holds for its series. *)
Definition put_if (keep : PerfMetricIntSeries.t -> bool)
    (acc : gmap string Z) (baseserie : BasePerfMetricSeries) : gmap string Z :=
  match baseserie with
  | IntSeries serie =>
      if keep serie
      then match sample_value serie with
           | Some value => <[field_of serie := value]> acc
           | None => acc
           end
      else acc
  | SeriesCSV _ _ => acc
  end.

(** The field map made of the series with an empty instance only, a later
    series overwriting an earlier one of the same field name. *)
Definition entity_fields (Value : list BasePerfMetricSeries) : gmap string Z :=
  fold_left (put_if (fun serie => String.eqb (instance_of serie) "")) Value ∅.

(** The field map made of the series of one measurement and instance. *)
Definition instance_fields (Value : list BasePerfMetricSeries)
    (measurementName instanceName : string) : gmap string Z :=
  fold_left (put_if (fun serie =>
                       String.eqb (measurement_of serie) measurementName
                       && String.eqb (instance_of serie) instanceName)) Value ∅.

(** What the loop over the series of one entity maintains, for the tag
    set [tags] of the entity. *)
Definition loop_invariant (tags : gmap string string)
    (Value : list BasePerfMetricSeries) (st : Query.state) : Prop :=
  let name := Query.get "" tags "name" in
  Query.fields st = entity_fields Value /\
  (forall m i, i <> "" ->
     Query.lookup_special (Query.special_fields st) m name i = instance_fields Value m i) /\
  (forall m n i inner,
     present (Query.special_fields st) m n i inner ->
     n = name /\ i <> "" /\
     exists serie, In (IntSeries serie) Value /\
                   measurement_of serie = m /\ instance_of serie = i) /\
  (forall serie,
     In (IntSeries serie) Value -> instance_of serie <> "" ->
     exists inner,
       present (Query.special_fields st) (measurement_of serie) name
         (instance_of serie) inner) /\
  (forall m n i,
     Query.lookup_special (Query.special_tags st) m n i = ∅ \/
     Query.lookup_special (Query.special_tags st) m n i = <["instance" := i]> tags) /\
  (forall m n i inner,
     present (Query.special_fields st) m n i inner ->
     Query.lookup_special (Query.special_tags st) m n i = <["instance" := i]> tags).

End Series.

End Spec.

(** ** Concrete inputs *)

Module Example.

Local Open Scope string_scope.
Local Open Scope list_scope.

(** A platform whose conversion of an unrepresentable float gives the
    least [int64], as amd64 does. *)
Definition impl_min : spec_float -> Z := fun _ => Int64.min_int.

(** A counter with the rollup type [none]. *)
Definition none_names : gmap Z string := {[6 := "CPU.usage.none"]}.
Definition none_serie : PerfMetricIntSeries.t :=
  PerfMetricIntSeries.Build (PerfMetricId.Build 6 "") [3; 4].

(** A datastore counter for which the platform reports an instance. *)
Definition datastore_names : gmap Z string := {[178 := "datastore.read.average"]}.
Definition datastore_serie : PerfMetricIntSeries.t :=
  PerfMetricIntSeries.Build (PerfMetricId.Build 178 "5a1b.c2") [7; 9].

Definition no_state : Query.state := Query.State ∅ ∅ ∅.

(** A catalog of three counters, and a configuration that declares two of
    them and one the catalog does not have. *)
Definition catalog : list PerfCounterInfo.t :=
  [PerfCounterInfo.Build 2 "usage" "cpu" "average";
   PerfCounterInfo.Build 125 "usage" "disk" "average";
   PerfCounterInfo.Build 262 "uptime" "sys" "latest"].

Definition config : Configuration :=
  {| Metrics :=
       [Metric.Build ["VirtualMachine"; "HostSystem"]
          [MetricDef.Build "cpu.usage.average" "" 0;
           MetricDef.Build "cpu.ready.summation" "" 0];
        Metric.Build ["VirtualMachine"]
          [MetricDef.Build "disk.usage.average" "*" 0]];
     Interval := 60;
     Domain := ".lab" |}.

(** The scenario of one virtual machine: a CPU counter without instance
    and a disk counter reported for two instances. *)
Definition vm_names : gmap Z string :=
  {[2 := "cpu.usage.average"; 125 := "disk.usage.average"]}.

Definition cpu_serie : PerfMetricIntSeries.t :=
  PerfMetricIntSeries.Build (PerfMetricId.Build 2 "") [40; 60].
Definition scsi0_serie : PerfMetricIntSeries.t :=
  PerfMetricIntSeries.Build (PerfMetricId.Build 125 "scsi0") [20; 30].
Definition scsi1_serie : PerfMetricIntSeries.t :=
  PerfMetricIntSeries.Build (PerfMetricId.Build 125 "scsi1") [5; 15].

Definition vm1 : ManagedObjectReference.t :=
  ManagedObjectReference.Build "VirtualMachine" "vm-1".
Definition host1 : ManagedObjectReference.t :=
  ManagedObjectReference.Build "HostSystem" "host-9".

Definition vm_inventory : Query.inventory :=
  {| Query.morToName := {[vm1 := "VM1.lab"]};
     Query.vm_summary := {[vm1 := {["datastore" := "ds1"; "esx" := "esx1"]}]};
     Query.host_summary := ∅;
     Query.host_extra_metrics := ∅ |}.

Definition vm_metric : PerfEntityMetric.t :=
  PerfEntityMetric.Build vm1
    [IntSeries cpu_serie; IntSeries scsi0_serie; IntSeries scsi1_serie].

Definition vm_tags : gmap string string :=
  {["host" := "vc"; "name" := "vm1"; "datastore" := "ds1"; "esx" := "esx1"]}.

(** Groups for hosts only. *)
Definition host_groups : list MetricGroup.t :=
  [MetricGroup.Build "HostSystem" [MetricDef.Build "cpu.usage.average" "" 2]].

(** One host, one virtual machine on it, in one cluster. *)
Definition host9 : HostSystem.t := HostSystem.Build host1 "esx1.lab" 16.
Definition machine1 : VirtualMachine.t :=
  VirtualMachine.Build vm1 "{vm1 false [ds1] vm1/vm1.vmx 2048}" (Some host1).
Definition cluster1 : ClusterComputeResource.t :=
  ClusterComputeResource.Build "prod" [vm1].
Definition entities : list ManagedEntity.t :=
  [ManagedEntity.Build vm1 "VM1.lab"; ManagedEntity.Build host1 "ESX1.lab"].
Definition machine1_tags : gmap string string :=
  <["esx" := "esx1.lab"]> (<["cluster" := "prod"]> (<["datastore" := "ds1"]> ∅)).
Definition site : Query.inventory :=
  {| Query.morToName := Inventory.morToName entities;
     Query.vm_summary := <[vm1 := machine1_tags]> ∅;
     Query.host_summary := Inventory.host_summary [host9];
     Query.host_extra_metrics := Inventory.host_extra_metrics [host9] |}.
Definition host_metric : PerfEntityMetric.t :=
  PerfEntityMetric.Build host1 [IntSeries cpu_serie].

End Example.

(** * Properties *)

(** ** Minimum, maximum, summation, latest *)

Module ReduceFacts.

Import Reduce Spec.

Lemma valid_snoc n i :
  valid (n ++ [i]) = if 0 <=? i then valid n ++ [i] else valid n.
Proof.
  unfold valid. rewrite List.filter_app. simpl.
  destruct (0 <=? i); [reflexivity | apply app_nil_r].
Qed.

Lemma min_snoc n i : min (n ++ [i]) = min_step (min n) i.
Proof. unfold min. now rewrite fold_left_app. Qed.

Lemma max_snoc n i : max (n ++ [i]) = max_step (max n) i.
Proof. unfold max. now rewrite fold_left_app. Qed.

(** The loop invariant of [min]: [-1] until the first valid sample, then
    the least valid sample seen. *)
Lemma min_invariant n :
  (valid n = [] /\ min n = -1) \/
  (valid n <> [] /\ 0 <= min n /\ In (min n) (valid n) /\
   forall i, In i (valid n) -> min n <= i).
Proof.
  induction n as [|i n IH] using rev_ind.
  - left. split; reflexivity.
  - rewrite valid_snoc, min_snoc. unfold min_step.
    destruct (Z.leb_spec 0 i) as [Hi|Hi]; [right | exact IH].
    split; [now destruct (valid n) |].
    destruct IH as [[Hv Hm]|(Hv & H0 & Hin & Hle)].
    + rewrite Hm, Hv. simpl. repeat split; [lia | now left |].
      intros j [<-|[]]. lia.
    + destruct (Z.eqb_spec (min n) (-1)) as [E|_]; [lia |].
      destruct (Z.ltb_spec i (min n)) as [Hlt|Hge].
      * repeat split; [lia | apply in_or_app; right; now left |].
        intros j Hj. apply in_app_or in Hj as [Hj|[<-|[]]]; [|lia].
        specialize (Hle j Hj). lia.
      * repeat split; [lia | apply in_or_app; now left |].
        intros j Hj. apply in_app_or in Hj as [Hj|[<-|[]]]; [|lia].
        now apply Hle.
Qed.

Lemma max_invariant n :
  (valid n = [] /\ max n = -1) \/
  (valid n <> [] /\ 0 <= max n /\ In (max n) (valid n) /\
   forall i, In i (valid n) -> i <= max n).
Proof.
  induction n as [|i n IH] using rev_ind.
  - left. split; reflexivity.
  - rewrite valid_snoc, max_snoc. unfold max_step.
    destruct (Z.leb_spec 0 i) as [Hi|Hi]; [right | exact IH].
    split; [now destruct (valid n) |].
    destruct IH as [[Hv Hm]|(Hv & H0 & Hin & Hle)].
    + rewrite Hm, Hv. simpl. repeat split; [lia | now left |].
      intros j [<-|[]]. lia.
    + destruct (Z.eqb_spec (max n) (-1)) as [E|_]; [lia |].
      destruct (Z.ltb_spec (max n) i) as [Hlt|Hge].
      * repeat split; [lia | apply in_or_app; right; now left |].
        intros j Hj. apply in_app_or in Hj as [Hj|[<-|[]]]; [|lia].
        specialize (Hle j Hj). lia.
      * repeat split; [lia | apply in_or_app; now left |].
        intros j Hj. apply in_app_or in Hj as [Hj|[<-|[]]]; [|lia].
        now apply Hle.
Qed.

(** C8.  [max] (resp. [min]) is the greatest (resp. least) of the
    non-negative samples, and the sentinel [-1] when no sample is
    non-negative; [max [-1;-1] = -1] and [min [5;-1;2] = 2]. *)
Theorem max_min_over_valid (n : list Z) :
  (valid n = [] -> max n = -1 /\ min n = -1) /\
  (valid n <> [] ->
     (In (max n) (valid n) /\ forall i, In i (valid n) -> i <= max n) /\
     (In (min n) (valid n) /\ forall i, In i (valid n) -> min n <= i)) /\
  max [-1; -1] = -1 /\ min [5; -1; 2] = 2.
Proof.
  split; [|split; [|split; reflexivity]].
  - intros Hv.
    destruct (max_invariant n) as [[_ ->]|[Hn _]]; [|contradiction].
    destruct (min_invariant n) as [[_ ->]|[Hn _]]; [|contradiction].
    split; reflexivity.
  - intros Hv.
    destruct (max_invariant n) as [[Hn _]|(_ & _ & H1 & H2)]; [contradiction|].
    destruct (min_invariant n) as [[Hn _]|(_ & _ & H3 & H4)]; [contradiction|].
    repeat split; assumption.
Qed.

(** Arithmetic of the wrap-around. *)
Lemma wrap_small z : Int64.in_range z -> Int64.wrap z = z.
Proof.
  unfold Int64.in_range, Int64.min_int, Int64.max_int, Int64.wrap. intros H.
  rewrite Z.mod_small; lia.
Qed.

Lemma wrap_add_l a b : Int64.wrap (Int64.wrap a + b) = Int64.wrap (a + b).
Proof.
  unfold Int64.wrap. f_equal.
  replace ((a + 2 ^ 63) mod 2 ^ 64 - 2 ^ 63 + b + 2 ^ 63)
    with ((a + 2 ^ 63) mod 2 ^ 64 + b) by lia.
  rewrite Zplus_mod_idemp_l. f_equal. lia.
Qed.

Lemma wrap_in_range z : Int64.in_range (Int64.wrap z).
Proof.
  unfold Int64.in_range, Int64.min_int, Int64.max_int, Int64.wrap.
  pose proof (Z.mod_pos_bound (z + 2 ^ 63) (2 ^ 64) ltac:(lia)). lia.
Qed.

Lemma positive_total_snoc n i :
  positive_total (n ++ [i]) = positive_total n + (if 0 <? i then i else 0).
Proof.
  unfold positive_total. rewrite List.filter_app, fold_right_app. simpl.
  induction (List.filter (fun i0 => 0 <? i0) n) as [|x l IH]; simpl.
  - destruct (0 <? i); simpl; lia.
  - rewrite IH. lia.
Qed.

Lemma positive_total_nonneg n : 0 <= positive_total n.
Proof.
  induction n as [|i n IH] using rev_ind; [reflexivity|].
  rewrite positive_total_snoc. destruct (Z.ltb_spec 0 i); lia.
Qed.

Lemma sum_snoc n i : sum (n ++ [i]) = sum_step (sum n) i.
Proof. unfold sum. now rewrite fold_left_app. Qed.

Lemma sum_wraps n : sum n = Int64.wrap (positive_total n).
Proof.
  induction n as [|i n IH] using rev_ind; [reflexivity|].
  rewrite sum_snoc, positive_total_snoc, IH. unfold sum_step, Int64.add.
  destruct (0 <? i).
  - apply wrap_add_l.
  - now rewrite Z.add_0_r.
Qed.

(** C9, as the code has it.  [sum] is the sum of the strictly positive
    samples (zero and negative samples left out) in [int64] arithmetic:
    the mathematical sum wrapped to 64 bits, hence that sum itself
    whenever it is at most [2^63 - 1]; [0] when no sample is strictly
    positive; and [sum [-5;0;3;4] = 7]. *)
Theorem sum_positive_wrapped (n : list Z) :
  sum n = Int64.wrap (positive_total n) /\
  (positive_total n <= Int64.max_int -> sum n = positive_total n) /\
  (Forall (fun i => i <= 0) n -> sum n = 0) /\
  sum [-5; 0; 3; 4] = 7.
Proof.
  split; [apply sum_wraps|]. split; [|split; [|reflexivity]].
  - intros Hle. rewrite sum_wraps. apply wrap_small.
    pose proof (positive_total_nonneg n).
    unfold Int64.in_range, Int64.min_int. lia.
  - intros Hall. rewrite sum_wraps.
    replace (positive_total n) with 0; [reflexivity|].
    induction Hall as [|i n Hi _ IH]; [reflexivity|].
    unfold positive_total in *. simpl.
    destruct (Z.ltb_spec 0 i); [lia | exact IH].
Qed.

(** The instance of C9 the witness closes: three samples whose sum fits. *)
Lemma sum_positive_wrapped_witness :
  sum [7; -2; 0; 11] = Int64.wrap (positive_total [7; -2; 0; 11]) /\
  sum [7; -2; 0; 11] = positive_total [7; -2; 0; 11] /\
  sum [-3; 0] = 0.
Proof.
  split; [apply (proj1 (sum_positive_wrapped [7; -2; 0; 11]))|].
  split.
  - apply (proj1 (proj2 (sum_positive_wrapped [7; -2; 0; 11]))).
    vm_compute. discriminate.
  - apply (proj1 (proj2 (proj2 (sum_positive_wrapped [-3; 0])))).
    repeat constructor; lia.
Defined.

(** C9 as the claim words it fails once the sum leaves [int64]: two
    samples of [2^62] add up to [2^63], and [sum] gives [-2^63]. *)
Lemma sum_overflow_counterexample :
  positive_total [4611686018427387904; 4611686018427387904] = 9223372036854775808 /\
  sum [4611686018427387904; 4611686018427387904] = -9223372036854775808 /\
  sum [4611686018427387904; 4611686018427387904]
    <> positive_total [4611686018427387904; 4611686018427387904].
Proof. repeat split. vm_compute. discriminate. Qed.

Lemma latest_snoc n i : latest (n ++ [i]) = Some i.
Proof.
  unfold latest. destruct (n ++ [i]) eqn:E.
  - now destruct n.
  - rewrite <- E. rewrite length_app. simpl.
    replace (length n + 1 - 1)%nat with (length n) by lia.
    now rewrite list_lookup_middle.
Qed.

End ReduceFacts.

(** ** Byte strings *)

Module StringFacts.

Import strings.
Local Open Scope string_scope.

Lemma HasPrefix_iff s prefix :
  HasPrefix s prefix = true <-> exists q, s = prefix ++ q.
Proof.
  revert s. induction prefix as [|p prefix IH]; intros s.
  - split; [intros _; now exists s | now destruct s].
  - destruct s as [|c s]; simpl.
    + split; [discriminate | intros [q Hq]; discriminate].
    + rewrite andb_true_iff, Ascii.eqb_eq, IH. split.
      * intros [-> [q ->]]. now exists q.
      * intros [q Hq]. injection Hq as -> ->. split; [reflexivity | now exists q].
Qed.

Lemma Index_from_eq i s substr :
  Index_from i s substr =
  if HasPrefix s substr then i
  else match s with
       | EmptyString => -1
       | String _ s' => Index_from (i + 1) s' substr
       end.
Proof. now destruct s. Qed.

(** [strings.Index] finds the substring exactly when it is there. *)
Lemma Index_from_found i s substr :
  0 <= i ->
  Index_from i s substr <> -1 <-> exists p q, s = p ++ substr ++ q.
Proof.
  revert i. induction s as [|c s IH]; intros i Hi; rewrite Index_from_eq.
  - destruct (HasPrefix "" substr) eqn:E.
    + split; [|lia]. intros _. apply HasPrefix_iff in E as [q Hq].
      now exists "", q.
    + split; [congruence|]. intros (p & q & Hpq).
      destruct p; simpl in Hpq; [|discriminate].
      assert (HasPrefix "" substr = true) by (apply HasPrefix_iff; now exists q).
      congruence.
  - destruct (HasPrefix (String c s) substr) eqn:E.
    + split; [|lia]. intros _. apply HasPrefix_iff in E as [q Hq].
      now exists "", q.
    + rewrite (IH (i + 1)) by lia. split.
      * intros (p & q & ->). now exists (String c p), q.
      * intros (p & q & Hpq). destruct p as [|c' p]; simpl in Hpq.
        -- assert (HasPrefix (String c s) substr = true)
             by (apply HasPrefix_iff; now exists q).
           congruence.
        -- injection Hpq as -> ->. now exists p, q.
Qed.

Lemma Index_found s substr :
  Index s substr <> -1 <-> exists p q, s = p ++ substr ++ q.
Proof. apply Index_from_found. lia. Qed.

Lemma drop_length k s : String.length (drop k s) = (String.length s - k)%nat.
Proof.
  revert s. induction k as [|k IH]; intros s; simpl; [lia|].
  destruct s; simpl; [reflexivity | apply IH].
Qed.

Lemma drop_drop j k s : drop j (drop k s) = drop (k + j) s.
Proof.
  revert s. induction k as [|k IH]; intros s; simpl; [reflexivity|].
  destruct s; simpl; [now destruct j | apply IH].
Qed.

Lemma HasSuffix_inv s suffix :
  HasSuffix s suffix = true ->
  (String.length suffix <= String.length s)%nat /\
  drop (String.length s - String.length suffix) s = suffix.
Proof.
  unfold HasSuffix. rewrite andb_true_iff, Nat.leb_le, String.eqb_eq. tauto.
Qed.

(** Two suffixes of one string: the shorter is a suffix of the longer. *)
Lemma HasSuffix_chain s a b :
  HasSuffix s a = true -> HasSuffix s b = true ->
  (String.length a <= String.length b)%nat ->
  HasSuffix b a = true.
Proof.
  intros Ha Hb Hlen.
  apply HasSuffix_inv in Ha as [La Da], Hb as [Lb Db].
  unfold HasSuffix. rewrite andb_true_iff, Nat.leb_le, String.eqb_eq.
  split; [exact Hlen|].
  replace (drop (String.length b - String.length a) b)
    with (drop (String.length b - String.length a)
               (drop (String.length s - String.length b) s))
    by now rewrite Db.
  rewrite drop_drop.
  replace (String.length s - String.length b
             + (String.length b - String.length a))%nat
    with (String.length s - String.length a)%nat by lia.
  exact Da.
Qed.

(** The five rollup suffixes exclude each other. *)
Lemma HasSuffix_exclusive s a b :
  HasSuffix s a = true -> HasSuffix b a = false -> HasSuffix a b = false ->
  HasSuffix s b = false.
Proof.
  intros Ha Hba Hab. destruct (HasSuffix s b) eqn:Hb; [|reflexivity].
  destruct (Nat.le_ge_cases (String.length a) (String.length b)) as [H|H].
  - rewrite (HasSuffix_chain s a b Ha Hb H) in Hba. discriminate.
  - rewrite (HasSuffix_chain s b a Hb Ha H) in Hab. discriminate.
Qed.

End StringFacts.

(** ** The series loop of the point assembler *)

Module AssemblerFacts.

Import Query.
Local Open Scope string_scope.
Local Open Scope list_scope.
Local Open Scope Z_scope.

Lemma lookup_update_special_eq {V} (m : gmap string (gmap string (gmap string (gmap string V))))
    a b c f :
  lookup_special (update_special m a b c f) a b c = f (lookup_special m a b c).
Proof.
  unfold lookup_special, update_special, get.
  repeat (rewrite lookup_insert_eq; simpl). reflexivity.
Qed.

Lemma lookup_update_special_ne {V} (m : gmap string (gmap string (gmap string (gmap string V))))
    a b c a' b' c' f :
  (a, b, c) <> (a', b', c') ->
  lookup_special (update_special m a b c f) a' b' c' = lookup_special m a' b' c'.
Proof.
  intros Hne. unfold lookup_special, update_special, get.
  destruct (decide (a = a')) as [<-|Ha]; [|now rewrite lookup_insert_ne].
  rewrite lookup_insert_eq. simpl.
  destruct (decide (b = b')) as [<-|Hb]; [|now rewrite lookup_insert_ne].
  rewrite lookup_insert_eq. simpl.
  destruct (decide (c = c')) as [<-|Hc]; [congruence|].
  now rewrite lookup_insert_ne.
Qed.

Lemma present_lookup_special {V} (m : gmap string (gmap string (gmap string (gmap string V))))
    a b c inner :
  Spec.present m a b c inner -> lookup_special m a b c = inner.
Proof.
  intros (x & y & Hx & Hy & Hz). unfold lookup_special, get.
  rewrite Hx. simpl. rewrite Hy. simpl. now rewrite Hz.
Qed.

(** After a write under [(a, b, c)] that key is present with the new
    map, and the other keys are as they were. *)
Lemma present_update_special {V} (m : gmap string (gmap string (gmap string (gmap string V))))
    a b c f a' b' c' inner :
  Spec.present (update_special m a b c f) a' b' c' inner <->
  ((a', b', c') = (a, b, c) /\ inner = f (lookup_special m a b c)) \/
  ((a', b', c') <> (a, b, c) /\ Spec.present m a' b' c' inner).
Proof.
  unfold Spec.present, update_special, lookup_special, get.
  destruct (decide (a' = a)) as [->|Ha].
  2:{ setoid_rewrite lookup_insert_ne; [|congruence].
      split; [intros H; right; split; [congruence | exact H]|].
      intros [[E _]|[_ H]]; [congruence | exact H]. }
  destruct (decide (b' = b)) as [->|Hb].
  2:{ split.
      - intros (x & y & Hx & Hy & Hz). rewrite lookup_insert_eq in Hx.
        injection Hx as <-. rewrite lookup_insert_ne in Hy by congruence.
        right. split; [congruence|].
        destruct (m !! a) as [ma|] eqn:Ema; simpl in Hy.
        + now exists ma, y.
        + rewrite lookup_empty in Hy. discriminate.
      - intros [[E _]|[_ (x & y & Hx & Hy & Hz)]]; [congruence|].
        eexists _, y. rewrite lookup_insert_eq. split; [reflexivity|].
        rewrite lookup_insert_ne by congruence. rewrite Hx. simpl. now split. }
  destruct (decide (c' = c)) as [->|Hc].
  - split.
    + intros (x & y & Hx & Hy & Hz). rewrite lookup_insert_eq in Hx.
      injection Hx as <-. rewrite lookup_insert_eq in Hy. injection Hy as <-.
      rewrite lookup_insert_eq in Hz. injection Hz as <-. now left.
    + intros [[_ ->]|[E _]]; [|congruence].
      eexists _, _. rewrite lookup_insert_eq. split; [reflexivity|].
      rewrite lookup_insert_eq. split; [reflexivity|].
      now rewrite lookup_insert_eq.
  - split.
    + intros (x & y & Hx & Hy & Hz). rewrite lookup_insert_eq in Hx.
      injection Hx as <-. rewrite lookup_insert_eq in Hy. injection Hy as <-.
      rewrite lookup_insert_ne in Hz by congruence.
      right. split; [congruence|].
      destruct (m !! a) as [ma|] eqn:Ema; simpl in Hz.
      * destruct (ma !! b) as [mb|] eqn:Emb; simpl in Hz.
        -- now exists ma, mb.
        -- rewrite lookup_empty in Hz. discriminate.
      * rewrite lookup_empty in Hz. simpl in Hz. rewrite lookup_empty in Hz.
        discriminate.
    + intros [[E _]|[_ (x & y & Hx & Hy & Hz)]]; [congruence|].
      eexists _, _. rewrite lookup_insert_eq. split; [reflexivity|].
      rewrite lookup_insert_eq. split; [reflexivity|].
      rewrite lookup_insert_ne by congruence. rewrite Hx. simpl. rewrite Hy. simpl.
      exact Hz.
Qed.

(** [for k, v := range src { dst[k] = v }] is the union that prefers
    [src]. *)
Lemma copy_into_lookup {V} (src dst : gmap string V) k :
  copy_into src dst !! k =
  match src !! k with Some v => Some v | None => dst !! k end.
Proof.
  unfold copy_into.
  apply (map_fold_weak_ind
           (fun r (m : gmap string V) =>
              r !! k = match m !! k with Some v => Some v | None => dst !! k end)).
  - now rewrite lookup_empty.
  - intros i x m r Hi IH.
    destruct (decide (i = k)) as [->|Hne].
    + now rewrite !lookup_insert_eq.
    + now rewrite !lookup_insert_ne.
Qed.

(** C5.  For a metric whose name ends in [.latest] the value is the last
    sample as it stands, a negative one included ([latest [1;2;-1] = -1]);
    the index is not guarded, so on an empty sample sequence the code
    panics and there is a value only when the sequence is non-empty. *)
Theorem latest_is_last_sample (impl_int64 : spec_float -> Z)
    (metricName : string) :
  strings.HasSuffix metricName ".latest" = true ->
  value_of impl_int64 metricName [] = None /\
  (forall (n : list Z) (i : Z), value_of impl_int64 metricName (n ++ [i]) = Some i) /\
  (forall Value : list Z,
     is_Some (value_of impl_int64 metricName Value) <-> Value <> []) /\
  Reduce.latest [1; 2; -1] = Some (-1).
Proof.
  intros Hl.
  assert (Hv : forall Value, value_of impl_int64 metricName Value = Reduce.latest Value).
  { intros Value. unfold value_of.
    rewrite (StringFacts.HasSuffix_exclusive metricName ".latest" ".average" Hl)
      by reflexivity.
    rewrite (StringFacts.HasSuffix_exclusive metricName ".latest" ".maximum" Hl)
      by reflexivity.
    rewrite (StringFacts.HasSuffix_exclusive metricName ".latest" ".minimum" Hl)
      by reflexivity.
    now rewrite Hl. }
  split; [now rewrite Hv|]. split; [|split; [|reflexivity]].
  - intros n i. rewrite Hv. apply ReduceFacts.latest_snoc.
  - intros Value. rewrite Hv.
    destruct Value as [|x l] using rev_ind.
    + split; [intros [? H]; discriminate | congruence].
    + rewrite ReduceFacts.latest_snoc. split; [now destruct l | eauto].
Qed.

Lemma latest_is_last_sample_witness :
  strings.HasSuffix "sys.uptime.latest" ".latest" = true /\
  value_of (fun _ => 0) "sys.uptime.latest" [] = None /\
  value_of (fun _ => 0) "sys.uptime.latest" ([3; 4] ++ [-1]) = Some (-1).
Proof.
  split; [reflexivity|].
  split.
  - apply (latest_is_last_sample (fun _ => 0) "sys.uptime.latest"). reflexivity.
  - apply (latest_is_last_sample (fun _ => 0) "sys.uptime.latest"). reflexivity.
Defined.

(** C10.  A series whose metric name ends in none of the five rollup
    suffixes is neither dropped nor an error: the loop goes on, and the
    field of that series is written with the default value [-1], in the
    entity's field map when the instance is empty and in the field map of
    its (measurement, name, instance) otherwise. *)
Theorem default_value_is_emitted (ToLower : string -> string)
    (impl_int64 : spec_float -> Z) (names : gmap Z string)
    (tags : gmap string string) (st : state) (serie : PerfMetricIntSeries.t) :
  let metricName := metricName_of ToLower names serie in
  let influxMetricName := influxMetricName_of metricName in
  let instanceName := instanceName_of ToLower influxMetricName serie in
  strings.HasSuffix metricName ".average" = false ->
  strings.HasSuffix metricName ".maximum" = false ->
  strings.HasSuffix metricName ".minimum" = false ->
  strings.HasSuffix metricName ".latest" = false ->
  strings.HasSuffix metricName ".summation" = false ->
  value_of impl_int64 metricName (PerfMetricIntSeries.Value serie) = Some (-1) /\
  exists st',
    serie_step ToLower impl_int64 names tags st (IntSeries serie) = Some st' /\
    (instanceName = "" -> fields st' !! influxMetricName = Some (-1)) /\
    (instanceName <> "" ->
       lookup_special (special_fields st') (measurementName_of metricName)
         (get "" tags "name") instanceName !! influxMetricName = Some (-1)).
Proof.
  intros metricName influxMetricName instanceName Ha Hx Hn Hl Hs.
  assert (Hv : value_of impl_int64 metricName (PerfMetricIntSeries.Value serie) = Some (-1)).
  { unfold value_of. now rewrite Ha, Hx, Hn, Hl, Hs. }
  split; [exact Hv|].
  unfold serie_step. fold metricName influxMetricName instanceName.
  rewrite Hv.
  destruct (String.eqb_spec instanceName "") as [E|E].
  - eexists. split; [reflexivity|]. simpl. split; [|congruence].
    intros _. apply lookup_insert_eq.
  - eexists. split; [reflexivity|]. simpl. split; [congruence|].
    intros _. rewrite lookup_update_special_eq. apply lookup_insert_eq.
Qed.

Lemma default_value_is_emitted_witness :
  strings.HasSuffix
    (metricName_of strings.ascii_ToLower Example.none_names Example.none_serie)
    ".summation" = false /\
  value_of Example.impl_min
    (metricName_of strings.ascii_ToLower Example.none_names Example.none_serie)
    (PerfMetricIntSeries.Value Example.none_serie) = Some (-1).
Proof.
  split; [reflexivity|].
  refine (proj1 (default_value_is_emitted strings.ascii_ToLower Example.impl_min
                   Example.none_names ∅ Example.no_state Example.none_serie
                   _ _ _ _ _)); reflexivity.
Defined.

(** C6.  When the underscored field name contains ["datastore"], the
    instance name is empty whatever instance the platform reported: the
    step writes the value to the entity's field map and leaves the
    per-instance maps, from which the per-instance points are made, as
    they were. *)
Theorem datastore_is_entity_level (ToLower : string -> string)
    (impl_int64 : spec_float -> Z) (names : gmap Z string)
    (tags : gmap string string) (st : state) (serie : PerfMetricIntSeries.t) :
  let metricName := metricName_of ToLower names serie in
  let influxMetricName := influxMetricName_of metricName in
  (exists p q, influxMetricName = p ++ "datastore" ++ q)%string ->
  instanceName_of ToLower influxMetricName serie = "" /\
  serie_step ToLower impl_int64 names tags st (IntSeries serie) =
    match value_of impl_int64 metricName (PerfMetricIntSeries.Value serie) with
    | Some value =>
        Some (State (<[influxMetricName := value]> (fields st))
                (special_fields st) (special_tags st))
    | None => None
    end.
Proof.
  intros metricName influxMetricName Hsub.
  apply StringFacts.Index_found in Hsub.
  assert (Hi : instanceName_of ToLower influxMetricName serie = "").
  { unfold instanceName_of.
    destruct (Z.eqb_spec (strings.Index influxMetricName "datastore") (-1));
      [contradiction | reflexivity]. }
  split; [exact Hi|].
  unfold serie_step. fold metricName influxMetricName. rewrite Hi.
  reflexivity.
Qed.

Lemma datastore_is_entity_level_witness :
  instanceName_of strings.ascii_ToLower
    (influxMetricName_of
       (metricName_of strings.ascii_ToLower Example.datastore_names
          Example.datastore_serie))
    Example.datastore_serie = "".
Proof.
  refine (proj1 (datastore_is_entity_level strings.ascii_ToLower Example.impl_min
                   Example.datastore_names ∅ Example.no_state
                   Example.datastore_serie _)).
  exists "", "_read_average". reflexivity.
Defined.

(** The per-instance points are those of the innermost maps present. *)
Lemma special_points_In sf tg p :
  In p (special_points sf tg) <->
  exists m n i inner,
    Spec.present sf m n i inner /\ p = Point.Build m (lookup_special tg m n i) inner.
Proof.
  rewrite <- list_elem_of_In. unfold special_points, Spec.present. split.
  - intros H.
    apply list_elem_of_bind in H as ([m mv] & H & Hm).
    apply list_elem_of_bind in H as ([n nm] & H & Hn).
    apply list_elem_of_bind in H as ([i inner] & H & Hi).
    apply list_elem_of_singleton in H. simpl in *.
    apply elem_of_map_to_list in Hm, Hn, Hi.
    exists m, n, i, inner. split; [|exact H]. now exists mv, nm.
  - intros (m & n & i & inner & (mv & nm & Hm & Hn & Hi) & ->).
    apply list_elem_of_bind. exists (m, mv). split; [|now apply elem_of_map_to_list].
    apply list_elem_of_bind. exists (n, nm). split; [|now apply elem_of_map_to_list].
    apply list_elem_of_bind. exists (i, inner). split; [|now apply elem_of_map_to_list].
    simpl. apply list_elem_of_singleton. reflexivity.
Qed.

Lemma series_loop_snoc ToLower impl_int64 names tags st Value baseserie :
  series_loop ToLower impl_int64 names tags st (Value ++ [baseserie]) =
  match series_loop ToLower impl_int64 names tags st Value with
  | Some st' => serie_step ToLower impl_int64 names tags st' baseserie
  | None => None
  end.
Proof.
  revert st. induction Value as [|b Value IH]; intros st; simpl.
  - now destruct (serie_step _ _ _ _ _ _).
  - destruct (serie_step _ _ _ _ st b); [apply IH | reflexivity].
Qed.

Section Loop.

Variable ToLower : string -> string.
Variable impl_int64 : spec_float -> Z.
Variable names : gmap Z string.
Variable tags : gmap string string.

Local Abbreviation field_of := (Spec.field_of ToLower names).
Local Abbreviation instance_of := (Spec.instance_of ToLower names).
Local Abbreviation measurement_of := (Spec.measurement_of ToLower names).
Local Abbreviation sample_value := (Spec.sample_value ToLower impl_int64 names).
Local Abbreviation entity_fields := (Spec.entity_fields ToLower impl_int64 names).
Local Abbreviation instance_fields := (Spec.instance_fields ToLower impl_int64 names).
Local Abbreviation loop := (series_loop ToLower impl_int64 names tags).
Local Abbreviation step := (serie_step ToLower impl_int64 names tags).

(** The step, spelled out for a series that has a value. *)
Lemma serie_step_inv st baseserie st' :
  step st baseserie = Some st' ->
  exists serie value,
    baseserie = IntSeries serie /\ sample_value serie = Some value /\
    st' = if String.eqb (instance_of serie) ""
          then State (<[field_of serie := value]> (fields st))
                     (special_fields st) (special_tags st)
          else State (fields st)
                 (update_special (special_fields st) (measurement_of serie)
                    (get "" tags "name") (instance_of serie)
                    (fun inner => <[field_of serie := value]> inner))
                 (update_special (special_tags st) (measurement_of serie)
                    (get "" tags "name") (instance_of serie)
                    (fun inner => <["instance" := instance_of serie]> (copy_into tags inner))).
Proof.
  destruct baseserie as [serie|]; [|discriminate]. unfold serie_step.
  fold (Spec.field_of ToLower names serie).
  fold (Spec.instance_of ToLower names serie).
  fold (Spec.measurement_of ToLower names serie).
  fold (Spec.sample_value ToLower impl_int64 names serie).
  destruct (sample_value serie) as [value|] eqn:Hv; [|discriminate].
  intros H. exists serie, value. split; [reflexivity|]. split; [exact Hv|].
  destruct (String.eqb _ _); now injection H.
Qed.

Lemma entity_fields_snoc Value baseserie :
  entity_fields (Value ++ [baseserie]) =
  Spec.put_if ToLower impl_int64 names
    (fun serie => String.eqb (instance_of serie) "") (entity_fields Value) baseserie.
Proof. unfold Spec.entity_fields. now rewrite fold_left_app. Qed.

Lemma instance_fields_snoc Value baseserie m i :
  instance_fields (Value ++ [baseserie]) m i =
  Spec.put_if ToLower impl_int64 names
    (fun serie => String.eqb (measurement_of serie) m && String.eqb (instance_of serie) i)
    (instance_fields Value m i) baseserie.
Proof. unfold Spec.instance_fields. now rewrite fold_left_app. Qed.

(** The tag set of an instance does not change once it is written. *)
Lemma instance_tags_stable (i : string) (inner : gmap string string) :
  inner = ∅ \/ inner = <["instance" := i]> tags ->
  <["instance" := i]> (copy_into tags inner) = <["instance" := i]> tags.
Proof.
  intros Hinner. apply map_eq. intros k.
  destruct (decide ("instance" = k)) as [<-|Hk].
  - now rewrite !lookup_insert_eq.
  - rewrite !lookup_insert_ne by exact Hk. rewrite copy_into_lookup.
    destruct (tags !! k) eqn:Et; [reflexivity|].
    destruct Hinner as [->| ->].
    + apply lookup_empty.
    + now rewrite lookup_insert_ne.
Qed.

Lemma loop_invariant_step Value st baseserie st' :
  Spec.loop_invariant ToLower impl_int64 names tags Value st ->
  step st baseserie = Some st' ->
  Spec.loop_invariant ToLower impl_int64 names tags (Value ++ [baseserie]) st'.
Proof.
  intros (I1 & I2 & I3 & I4 & I5 & I6) Hstep.
  apply serie_step_inv in Hstep as (serie & value & -> & Hv & ->).
  unfold Spec.loop_invariant.
  destruct (String.eqb_spec (instance_of serie) "") as [Ei|Ei]; simpl.
  - (* an entity-level value *)
    split; [|split; [|split; [|split; [|split]]]].
    + rewrite entity_fields_snoc. simpl.
      destruct (String.eqb_spec (instance_of serie) ""); [|contradiction].
      now rewrite Hv, I1.
    + intros m i Hi. rewrite instance_fields_snoc. simpl.
      destruct (String.eqb_spec (instance_of serie) i) as [E|E]; [congruence|].
      rewrite andb_false_r. now apply I2.
    + intros m n i inner Hp. destruct (I3 m n i inner Hp) as (Hn & Hi & s & Hs & Hm & Hsi).
      split; [exact Hn|]. split; [exact Hi|]. exists s.
      split; [apply in_or_app; now left | now split].
    + intros s Hs Hsi. apply in_app_or in Hs as [Hs|[Hs|[]]]; [now apply I4|].
      injection Hs as <-. contradiction.
    + exact I5.
    + exact I6.
  - (* a per-instance value *)
    split; [|split; [|split; [|split; [|split]]]].
    + rewrite entity_fields_snoc. simpl.
      destruct (String.eqb_spec (instance_of serie) ""); [contradiction | exact I1].
    + intros m i Hi. rewrite instance_fields_snoc. simpl.
      destruct (String.eqb_spec (measurement_of serie) m) as [Em|Em];
        [destruct (String.eqb_spec (instance_of serie) i) as [Es|Es]|]; simpl.
      * subst m i. rewrite lookup_update_special_eq, Hv. now rewrite I2.
      * rewrite lookup_update_special_ne by congruence. now apply I2.
      * rewrite lookup_update_special_ne by congruence. now apply I2.
    + intros m n i inner Hp.
      apply present_update_special in Hp as [[[= -> -> ->] _]|[_ Hp]].
      * split; [reflexivity|]. split; [exact Ei|]. exists serie.
        split; [apply in_or_app; right; now left | now split].
      * destruct (I3 m n i inner Hp) as (Hn & Hi & s & Hs & Hm & Hsi).
        split; [exact Hn|]. split; [exact Hi|]. exists s.
        split; [apply in_or_app; now left | now split].
    + intros s Hs Hsi.
      destruct (decide ((measurement_of s, get "" tags "name", instance_of s)
                        = (measurement_of serie, get "" tags "name", instance_of serie)))
        as [E|E].
      * eexists. apply present_update_special. left. split; [exact E | reflexivity].
      * apply in_app_or in Hs as [Hs|[Hs|[]]]; [|injection Hs as <-; congruence].
        destruct (I4 s Hs Hsi) as [inner Hp]. exists inner.
        apply present_update_special. right. now split.
    + intros m n i.
      destruct (decide ((measurement_of serie, get "" tags "name", instance_of serie)
                        = (m, n, i))) as [[= <- <- <-]|E].
      * right. rewrite lookup_update_special_eq. apply instance_tags_stable, I5.
      * rewrite lookup_update_special_ne by exact E. apply I5.
    + intros m n i inner Hp.
      apply present_update_special in Hp as [[[= -> -> ->] _]|[Hne Hp]].
      * rewrite lookup_update_special_eq. apply instance_tags_stable, I5.
      * rewrite lookup_update_special_ne by congruence. now apply (I6 m n i inner).
Qed.

(** The invariant holds when the loop is through. *)
Lemma loop_invariant_holds Value st :
  loop (State ∅ ∅ ∅) Value = Some st ->
  Spec.loop_invariant ToLower impl_int64 names tags Value st.
Proof.
  revert st. induction Value as [|baseserie Value IH] using rev_ind; intros st.
  - intros [= <-]. unfold Spec.loop_invariant. simpl.
    split; [reflexivity|]. split; [reflexivity|].
    assert (Hnone : forall V m n i (inner : gmap string V), ~ Spec.present ∅ m n i inner).
    { intros V m n i inner (x & y & Hx & _). rewrite lookup_empty in Hx. discriminate. }
    split; [intros m n i inner Hp; now apply Hnone in Hp|].
    split; [intros serie []|].
    split; [now left | intros m n i inner Hp; now apply Hnone in Hp].
  - rewrite series_loop_snoc.
    destruct (loop (State ∅ ∅ ∅) Value) as [st1|]; [|discriminate].
    intros Hstep. apply (loop_invariant_step Value st1); [now apply IH | exact Hstep].
Qed.

(** Every entry of a field map built by [put_if] is the value of a
    series that [keep] lets through. *)
Lemma put_if_provenance keep Value k v :
  fold_left (Spec.put_if ToLower impl_int64 names keep) Value ∅ !! k = Some v ->
  exists serie,
    In (IntSeries serie) Value /\ keep serie = true /\
    field_of serie = k /\ sample_value serie = Some v.
Proof.
  induction Value as [|baseserie Value IH] using rev_ind.
  - simpl. rewrite lookup_empty. discriminate.
  - rewrite fold_left_app. simpl. intros H.
    assert (Hold : fold_left (Spec.put_if ToLower impl_int64 names keep) Value ∅ !! k = Some v ->
                   exists serie, In (IntSeries serie) (Value ++ [baseserie]) /\
                     keep serie = true /\ field_of serie = k /\ sample_value serie = Some v).
    { intros H'. destruct (IH H') as (s & Hs & Hrest). exists s.
      split; [apply in_or_app; now left | exact Hrest]. }
    destruct baseserie as [serie|]; simpl in H; [|now apply Hold].
    destruct (keep serie) eqn:Hk; [|now apply Hold].
    destruct (sample_value serie) as [value|] eqn:Hv; [|now apply Hold].
    destruct (decide (field_of serie = k)) as [E|E].
    + rewrite E, lookup_insert_eq in H. injection H as <-. exists serie.
      split; [apply in_or_app; right; now left | now repeat split].
    + rewrite lookup_insert_ne in H by exact E. now apply Hold.
Qed.

(** A series that [keep] lets through and that has a value has its field
    in the map. *)
Lemma put_if_present keep Value serie :
  In (IntSeries serie) Value -> keep serie = true -> is_Some (sample_value serie) ->
  is_Some (fold_left (Spec.put_if ToLower impl_int64 names keep) Value ∅ !! field_of serie).
Proof.
  induction Value as [|baseserie Value IH] using rev_ind; [intros []|].
  intros Hin Hk Hv. rewrite fold_left_app. simpl.
  assert (Hlater : forall s', baseserie = IntSeries s' ->
            keep s' = true -> forall value, sample_value s' = Some value ->
            field_of s' <> field_of serie -> In (IntSeries serie) Value).
  { intros s' -> _ value _ Hne. apply in_app_or in Hin as [Hin|[Hin|[]]]; [exact Hin|].
    injection Hin as ->. contradiction. }
  destruct baseserie as [s'|]; simpl.
  - destruct (keep s') eqn:Hk'.
    + destruct (sample_value s') as [value|] eqn:Hv'.
      * destruct (decide (field_of s' = field_of serie)) as [E|E].
        -- rewrite E, lookup_insert_eq. eauto.
        -- rewrite lookup_insert_ne by exact E. apply IH; eauto.
      * apply IH; try assumption.
        apply in_app_or in Hin as [Hin|[Hin|[]]]; [exact Hin|].
        injection Hin as ->. rewrite Hv' in Hv. now destruct Hv.
    + apply IH; try assumption.
      apply in_app_or in Hin as [Hin|[Hin|[]]]; [exact Hin|].
      injection Hin as ->. congruence.
  - apply IH; try assumption.
    apply in_app_or in Hin as [Hin|[Hin|[]]]; [exact Hin | discriminate].
Qed.

(** When the loop is through, every series had a value. *)
Lemma loop_values st Value st' :
  loop st Value = Some st' ->
  forall serie, In (IntSeries serie) Value -> is_Some (sample_value serie).
Proof.
  revert st. induction Value as [|baseserie Value IH]; intros st; simpl; [intros _ s []|].
  destruct (step st baseserie) as [st1|] eqn:Hstep; [|discriminate].
  intros Hloop serie [->|Hin]; [|now apply (IH st1)].
  apply serie_step_inv in Hstep as (s & value & [= <-] & Hv & _). eauto.
Qed.

(** Under the invariant no per-instance point is listed twice. *)
Lemma special_points_NoDup Value st :
  Spec.loop_invariant ToLower impl_int64 names tags Value st ->
  NoDup (special_points (special_fields st) (special_tags st)).
Proof.
  intros (_ & _ & I3 & _ & _ & I6). unfold special_points.
  apply NoDup_bind; [| |apply NoDup_map_to_list].
  - intros [m1 mv1] [m2 mv2] y H1 H2 Hy1 Hy2. simpl in *.
    apply list_elem_of_bind in Hy1 as (? & Hy1 & _).
    apply list_elem_of_bind in Hy1 as (? & Hy1 & _).
    apply list_elem_of_singleton in Hy1.
    apply list_elem_of_bind in Hy2 as (? & Hy2 & _).
    apply list_elem_of_bind in Hy2 as (? & Hy2 & _).
    apply list_elem_of_singleton in Hy2.
    assert (m1 = m2) as <- by (subst y; now injection Hy2).
    apply elem_of_map_to_list in H1, H2. congruence.
  - intros [m mv] Hm. simpl. apply elem_of_map_to_list in Hm.
    apply NoDup_bind; [| |apply NoDup_map_to_list].
    + intros [n1 nm1] [n2 nm2] y H1 H2 Hy1 Hy2. simpl in *.
      apply elem_of_map_to_list in H1, H2.
      apply list_elem_of_bind in Hy1 as ([i1 inner1] & _ & Hi1).
      apply list_elem_of_bind in Hy2 as ([i2 inner2] & _ & Hi2).
      apply elem_of_map_to_list in Hi1, Hi2.
      assert (P1 : Spec.present (special_fields st) m n1 i1 inner1) by now exists mv, nm1.
      assert (P2 : Spec.present (special_fields st) m n2 i2 inner2) by now exists mv, nm2.
      apply I3 in P1 as [-> _], P2 as [-> _]. congruence.
    + intros [n nm] Hn. simpl. apply elem_of_map_to_list in Hn.
      apply NoDup_bind; [| |apply NoDup_map_to_list].
      * intros [i1 inner1] [i2 inner2] y H1 H2 Hy1 Hy2. simpl in *.
        apply elem_of_map_to_list in H1, H2.
        apply list_elem_of_singleton in Hy1, Hy2.
        assert (P1 : Spec.present (special_fields st) m n i1 inner1) by now exists mv, nm.
        assert (P2 : Spec.present (special_fields st) m n i2 inner2) by now exists mv, nm.
        apply I6 in P1, P2. rewrite P1 in Hy1. rewrite P2 in Hy2. subst y.
        injection Hy2 as Ht Hinner.
        assert (Hi : (<["instance" := i1]> tags : gmap string string) !! "instance"
                     = (<["instance" := i2]> tags : gmap string string) !! "instance")
          by now rewrite Ht.
        rewrite !lookup_insert_eq in Hi. congruence.
      * intros [i inner] _. apply NoDup_singleton.
Qed.

End Loop.

(** C4.  The points of one entity are its entity-level point and the
    per-instance points.  The field map of the entity-level point is made
    of the series with an empty instance (and of the host's extra
    metrics) only: each of its entries from the series is the value of a
    series whose instance is empty.  A series with a non-empty instance
    has its value in the point of its measurement and instance, whose
    tags are the entity's tags (its name among them) with the tag
    [instance] added and whose field map is that of all the series of
    that measurement and instance; there is one such point for each
    measurement and instance, and there are no others. *)
Theorem instance_values_own_point (ToLower : string -> string)
    (impl_int64 : spec_float -> Z) (config : Configuration) (Hostname : string)
    (names : gmap Z string) (inv : inventory) (pem : PerfEntityMetric.t)
    (pts : list Point.t) :
  entity_points ToLower impl_int64 config Hostname names inv (EntityMetric pem) = Some pts ->
  let Entity := PerfEntityMetric.Entity pem in
  let Value := PerfEntityMetric.Value pem in
  let tags :=
    tags_of inv (strings.Replace Hostname (Domain config) "")
      (ToLower (strings.Replace (get "" (morToName inv) Entity) (Domain config) ""))
      Entity in
  let entity_fields := Spec.entity_fields ToLower impl_int64 names Value in
  let instance_fields := Spec.instance_fields ToLower impl_int64 names Value in
  let field_of := Spec.field_of ToLower names in
  let instance_of := Spec.instance_of ToLower names in
  let measurement_of := Spec.measurement_of ToLower names in
  let sample_value := Spec.sample_value ToLower impl_int64 names in
  exists specials,
    pts = Point.Build (ToLower (ManagedObjectReference.Type_ Entity)) tags
            (match host_extra_metrics inv !! Entity with
             | Some metrics => copy_into metrics entity_fields
             | None => entity_fields
             end) :: specials /\
    (forall k v, entity_fields !! k = Some v ->
       exists serie, In (IntSeries serie) Value /\ instance_of serie = "" /\
                     field_of serie = k /\ sample_value serie = Some v) /\
    (forall p, In p specials <->
       exists serie, In (IntSeries serie) Value /\ instance_of serie <> "" /\
         p = Point.Build (measurement_of serie)
               (<["instance" := instance_of serie]> tags)
               (instance_fields (measurement_of serie) (instance_of serie))) /\
    NoDup specials /\
    (forall serie, In (IntSeries serie) Value -> instance_of serie <> "" ->
       is_Some (instance_fields (measurement_of serie) (instance_of serie)
                  !! field_of serie)) /\
    (forall m i k v, instance_fields m i !! k = Some v ->
       exists serie, In (IntSeries serie) Value /\ measurement_of serie = m /\
                     instance_of serie = i /\ field_of serie = k /\
                     sample_value serie = Some v).
Proof.
  intros Hpts Entity Value tags. cbv zeta.
  unfold entity_points in Hpts. fold Entity Value tags in Hpts.
  destruct (series_loop ToLower impl_int64 names tags (State ∅ ∅ ∅) Value) as [st|] eqn:Hloop;
    [|discriminate].
  injection Hpts as <-.
  pose proof (loop_invariant_holds _ _ _ _ _ _ Hloop) as Hinv.
  pose proof Hinv as (I1 & I2 & I3 & I4 & I5 & I6).
  exists (special_points (special_fields st) (special_tags st)).
  split; [now rewrite I1|]. split; [|split; [|split; [|split]]].
  - intros k v Hk.
    destruct (put_if_provenance _ _ _ _ _ _ _ Hk) as (serie & Hin & Hkeep & Hf & Hv).
    exists serie. split; [exact Hin|]. split; [|now split].
    now apply String.eqb_eq.
  - intros p. rewrite special_points_In. split.
    + intros (m & n & i & inner & Hp & ->).
      destruct (I3 m n i inner Hp) as (-> & Hi & serie & Hin & <- & <-).
      exists serie. split; [exact Hin|]. split; [exact Hi|].
      rewrite (I6 _ _ _ _ Hp). f_equal.
      rewrite <- (present_lookup_special _ _ _ _ _ Hp). now apply I2.
    + intros (serie & Hin & Hi & ->).
      destruct (I4 serie Hin Hi) as [inner Hp].
      exists (Spec.measurement_of ToLower names serie), (get "" tags "name"),
        (Spec.instance_of ToLower names serie), inner.
      split; [exact Hp|]. rewrite (I6 _ _ _ _ Hp). f_equal.
      rewrite <- (present_lookup_special _ _ _ _ _ Hp). symmetry. now apply I2.
  - exact (special_points_NoDup _ _ _ _ _ _ Hinv).
  - intros serie Hin Hi. apply put_if_present; [exact Hin| |].
    + now rewrite !String.eqb_refl.
    + exact (loop_values _ _ _ _ _ _ _ Hloop serie Hin).
  - intros m i k v Hk.
    destruct (put_if_provenance _ _ _ _ _ _ _ Hk) as (serie & Hin & Hkeep & Hf & Hv).
    apply andb_true_iff in Hkeep as [Hm Hi]. apply String.eqb_eq in Hm, Hi.
    exists serie. now repeat split.
Qed.

(** C4 on one virtual machine with a CPU counter and a disk counter
    reported for [scsi0] and [scsi1]: the entity-level point has the CPU
    field only, and each disk instance has its own point. *)
Lemma instance_values_own_point_witness :
  exists specials,
    entity_points strings.ascii_ToLower Example.impl_min Example.config "vc.lab"
      Example.vm_names Example.vm_inventory (EntityMetric Example.vm_metric)
    = Some (Point.Build "virtualmachine" Example.vm_tags {["cpu_usage_average" := 50]}
            :: specials) /\
    In (Point.Build "disk" (<["instance" := "scsi0"]> Example.vm_tags)
          {["disk_usage_average" := 25]}) specials /\
    In (Point.Build "disk" (<["instance" := "scsi1"]> Example.vm_tags)
          {["disk_usage_average" := 10]}) specials.
Proof.
  destruct (entity_points strings.ascii_ToLower Example.impl_min Example.config "vc.lab"
              Example.vm_names Example.vm_inventory (EntityMetric Example.vm_metric))
    as [pts|] eqn:Hpts; [|vm_compute in Hpts; discriminate].
  destruct (instance_values_own_point _ _ _ _ _ _ _ _ Hpts)
    as (specials & -> & _ & Hspec & _).
  exists specials. split; [|split].
  - reflexivity.
  - apply Hspec. exists Example.scsi0_serie.
    split; [right; now left|]. split; [discriminate|].
    vm_compute. reflexivity.
  - apply Hspec. exists Example.scsi1_serie.
    split; [right; right; now left|]. split; [discriminate|].
    vm_compute. reflexivity.
Defined.

End AssemblerFacts.

(** ** The counter catalog resolver *)

Module ResolverFacts.

Import Resolver Spec.
Local Open Scope string_scope.
Local Open Scope list_scope.

(** A loop keeps what every one of its steps keeps. *)
Lemma fold_left_invariant {A B} (f : A -> B -> A) (P : A -> Prop) (l : list B) (a : A) :
  P a -> (forall acc x, In x l -> P acc -> P (f acc x)) -> P (fold_left f l a).
Proof.
  revert a. induction l as [|x l IH]; intros a Ha Hstep; simpl; [exact Ha|].
  apply IH.
  - apply Hstep; [now left | exact Ha].
  - intros acc y Hy. apply Hstep. now right.
Qed.

Lemma append_first_None mtype metricd groups :
  append_first mtype metricd groups = None <->
  forall g, In g groups -> MetricGroup.ObjectType g <> mtype.
Proof.
  induction groups as [|g groups IH]; simpl.
  - split; [intros _ g [] | reflexivity].
  - destruct (String.eqb_spec (MetricGroup.ObjectType g) mtype) as [E|E].
    + split; [discriminate|]. intros H. exfalso. apply (H g); [now left | exact E].
    + destruct (append_first mtype metricd groups).
      * split; [discriminate|]. intros H.
        assert (Hn : Some l = None); [|discriminate].
        apply IH. intros g' Hg'. apply H. now right.
      * split; [|reflexivity]. intros _ g' [<-|Hg']; [exact E|].
        now apply (proj1 IH).
Qed.

(** The first group of the type gets the definition at its end. *)
Lemma append_first_Some mtype metricd groups groups' :
  append_first mtype metricd groups = Some groups' ->
  exists before g after,
    groups = before ++ g :: after /\
    (forall g', In g' before -> MetricGroup.ObjectType g' <> mtype) /\
    MetricGroup.ObjectType g = mtype /\
    groups' = before ++ MetricGroup.Build mtype (MetricGroup.Metrics g ++ [metricd]) :: after.
Proof.
  revert groups'. induction groups as [|g groups IH]; intros groups'; simpl; [discriminate|].
  destruct (String.eqb_spec (MetricGroup.ObjectType g) mtype) as [E|E].
  - intros [= <-]. exists [], g, groups.
    split; [reflexivity|]. split; [intros g' []|]. split; [exact E|].
    now rewrite E.
  - destruct (append_first mtype metricd groups) as [rest'|]; [|discriminate].
    intros [= <-].
    destruct (IH rest' eq_refl) as (before & g0 & after & -> & Hb & Hg0 & ->).
    exists (g :: before), g0, after.
    split; [reflexivity|]. split; [|split; [exact Hg0 | reflexivity]].
    intros g' [<-|Hg']; [exact E | now apply Hb].
Qed.

(** [add_to_group] creates the group when there is none of that type. *)
Lemma add_to_group_absent metricd groups mtype :
  (forall g, In g groups -> MetricGroup.ObjectType g <> mtype) ->
  add_to_group metricd groups mtype = groups ++ [MetricGroup.Build mtype [metricd]].
Proof.
  intros H. unfold add_to_group.
  now rewrite (proj2 (append_first_None mtype metricd groups) H).
Qed.

Lemma add_to_group_present metricd before g after :
  (forall g', In g' before -> MetricGroup.ObjectType g' <> MetricGroup.ObjectType g) ->
  add_to_group metricd (before ++ g :: after) (MetricGroup.ObjectType g) =
  before ++ MetricGroup.Build (MetricGroup.ObjectType g)
              (MetricGroup.Metrics g ++ [metricd]) :: after.
Proof.
  intros Hb. unfold add_to_group.
  induction before as [|b before IH]; simpl.
  - now rewrite String.eqb_refl.
  - destruct (String.eqb_spec (MetricGroup.ObjectType b) (MetricGroup.ObjectType g)) as [E|E].
    + exfalso. apply (Hb b); [now left | exact E].
    + assert (Hb' : forall g', In g' before ->
                MetricGroup.ObjectType g' <> MetricGroup.ObjectType g)
        by (intros g' Hg'; apply Hb; now right).
      specialize (IH Hb').
      destruct (append_first (MetricGroup.ObjectType g) metricd (before ++ g :: after))
        as [rest'|] eqn:Ea.
      * now rewrite IH.
      * apply append_first_None with (g := g) in Ea; [congruence|].
        apply in_or_app. right. now left.
Qed.

(** What one [add_to_group] does to the contents of the groups. *)
Lemma add_to_group_holds metricd groups mtype t d :
  holds (add_to_group metricd groups mtype) t d <->
  holds groups t d \/ (t = mtype /\ d = metricd).
Proof.
  unfold add_to_group.
  destruct (append_first mtype metricd groups) as [groups'|] eqn:Ea.
  - apply append_first_Some in Ea as (before & g0 & after & -> & Hb & Hg0 & ->).
    unfold holds. split.
    + intros (g & Hg & Ht & Hd). apply in_app_or in Hg as [Hg|[<-|Hg]].
      * left. exists g. repeat split; try assumption. apply in_or_app. now left.
      * simpl in Ht, Hd. apply in_app_or in Hd as [Hd|[<-|[]]].
        -- left. exists g0. repeat split; try congruence. apply in_or_app. right. now left.
        -- right. split; congruence.
      * left. exists g. repeat split; try assumption.
        apply in_or_app. right. now right.
    + intros [(g & Hg & Ht & Hd)|[-> ->]].
      * apply in_app_or in Hg as [Hg|[<-|Hg]].
        -- exists g. repeat split; try assumption. apply in_or_app. now left.
        -- eexists. split; [apply in_or_app; right; left; reflexivity|].
           simpl. split; [congruence | apply in_or_app; now left].
        -- exists g. repeat split; try assumption. apply in_or_app. right. now right.
      * eexists. split; [apply in_or_app; right; left; reflexivity|].
        simpl. split; [reflexivity | apply in_or_app; right; now left].
  - unfold holds. split.
    + intros (g & Hg & Ht & Hd). apply in_app_or in Hg as [Hg|[<-|[]]].
      * left. now exists g.
      * simpl in Ht, Hd. destruct Hd as [<-|[]]. right. split; congruence.
    + intros [(g & Hg & Ht & Hd)|[-> ->]].
      * exists g. repeat split; try assumption. apply in_or_app. now left.
      * eexists. split; [apply in_or_app; right; left; reflexivity|].
        simpl. split; [reflexivity | now left].
Qed.

(** A loop of steps that only add definitions adds what its steps add. *)
Lemma fold_left_holds {B} (f : list MetricGroup.t -> B -> list MetricGroup.t)
    (Q : B -> string -> MetricDef.t -> Prop) :
  (forall groups x t d, holds (f groups x) t d <-> holds groups t d \/ Q x t d) ->
  forall l groups t d,
    holds (fold_left f l groups) t d <->
    holds groups t d \/ exists x, In x l /\ Q x t d.
Proof.
  intros Hf l. induction l as [|x l IH]; intros groups t d; simpl.
  - split; [now left | intros [H|(x & [] & _)]; exact H].
  - rewrite IH, Hf. split.
    + intros [[H|H]|(y & Hy & H)].
      * now left.
      * right. exists x. split; [now left | exact H].
      * right. exists y. split; [now right | exact H].
    + intros [H|(y & [<-|Hy] & H)].
      * left. now left.
      * left. now right.
      * right. now exists y.
Qed.

Lemma resolve_def_holds perf metric groups metricdef t d :
  holds (resolve_def perf metric groups metricdef) t d <->
  holds groups t d \/
  (MetricDef.Metric metricdef = identifier perf /\
   In t (Metric.ObjectType metric) /\ d = resolved perf metricdef).
Proof.
  unfold resolve_def.
  destruct (String.eqb_spec (MetricDef.Metric metricdef) (identifier perf)) as [E|E].
  - rewrite (fold_left_holds _ (fun mtype t d => t = mtype /\ d = resolved perf metricdef)).
    + split.
      * intros [H|(x & Hx & -> & ->)]; [now left | right; auto].
      * intros [H|(_ & Ht & ->)]; [now left | right; now exists t].
    + intros. apply add_to_group_holds.
  - split; [now left | intros [H|[H _]]; [exact H | contradiction]].
Qed.

(** The contents of the groups after [Init]: what was there, and every
    declared definition resolved against every catalog entry whose
    identifier is its name, under each of its object types. *)
Lemma Init_holds PerfCounter config groups t d :
  holds (Init PerfCounter config groups) t d <->
  holds groups t d \/ justified PerfCounter config t d.
Proof.
  unfold Init, justified.
  rewrite (fold_left_holds _ (fun perf t d =>
    exists metric metricdef,
      In metric (Metrics config) /\ In metricdef (Metric.Definitions metric) /\
      In t (Metric.ObjectType metric) /\
      MetricDef.Metric metricdef = identifier perf /\ d = resolved perf metricdef)).
  - split; (intros [H|H]; [now left | right]).
    + destruct H as (perf & Hp & metric & metricdef & H). exists perf, metric, metricdef. tauto.
    + destruct H as (perf & metric & metricdef & H). exists perf. split; [tauto|].
      exists metric, metricdef. tauto.
  - intros groups0 perf t0 d0. unfold resolve_counter.
    rewrite (fold_left_holds _ (fun metric t d =>
      exists metricdef,
        In metricdef (Metric.Definitions metric) /\ In t (Metric.ObjectType metric) /\
        MetricDef.Metric metricdef = identifier perf /\ d = resolved perf metricdef)).
    + split; (intros [H|H]; [now left | right]).
      * destruct H as (metric & Hm & metricdef & H). exists metric, metricdef. tauto.
      * destruct H as (metric & metricdef & H). exists metric. split; [tauto|].
        exists metricdef. tauto.
    + intros groups1 metric t1 d1. unfold resolve_metric.
      rewrite (fold_left_holds _ (fun metricdef t d =>
        MetricDef.Metric metricdef = identifier perf /\
        In t (Metric.ObjectType metric) /\ d = resolved perf metricdef)).
      * split; (intros [H|H]; [now left | right]).
        -- destruct H as (metricdef & Hd & H). exists metricdef. tauto.
        -- destruct H as (metricdef & H). exists metricdef. tauto.
      * intros. apply resolve_def_holds.
Qed.

Lemma add_to_group_well_grouped metricd groups mtype :
  well_grouped groups -> well_grouped (add_to_group metricd groups mtype).
Proof.
  intros [Hnd Hne]. unfold add_to_group.
  destruct (append_first mtype metricd groups) as [groups'|] eqn:Ea.
  - apply append_first_Some in Ea as (before & g0 & after & -> & Hb & Hg0 & ->).
    split.
    + rewrite List.map_app in *. simpl in *. now rewrite Hg0 in Hnd.
    + intros g Hg. apply in_app_or in Hg as [Hg|[<-|Hg]].
      * apply Hne, in_or_app. now left.
      * simpl. now destruct (MetricGroup.Metrics g0).
      * apply Hne, in_or_app. right. now right.
  - pose proof (proj1 (append_first_None _ _ _) Ea) as Hnone. split.
    + rewrite List.map_app. simpl. apply NoDup_app. split; [exact Hnd|]. split.
      * intros x Hx Hm. apply list_elem_of_In in Hx, Hm. destruct Hm as [<-|[]].
        apply in_map_iff in Hx as (g & Hg & Hin). now apply (Hnone g).
      * apply NoDup_singleton.
    + intros g Hg. apply in_app_or in Hg as [Hg|[<-|[]]]; [now apply Hne|].
      discriminate.
Qed.

Lemma Init_well_grouped PerfCounter config groups :
  well_grouped groups -> well_grouped (Init PerfCounter config groups).
Proof.
  intros H. unfold Init.
  apply (fold_left_invariant _ well_grouped); [exact H|]. intros g1 perf _ H1.
  apply (fold_left_invariant _ well_grouped); [exact H1|]. intros g2 metric _ H2.
  apply (fold_left_invariant _ well_grouped); [exact H2|]. intros g3 metricdef _ H3.
  unfold resolve_def. destruct (String.eqb _ _); [|exact H3].
  apply (fold_left_invariant _ well_grouped); [exact H3|]. intros g4 mtype _ H4.
  now apply add_to_group_well_grouped.
Qed.

(** C7.  After [Init], started without groups: a group of object type
    [mtype] holds [d] exactly when [d] is a declared definition, with its
    name and instance selector, carrying the counter id of a catalog entry
    whose identifier [group.name.rollup] equals that name, and [mtype] is
    one of the object types of that definition's metric.  The group is
    created when no group of the type exists and extended at its end
    otherwise, so there is one group per type and none is empty.  A
    declared name that matches no catalog entry is in no group; [Init] is
    a total function, so nothing fails for it. *)
Theorem catalog_resolution (PerfCounter : list PerfCounterInfo.t)
    (config : Configuration) :
  (forall mtype d,
     holds (Init PerfCounter config []) mtype d <->
     justified PerfCounter config mtype d) /\
  (forall metricd groups mtype,
     (forall g, In g groups -> MetricGroup.ObjectType g <> mtype) ->
     add_to_group metricd groups mtype = groups ++ [MetricGroup.Build mtype [metricd]]) /\
  (forall metricd before g after,
     (forall g', In g' before -> MetricGroup.ObjectType g' <> MetricGroup.ObjectType g) ->
     add_to_group metricd (before ++ g :: after) (MetricGroup.ObjectType g) =
     before ++ MetricGroup.Build (MetricGroup.ObjectType g)
                 (MetricGroup.Metrics g ++ [metricd]) :: after) /\
  NoDup (map MetricGroup.ObjectType (Init PerfCounter config [])) /\
  (forall g, In g (Init PerfCounter config []) -> MetricGroup.Metrics g <> []) /\
  (forall name,
     (forall perf, In perf PerfCounter -> identifier perf <> name) ->
     forall g d, In g (Init PerfCounter config []) -> In d (MetricGroup.Metrics g) ->
                 MetricDef.Metric d <> name).
Proof.
  assert (Hwg : well_grouped (Init PerfCounter config [])).
  { apply Init_well_grouped. split; [apply NoDup_nil_2 | intros g []]. }
  split; [|split; [|split; [|split; [|split]]]].
  - intros mtype d. rewrite Init_holds. split; [|now right].
    intros [(g & [] & _)|H]; exact H.
  - apply add_to_group_absent.
  - apply add_to_group_present.
  - apply Hwg.
  - apply Hwg.
  - intros name Hname g d Hg Hd Hn.
    assert (Hh : holds (Init PerfCounter config []) (MetricGroup.ObjectType g) d)
      by (exists g; auto).
    apply Init_holds in Hh as [(g0 & [] & _)|Hj].
    destruct Hj as (perf & metric & metricdef & Hp & _ & _ & _ & Hid & ->).
    apply (Hname perf Hp). simpl in Hn. congruence.
Qed.

(** C7 on a catalog of three counters: the declared [disk.usage.average]
    is resolved to counter 125 for virtual machines, and the declared
    [cpu.ready.summation], which the catalog lacks, is nowhere. *)
Lemma catalog_resolution_witness :
  holds (Init Example.catalog Example.config []) "VirtualMachine"
    (MetricDef.Build "disk.usage.average" "*" 125) /\
  (forall g d, In g (Init Example.catalog Example.config []) ->
               In d (MetricGroup.Metrics g) ->
               MetricDef.Metric d <> "cpu.ready.summation").
Proof.
  split.
  - apply (proj1 (catalog_resolution Example.catalog Example.config)).
    exists (PerfCounterInfo.Build 125 "usage" "disk" "average").
    exists (Metric.Build ["VirtualMachine"] [MetricDef.Build "disk.usage.average" "*" 0]).
    exists (MetricDef.Build "disk.usage.average" "*" 0).
    simpl. repeat split; auto.
  - apply (proj2 (proj2 (proj2 (proj2 (proj2
             (catalog_resolution Example.catalog Example.config)))))).
    intros perf [<-|[<-|[<-|[]]]]; discriminate.
Defined.

End ResolverFacts.

(** ** The query builder *)

Module QueryFacts.

Import Query Spec.
Local Open Scope string_scope.
Local Open Scope list_scope.
Local Open Scope Z_scope.

Lemma fold_left_snoc_map {A B} (f : A -> B) (l : list A) (acc : list B) :
  fold_left (fun acc x => acc ++ [f x]) l acc = acc ++ map f l.
Proof.
  revert acc. induction l as [|x l IH]; intros acc; simpl.
  - now rewrite app_nil_r.
  - rewrite IH. now rewrite <- app_assoc.
Qed.

Lemma queries_map config MetricGroups mors :
  queries config MetricGroups mors = map (query_of config MetricGroups) mors.
Proof. unfold queries. now rewrite fold_left_snoc_map. Qed.

Lemma metricIds_from acc MetricGroups mor :
  fold_left (fun acc metricgroup =>
               if String.eqb (MetricGroup.ObjectType metricgroup)
                             (ManagedObjectReference.Type_ mor)
               then fold_left (fun acc metricdef =>
                                 acc ++ [PerfMetricId.Build (MetricDef.Key metricdef)
                                           (MetricDef.Instances metricdef)])
                              (MetricGroup.Metrics metricgroup) acc
               else acc)
            MetricGroups acc =
  acc ++ flat_map (fun g => map id_of (MetricGroup.Metrics g)) (matching MetricGroups mor).
Proof.
  revert acc. induction MetricGroups as [|g groups IH]; intros acc; simpl.
  - now rewrite app_nil_r.
  - rewrite IH. destruct (String.eqb _ _); simpl; [|reflexivity].
    rewrite (fold_left_snoc_map id_of). now rewrite <- app_assoc.
Qed.

Lemma metricIds_matching MetricGroups mor :
  metricIds MetricGroups mor =
  flat_map (fun g => map id_of (MetricGroup.Metrics g)) (matching MetricGroups mor).
Proof. unfold metricIds. now rewrite metricIds_from. Qed.

(** C1, as the code has it.  The builder makes exactly one query for
    every object ref it is given, in order, whether or not a group has the
    object's type.  The query carries the counter ids, each with its
    instance selector, of the groups whose object type is the object's
    type: none when no group matches, those of the group when one does. *)
Theorem one_query_per_object (config : Configuration)
    (MetricGroups : list MetricGroup.t) (mors : list ManagedObjectReference.t) :
  queries config MetricGroups mors = map (query_of config MetricGroups) mors /\
  length (queries config MetricGroups mors) = length mors /\
  (forall mor,
     PerfQuerySpec.Entity (query_of config MetricGroups mor) = mor /\
     PerfQuerySpec.MetricId (query_of config MetricGroups mor) =
       flat_map (fun g => map id_of (MetricGroup.Metrics g)) (matching MetricGroups mor)) /\
  (forall mor,
     (forall g, In g MetricGroups ->
                MetricGroup.ObjectType g <> ManagedObjectReference.Type_ mor) ->
     PerfQuerySpec.MetricId (query_of config MetricGroups mor) = []) /\
  (forall mor g,
     matching MetricGroups mor = [g] ->
     PerfQuerySpec.MetricId (query_of config MetricGroups mor) =
       map id_of (MetricGroup.Metrics g)).
Proof.
  split; [apply queries_map|]. split; [now rewrite queries_map, length_map|].
  split; [|split].
  - intros mor. split; [reflexivity|]. simpl. apply metricIds_matching.
  - intros mor Hno. simpl. rewrite metricIds_matching.
    replace (matching MetricGroups mor) with (@nil MetricGroup.t); [reflexivity|].
    symmetry. unfold matching.
    induction MetricGroups as [|g groups IH]; simpl; [reflexivity|].
    destruct (String.eqb_spec (MetricGroup.ObjectType g) (ManagedObjectReference.Type_ mor)) as [E|E].
    + exfalso. apply (Hno g); [now left | exact E].
    + apply IH. intros g' Hg'. apply Hno. now right.
  - intros mor g Hg. simpl. rewrite metricIds_matching, Hg. simpl. apply app_nil_r.
Qed.

Lemma one_query_per_object_witness :
  PerfQuerySpec.MetricId (query_of Example.config Example.host_groups Example.vm1) = [] /\
  PerfQuerySpec.MetricId (query_of Example.config Example.host_groups Example.host1) =
    [PerfMetricId.Build 2 ""].
Proof.
  split.
  - apply (proj1 (proj2 (proj2 (proj2
             (one_query_per_object Example.config Example.host_groups [])))) Example.vm1).
    intros g [<-|[]]. discriminate.
  - apply (proj2 (proj2 (proj2 (proj2
             (one_query_per_object Example.config Example.host_groups [])))) Example.host1
             (MetricGroup.Build "HostSystem" [MetricDef.Build "cpu.usage.average" "" 2])).
    reflexivity.
Defined.

(** C1 as the claim words it fails: with groups for hosts only, a virtual
    machine among the object refs still gets its query, one without
    metric ids. *)
Lemma unmatched_object_is_queried :
  (forall g, In g Example.host_groups ->
             MetricGroup.ObjectType g <> ManagedObjectReference.Type_ Example.vm1) /\
  queries Example.config Example.host_groups [Example.vm1; Example.host1] =
    [PerfQuerySpec.Build Example.vm1 (-61) (-1) [] 20;
     PerfQuerySpec.Build Example.host1 (-61) (-1) [PerfMetricId.Build 2 ""] 20] /\
  ~ (forall q, In q (queries Example.config Example.host_groups [Example.vm1; Example.host1]) ->
               PerfQuerySpec.Entity q <> Example.vm1).
Proof.
  split; [intros g [<-|[]]; discriminate|]. split; [reflexivity|].
  intros H. apply (H (PerfQuerySpec.Build Example.vm1 (-61) (-1) [] 20)).
  - now left.
  - reflexivity.
Qed.

End QueryFacts.

(** ** Binary64 arithmetic: what [SpecFloat]'s rounding computes *)

Module FloatFacts.

Import Spec.
Local Open Scope Z_scope.

Lemma digits2_pos_size p : digits2_pos p = Pos.size p.
Proof. induction p; simpl; congruence. Qed.

Lemma Zdigits2_log2 x : 0 < x -> Zdigits2 x = Z.log2 x + 1.
Proof.
  destruct x as [|p|p]; try lia. intros _. simpl.
  rewrite digits2_pos_size. destruct p; simpl; try reflexivity.
  - rewrite Pos2Z.inj_succ. lia.
  - rewrite Pos2Z.inj_succ. lia.
Qed.

Lemma Zdigits2_bounds x : 0 < x -> 2 ^ (Zdigits2 x - 1) <= x < 2 ^ Zdigits2 x.
Proof.
  intros Hx. rewrite Zdigits2_log2 by exact Hx.
  replace (Z.log2 x + 1 - 1) with (Z.log2 x) by lia.
  pose proof (Z.log2_spec x Hx). rewrite <- Z.add_1_r in H. lia.
Qed.

Lemma Zdigits2_unique x d : 2 ^ (d - 1) <= x < 2 ^ d -> 0 < d -> Zdigits2 x = d.
Proof.
  intros H Hd. assert (0 < x) by (pose proof (Z.pow_pos_nonneg 2 (d - 1)); lia).
  rewrite Zdigits2_log2 by assumption.
  rewrite (Z.log2_unique x (d - 1)); try lia.
  replace (Z.succ (d - 1)) with d by lia. exact H.
Qed.

Lemma shr_1_nonneg m r s :
  0 <= m ->
  shr_1 (Build_shr_record m r s) = Build_shr_record (m / 2) (Z.odd m) (r || s).
Proof.
  intros Hm. destruct m as [|p|p]; try lia; simpl.
  - reflexivity.
  - destruct p; simpl; try reflexivity.
    + f_equal. rewrite Pos2Z.inj_xI. symmetry.
      rewrite Z.mul_comm. rewrite Z.div_add_l by lia. reflexivity.
    + f_equal. rewrite Pos2Z.inj_xO. symmetry.
      rewrite Z.mul_comm. now rewrite Z.div_mul by lia.
Qed.

Lemma loc_sticky mrs N D :
  loc_of_shr_record mrs = loc N D ->
  (shr_r mrs || shr_s mrs)%bool = negb (N mod D =? 0).
Proof.
  destruct mrs as [m [] []]; unfold loc; simpl;
    destruct (N mod D =? 0); simpl; congruence.
Qed.

Lemma mod_double N D :
  0 < D -> N mod (2 * D) = N mod D + D * ((N / D) mod 2).
Proof.
  intros HD. rewrite (Z.mul_comm 2 D). apply Z.rem_mul_r; lia.
Qed.

Lemma shr_1_stands mrs N D :
  0 <= N -> 0 < D -> stands_for mrs N D -> stands_for (shr_1 mrs) N (2 * D).
Proof.
  intros HN HD [Hm Hl].
  pose proof (loc_sticky mrs N D Hl) as Hs.
  destruct mrs as [m r s]. simpl in Hm, Hs.
  assert (0 <= m) by (subst m; apply Z.div_pos; lia).
  rewrite shr_1_nonneg by assumption. unfold stands_for. simpl.
  split.
  - subst m. rewrite Z.div_div by lia. f_equal. lia.
  - rewrite Hs. unfold loc. rewrite mod_double by exact HD. rewrite <- Hm.
    pose proof (Z.mod_pos_bound N D HD) as Hrho.
    rewrite (Zmod_odd m).
    destruct (Z.odd m), (Z.eqb_spec (N mod D) 0) as [E|E]; simpl;
      match goal with
      | |- context [?x =? 0] => destruct (Z.eqb_spec x 0); try lia
      end;
      try match goal with
      | |- context [?x ?= ?y] => destruct (Z.compare_spec x y); try lia
      end; reflexivity.
Qed.

Lemma pow2_xO p : 2 ^ Z.pos p~0 = 2 ^ Z.pos p * 2 ^ Z.pos p.
Proof. rewrite <- Z.pow_add_r by lia. f_equal. lia. Qed.

Lemma pow2_xI p : 2 ^ Z.pos p~1 = 2 * (2 ^ Z.pos p * 2 ^ Z.pos p).
Proof.
  rewrite <- Z.pow_add_r by lia. rewrite <- Z.pow_succ_r by lia. f_equal. lia.
Qed.

Lemma iter_pos_stands p mrs N D :
  0 <= N -> 0 < D -> stands_for mrs N D ->
  stands_for (SpecFloat.iter_pos shr_1 p mrs) N (D * 2 ^ Z.pos p).
Proof.
  intros HN. revert mrs D.
  induction p as [p IH|p IH|]; intros mrs D HD H; simpl.
  - apply shr_1_stands in H; try assumption.
    assert (0 < 2 ^ Z.pos p) by (apply Z.pow_pos_nonneg; lia).
    apply IH in H; [|lia]. apply IH in H; [|nia].
    rewrite pow2_xI.
    replace (D * (2 * (2 ^ Z.pos p * 2 ^ Z.pos p)))
      with (2 * D * 2 ^ Z.pos p * 2 ^ Z.pos p) by ring.
    exact H.
  - assert (0 < 2 ^ Z.pos p) by (apply Z.pow_pos_nonneg; lia).
    apply IH in H; [|lia]. apply IH in H; [|nia].
    rewrite pow2_xO.
    replace (D * (2 ^ Z.pos p * 2 ^ Z.pos p)) with (D * 2 ^ Z.pos p * 2 ^ Z.pos p) by ring.
    exact H.
  - apply shr_1_stands in H; try assumption.
    replace (D * 2 ^ 1) with (2 * D) by (rewrite Z.pow_1_r; ring). exact H.
Qed.

Lemma record_of_loc_stands N D :
  stands_for (shr_record_of_loc (N / D) (loc N D)) N D.
Proof.
  split.
  - now destruct (loc N D) as [|[]].
  - now destruct (loc N D) as [|[]].
Qed.

Lemma shr_stands mrs e n N D :
  0 <= N -> 0 < D -> stands_for mrs N D ->
  stands_for (fst (shr mrs e n)) N (D * 2 ^ Z.max 0 n) /\
  snd (shr mrs e n) = e + Z.max 0 n.
Proof.
  intros HN HD H. destruct n as [|p|p]; simpl.
  - rewrite Z.mul_1_r, Z.add_0_r. now split.
  - split; [|reflexivity]. now apply iter_pos_stands.
  - rewrite Z.mul_1_r, Z.add_0_r. now split.
Qed.

Lemma loc_exact_1 m : loc m 1 = loc_Exact.
Proof. unfold loc. now rewrite Z.mod_1_r. Qed.

Lemma rne_cases N D :
  0 < D ->
  (rne N D = N / D /\ 2 * (N mod D) <= D) \/
  (rne N D = N / D + 1 /\ D <= 2 * (N mod D)).
Proof.
  intros HD. unfold rne, loc, round_nearest_even.
  pose proof (Z.mod_pos_bound N D HD).
  destruct (Z.eqb_spec (N mod D) 0) as [E|E]; [left; split; lia|].
  destruct (Z.compare_spec (2 * (N mod D)) D).
  - destruct (Z.even (N / D)); [left | right]; split; lia.
  - left. split; lia.
  - right. split; lia.
Qed.

Lemma rne_nonneg N D : 0 <= N -> 0 < D -> 0 <= rne N D.
Proof.
  intros HN HD. pose proof (Z.div_pos N D HN HD).
  destruct (rne_cases N D HD) as [[-> _]|[-> _]]; lia.
Qed.

(** [binary_round_aux] in integer arithmetic: it shifts to the format's
    exponent, rounds to nearest even, and shifts once more if the rounding
    carried. *)
Lemma binary_round_aux_eq sx N D e :
  0 <= N -> 0 < D ->
  binary_round_aux Float64.prec Float64.emax sx (N / D) e (loc N D) =
  let k := Z.max 0 (fexp Float64.prec Float64.emax (Zdigits2 (N / D) + e) - e) in
  let m1 := rne N (D * 2 ^ k) in
  let e1 := e + k in
  let k2 := Z.max 0 (fexp Float64.prec Float64.emax (Zdigits2 m1 + e1) - e1) in
  match m1 / 2 ^ k2 with
  | Z0 => S754_zero sx
  | Zpos m => if e1 + k2 <=? Float64.emax - Float64.prec
              then S754_finite sx m (e1 + k2) else S754_infinity sx
  | Zneg _ => S754_nan
  end.
Proof.
  intros HN HD. cbv zeta. unfold binary_round_aux, shr_fexp.
  pose proof (shr_stands _ e (fexp Float64.prec Float64.emax (Zdigits2 (N / D) + e) - e)
                N D HN HD (record_of_loc_stands N D)) as [[Hm Hl] He].
  destruct (shr (shr_record_of_loc (N / D) (loc N D)) e _) as [mrs' e'].
  simpl in Hm, Hl, He. subst e'.
  set (k := Z.max 0 (fexp Float64.prec Float64.emax (Zdigits2 (N / D) + e) - e)) in *.
  assert (Hk : 0 < 2 ^ k) by (apply Z.pow_pos_nonneg; lia).
  assert (Hr : round_nearest_even (shr_m mrs') (loc_of_shr_record mrs') = rne N (D * 2 ^ k))
    by (unfold rne; now rewrite Hm, Hl).
  rewrite Hr. set (m1 := rne N (D * 2 ^ k)).
  assert (Hm1 : 0 <= m1) by (apply rne_nonneg; nia).
  pose proof (shr_stands (shr_record_of_loc m1 loc_Exact) (e + k)
                (fexp Float64.prec Float64.emax (Zdigits2 m1 + (e + k)) - (e + k))
                m1 1 Hm1 ltac:(lia)) as H2.
  destruct H2 as [[Hm2 _] He2].
  { split; simpl; [now rewrite Z.div_1_r | now rewrite loc_exact_1]. }
  destruct (shr (shr_record_of_loc m1 loc_Exact) (e + k) _) as [mrs'' e''].
  simpl in Hm2, He2. subst e''. rewrite Hm2, Z.mul_1_l. reflexivity.
Qed.

Lemma fexp_normal x : -1021 <= x -> fexp Float64.prec Float64.emax x = x - 53.
Proof. unfold fexp, emin, Float64.prec, Float64.emax. lia. Qed.

Lemma pow2_split a b : 0 <= b <= a -> 2 ^ a = 2 ^ (a - b) * 2 ^ b.
Proof. intros H. rewrite <- Z.pow_add_r by lia. f_equal. lia. Qed.

(** Rounding a value with at least 53 digits, away from underflow and
    overflow: the mantissa is [rne] at 53 digits, renormalised when the
    rounding carried to [2^53]. *)
Lemma round_normal sx N D e :
  0 < D -> 2 ^ 52 <= N / D -> -1021 <= e + Zdigits2 (N / D) <= 1023 ->
  let k := Zdigits2 (N / D) - 53 in
  let m1 := rne N (D * 2 ^ k) in
  exists m' e',
    binary_round_aux Float64.prec Float64.emax sx (N / D) e (loc N D) = S754_finite sx m' e' /\
    2 ^ 52 <= Z.pos m' < 2 ^ 53 /\
    2 ^ 52 <= N / (D * 2 ^ k) < 2 ^ 53 /\
    ((Z.pos m' = m1 /\ e' = e + k) \/
     (m1 = 2 ^ 53 /\ Z.pos m' = 2 ^ 52 /\ e' = e + k + 1)).
Proof.
  intros HD Hm [He Hmax] k m1.
  assert (HN : 0 <= N).
  { destruct (Z.lt_ge_cases N 0) as [Hneg|]; [|assumption].
    pose proof (Z.div_lt_upper_bound N D 0 HD ltac:(lia)). lia. }
  assert (Hmpos : 0 < N / D) by lia.
  pose proof (Zdigits2_bounds (N / D) Hmpos) as Hd.
  assert (Hd53 : 53 <= Zdigits2 (N / D)).
  { destruct (Z.lt_ge_cases (Zdigits2 (N / D)) 53) as [Hlt|]; [|assumption].
    assert (2 ^ Zdigits2 (N / D) <= 2 ^ 52) by (apply Z.pow_le_mono_r; lia). lia. }
  assert (Hk : 0 <= k) by (unfold k; lia).
  assert (H2k : 0 < 2 ^ k) by (apply Z.pow_pos_nonneg; lia).
  assert (HF : 2 ^ 52 <= N / (D * 2 ^ k) < 2 ^ 53).
  { rewrite <- Z.div_div by lia.
    rewrite (pow2_split (Zdigits2 (N / D) - 1) k) in Hd by (unfold k; lia).
    rewrite (pow2_split (Zdigits2 (N / D)) k) in Hd by (unfold k; lia).
    replace (Zdigits2 (N / D) - 1 - k) with 52 in Hd by (unfold k; lia).
    replace (Zdigits2 (N / D) - k) with 53 in Hd by (unfold k; lia).
    split.
    - apply Z.div_le_lower_bound; lia.
    - apply Z.div_lt_upper_bound; lia. }
  rewrite binary_round_aux_eq by assumption. cbv zeta.
  rewrite fexp_normal by lia.
  replace (Z.max 0 (Zdigits2 (N / D) + e - 53 - e)) with k by (unfold k; lia).
  fold m1.
  assert (Hm1 : 2 ^ 52 <= m1 <= 2 ^ 53).
  { unfold m1. destruct (rne_cases N (D * 2 ^ k) ltac:(nia)) as [[-> _]|[-> _]]; lia. }
  destruct (Z.eq_dec m1 (2 ^ 53)) as [E|E].
  - rewrite E. replace (Zdigits2 (2 ^ 53)) with 54 by reflexivity.
    rewrite fexp_normal by lia.
    replace (Z.max 0 (54 + (e + k) - 53 - (e + k))) with 1 by lia.
    change (2 ^ 53 / 2 ^ 1) with (Z.pos 4503599627370496).
    destruct (Z.leb_spec (e + k + 1) (Float64.emax - Float64.prec)) as [_|Hov];
      [|unfold Float64.emax, Float64.prec, k in Hov; lia].
    eexists _, _. split; [reflexivity|]. split; [split; [discriminate | reflexivity]|].
    split; [exact HF|]. right. repeat split.
  - rewrite (Zdigits2_unique m1 53) by lia.
    rewrite fexp_normal by lia.
    replace (Z.max 0 (53 + (e + k) - 53 - (e + k))) with 0 by lia.
    rewrite Z.add_0_r, Z.pow_0_r, Z.div_1_r.
    destruct m1 as [|p|p] eqn:Em; try lia.
    destruct (Z.leb_spec (e + k) (Float64.emax - Float64.prec)) as [_|Hov];
      [|unfold Float64.emax, Float64.prec, k in Hov; lia].
    eexists _, _. split; [reflexivity|]. split; [lia|]. split; [exact HF|].
    left. split; reflexivity.
Qed.

Lemma iter_xO_pow mx d : Z.pos (Pos.iter xO mx d) = Z.pos mx * 2 ^ Z.pos d.
Proof.
  induction d as [|d IH] using Pos.peano_ind.
  - simpl. lia.
  - rewrite Pos.iter_succ, Pos2Z.inj_xO, IH, Pos2Z.inj_succ, Z.pow_succ_r by lia. ring.
Qed.

Lemma shl_align_eq mx ex ex' :
  Z.pos (fst (shl_align mx ex ex')) = Z.pos mx * 2 ^ Z.max 0 (ex - ex') /\
  snd (shl_align mx ex ex') = Z.min ex ex'.
Proof.
  unfold shl_align. destruct (ex' - ex) as [|p|p] eqn:E; simpl.
  - replace (Z.max 0 (ex - ex')) with 0 by lia. split; lia.
  - replace (Z.max 0 (ex - ex')) with 0 by lia. split; lia.
  - replace (Z.max 0 (ex - ex')) with (Z.pos p) by lia. split; [apply iter_xO_pow | lia].
Qed.


Lemma rne_one N : rne N 1 = N.
Proof. unfold rne. now rewrite loc_exact_1, Z.div_1_r. Qed.

(** Rounding a common factor away changes nothing. *)
Lemma rne_scale N D f : 0 < D -> 0 < f -> rne (N * f) (D * f) = rne N D.
Proof.
  intros HD Hf. unfold rne, loc.
  rewrite Z.div_mul_cancel_r by lia.
  rewrite Zmult_mod_distr_r.
  replace (N mod D * f =? 0) with (N mod D =? 0).
  2:{ destruct (Z.eqb_spec (N mod D) 0), (Z.eqb_spec (N mod D * f) 0); try reflexivity; nia. }
  destruct (N mod D =? 0); [reflexivity|].
  replace (2 * (N mod D * f) ?= D * f) with (2 * (N mod D) ?= D); [reflexivity|].
  destruct (Z.compare_spec (2 * (N mod D)) D), (Z.compare_spec (2 * (N mod D * f)) (D * f));
    try reflexivity; nia.
Qed.

(** A rounding that carries to [2^53] is [2^52] one exponent up. *)
Lemma rne_carry N D :
  0 < D -> N / D < 2 ^ 53 -> rne N D = 2 ^ 53 -> rne N (D * 2) = 2 ^ 52.
Proof.
  intros HD Hlt Hr.
  destruct (rne_cases N D HD) as [[E _]|[E Hge]]; [lia|].
  assert (Hq : N / D = 2 ^ 53 - 1) by lia.
  pose proof (Z.mod_pos_bound N D HD) as Hb.
  assert (Hdiv : N / (D * 2) = 2 ^ 52 - 1).
  { rewrite <- Z.div_div by lia. rewrite Hq. reflexivity. }
  assert (Hmod : N mod (D * 2) = N mod D + D).
  { rewrite Z.rem_mul_r by lia. rewrite Hq. change ((2 ^ 53 - 1) mod 2) with 1. lia. }
  destruct (rne_cases N (D * 2) ltac:(lia)) as [[_ Hle]|[E2 _]]; [lia|].
  lia.
Qed.

(** Rounding a value with at least 53 digits, away from underflow and
    overflow: for some [j] the result is the nearest-even rounding of
    [N / (D * 2^j)], it has exactly 53 digits, and its exponent is
    [e + j]. *)
Lemma round_nearest sx N D e :
  0 < D -> 2 ^ 52 <= N / D -> -1021 <= e + Zdigits2 (N / D) <= 1023 ->
  exists m' j,
    binary_round_aux Float64.prec Float64.emax sx (N / D) e (loc N D)
      = S754_finite sx m' (e + j) /\
    Z.pos m' = rne N (D * 2 ^ j) /\
    2 ^ 52 <= Z.pos m' < 2 ^ 53 /\
    (j = Zdigits2 (N / D) - 53 \/
     (j = Zdigits2 (N / D) - 53 + 1 /\
      rne N (D * 2 ^ (Zdigits2 (N / D) - 53)) = 2 ^ 53)).
Proof.
  intros HD Hm He.
  destruct (round_normal sx N D e HD Hm He) as (m' & e' & Heq & Hb & HF & Hc).
  assert (Hmpos : 0 < N / D) by lia.
  pose proof (Zdigits2_bounds (N / D) Hmpos) as Hd.
  assert (Hd53 : 53 <= Zdigits2 (N / D)).
  { destruct (Z.lt_ge_cases (Zdigits2 (N / D)) 53) as [Hlt|]; [|assumption].
    assert (2 ^ Zdigits2 (N / D) <= 2 ^ 52) by (apply Z.pow_le_mono_r; lia). lia. }
  set (k := Zdigits2 (N / D) - 53) in *.
  assert (H2k : 0 < 2 ^ k) by (apply Z.pow_pos_nonneg; lia).
  destruct Hc as [[Hm' ->]|(Hcarry & Hm' & ->)].
  - exists m', k. split; [assumption|]. split; [assumption|]. split; [assumption|].
    now left.
  - exists m', (k + 1). split; [now rewrite Z.add_assoc|].
    split; [|split; [assumption | right; now split]].
    rewrite Hm', Z.pow_add_r, Z.pow_1_r, Z.mul_assoc by lia. symmetry.
    apply rne_carry; [nia | lia | exact Hcarry].
Qed.

(** [binary_round] on a positive integer mantissa, in the normal range. *)
Lemma binary_round_nearest sx p ex :
  -1021 <= Zdigits2 (Z.pos p) + ex <= 1023 ->
  exists m' s j,
    binary_round Float64.prec Float64.emax sx p ex = S754_finite sx m' (ex - s + j) /\
    Z.pos m' = rne (Z.pos p * 2 ^ s) (2 ^ j) /\
    2 ^ 52 <= Z.pos m' < 2 ^ 53 /\
    s = Z.max 0 (53 - Zdigits2 (Z.pos p)) /\
    (j = Zdigits2 (Z.pos p) + s - 53 \/
     (j = Zdigits2 (Z.pos p) + s - 53 + 1 /\
      rne (Z.pos p * 2 ^ s) (2 ^ (Zdigits2 (Z.pos p) + s - 53)) = 2 ^ 53)).
Proof.
  set (d := Zdigits2 (Z.pos p)). intros Hr.
  set (s := Z.max 0 (53 - d)).
  pose proof (Zdigits2_bounds (Z.pos p) ltac:(lia)) as Hd. fold d in Hd.
  assert (Hd1 : 1 <= d) by (unfold d; simpl; lia).
  unfold binary_round.
  pose proof (shl_align_eq p ex (fexp Float64.prec Float64.emax (Z.pos (digits2_pos p) + ex)))
    as [Hmz Hez].
  destruct (shl_align p ex _) as [mz ez]. simpl in Hmz, Hez.
  change (Z.pos (digits2_pos p)) with d in Hmz, Hez.
  rewrite fexp_normal in Hmz, Hez by lia.
  replace (Z.max 0 (ex - (d + ex - 53))) with s in Hmz by (unfold s; lia).
  assert (H2s : 0 < 2 ^ s) by (apply Z.pow_pos_nonneg; unfold s; lia).
  assert (Hdz : Zdigits2 (Z.pos mz) = d + s).
  { apply Zdigits2_unique; [|unfold s; lia]. rewrite Hmz.
    replace (d + s - 1) with (d - 1 + s) by lia.
    rewrite !Z.pow_add_r by (unfold s; lia). nia. }
  pose proof (round_nearest sx (Z.pos mz) 1 ez ltac:(lia)) as H.
  rewrite Z.div_1_r, loc_exact_1 in H. rewrite Hdz in H.
  destruct H as (m' & j & Heq & Hm' & Hb & Hj).
  - rewrite Hmz.
    destruct (Z.le_gt_cases d 53).
    + replace s with (53 - d) by (unfold s; lia).
      rewrite (pow2_split 52 (53 - d)) by lia.
      replace (52 - (53 - d)) with (d - 1) by lia. nia.
    + assert (2 ^ 52 <= 2 ^ (d - 1)) by (apply Z.pow_le_mono_r; lia). nia.
  - unfold s in *. lia.
  - exists m', s, j. replace (ex - s + j) with (ez + j) by (unfold s in *; lia).
    split; [exact Heq|]. rewrite Z.mul_1_l, Hmz in Hm'.
    split; [exact Hm'|]. split; [exact Hb|]. split; [reflexivity|].
    rewrite Z.mul_1_l, Hmz in Hj. exact Hj.
Qed.

(** [float64(z)] for a positive [z] of at most 53 bits is [z]. *)
Lemma of_int_exact z :
  0 < z < 2 ^ 53 ->
  exists m' s,
    Float64.of_int z = S754_finite false m' (- s) /\
    Z.pos m' = z * 2 ^ s /\ 2 ^ 52 <= Z.pos m' < 2 ^ 53 /\ 0 <= s <= 52.
Proof.
  intros Hz. destruct z as [|p|p]; try lia.
  unfold Float64.of_int, binary_normalize.
  pose proof (Zdigits2_bounds (Z.pos p) ltac:(lia)) as Hd.
  assert (Hd1 : 1 <= Zdigits2 (Z.pos p) <= 53).
  { split; [simpl; lia|].
    destruct (Z.le_gt_cases (Zdigits2 (Z.pos p)) 53) as [|Hgt]; [assumption|].
    assert (2 ^ 53 <= 2 ^ (Zdigits2 (Z.pos p) - 1)) by (apply Z.pow_le_mono_r; lia). lia. }
  destruct (binary_round_nearest false p 0 ltac:(lia)) as (m' & s & j & Heq & Hm' & Hb & Hs & Hj).
  assert (Hs' : s = 53 - Zdigits2 (Z.pos p)) by lia.
  replace (Zdigits2 (Z.pos p) + s - 53) with 0 in Hj by lia.
  rewrite Z.pow_0_r, rne_one in Hj.
  assert (H2s : 0 < 2 ^ s) by (apply Z.pow_pos_nonneg; lia).
  assert (Hlt : Z.pos p * 2 ^ s < 2 ^ 53).
  { rewrite (pow2_split 53 s) by lia. replace (53 - s) with (Zdigits2 (Z.pos p)) by lia. nia. }
  destruct Hj as [->|[_ Hc]]; [|lia].
  rewrite Z.pow_0_r, rne_one in Hm'.
  exists m', s. replace (0 - s + 0) with (- s) in Heq by lia.
  split; [exact Heq|]. split; [exact Hm'|]. split; [exact Hb | lia].
Qed.

(** [float64(z)] for a non-zero [z] of [int64] is a finite float of 53
    digits. *)
Lemma of_int_finite z :
  z <> 0 -> - 2 ^ 63 <= z <= 2 ^ 63 ->
  exists sx m' e,
    Float64.of_int z = S754_finite sx m' e /\
    2 ^ 52 <= Z.pos m' < 2 ^ 53 /\ -52 <= e <= 12.
Proof.
  intros Hz Hr.
  assert (Hgen : forall sx p, Z.pos p <= 2 ^ 63 ->
            exists m' e, binary_round Float64.prec Float64.emax sx p 0 = S754_finite sx m' e /\
                         2 ^ 52 <= Z.pos m' < 2 ^ 53 /\ -52 <= e <= 12).
  { intros sx p Hp.
    pose proof (Zdigits2_bounds (Z.pos p) ltac:(lia)) as Hd.
    assert (Hd1 : 1 <= Zdigits2 (Z.pos p) <= 64).
    { split; [simpl; lia|].
      destruct (Z.le_gt_cases (Zdigits2 (Z.pos p)) 64) as [|Hgt]; [assumption|].
      assert (2 ^ 64 <= 2 ^ (Zdigits2 (Z.pos p) - 1)) by (apply Z.pow_le_mono_r; lia). lia. }
    destruct (binary_round_nearest sx p 0 ltac:(lia)) as (m' & s & j & Heq & _ & Hb & Hs & Hj).
    exists m', (0 - s + j). split; [exact Heq|]. split; [exact Hb | lia]. }
  destruct z as [|p|p]; [lia| |].
  - destruct (Hgen false p ltac:(lia)) as (m' & e & H). now exists false, m', e.
  - destruct (Hgen true p ltac:(lia)) as (m' & e & H). now exists true, m', e.
Qed.


Lemma new_location_loc N D : 0 < D -> new_location D (N mod D) = loc N D.
Proof.
  intros HD. unfold new_location, new_location_even, new_location_odd, loc.
  pose proof (Z.mod_pos_bound N D HD) as Hb.
  destruct (Z.even D) eqn:Ev; destruct (Z.eqb_spec (N mod D) 0); try reflexivity.
  f_equal.
  assert (Hodd : Z.odd D = true) by (rewrite <- Z.negb_even, Ev; reflexivity).
  apply Z.odd_spec in Hodd as [h Hh].
  destruct (Z.compare_spec (2 * (N mod D) + 1) D), (Z.compare_spec (2 * (N mod D)) D);
    try reflexivity; lia.
Qed.

(** The integer quotient that [SFdiv] rounds. *)
Lemma SFdiv_core_eq m1 e1 m2 e2 :
  let e' := Z.min (fexp Float64.prec Float64.emax
                     (Zdigits2 (Z.pos m1) + e1 - (Zdigits2 (Z.pos m2) + e2)))
                  (e1 - e2) in
  let N := Z.pos m1 * 2 ^ (e1 - e2 - e') in
  SFdiv_core_binary Float64.prec Float64.emax (Z.pos m1) e1 (Z.pos m2) e2 =
  (N / Z.pos m2, e', loc N (Z.pos m2)).
Proof.
  intros e' N. unfold SFdiv_core_binary. fold e'.
  assert (Hs : 0 <= e1 - e2 - e') by (unfold e'; lia).
  assert (Hm' : match e1 - e2 - e' with
                | Z0 => Z.pos m1
                | Z.pos _ => Z.shiftl (Z.pos m1) (e1 - e2 - e')
                | Z.neg _ => 0
                end = N).
  { unfold N. destruct (e1 - e2 - e') as [|p|p] eqn:E; try lia.
    now rewrite Z.shiftl_mul_pow2 by lia. }
  rewrite Hm'.
  rewrite <- (new_location_loc N (Z.pos m2)) by lia.
  unfold Z.div, Z.modulo. now destruct (Z.div_eucl N (Z.pos m2)).
Qed.

(** [SFdiv] of finite floats is never NaN. *)
Lemma div_finite_not_nan s1 m1 e1 s2 m2 e2 :
  Float64.is_nan (Float64.div (S754_finite s1 m1 e1) (S754_finite s2 m2 e2)) = false.
Proof.
  unfold Float64.div, SFdiv. rewrite SFdiv_core_eq. cbv zeta.
  set (N := Z.pos m1 * 2 ^ _).
  assert (HN : 0 <= N).
  { unfold N. apply Z.mul_nonneg_nonneg; [lia|]. apply Z.pow_nonneg. lia. }
  rewrite binary_round_aux_eq by lia. cbv zeta.
  match goal with
  | |- context [match ?quot with Z0 => _ | Z.pos _ => _ | Z.neg _ => _ end] =>
      assert (Hq : 0 <= quot); [|destruct quot as [|p|p]; [reflexivity | | lia]]
  end.
  - apply Z.div_pos; [|apply Z.pow_pos_nonneg; lia].
    apply rne_nonneg; [exact HN|].
    apply Z.mul_pos_pos; [lia|]. apply Z.pow_pos_nonneg; lia.
  - now destruct (_ <=? _).
Qed.

(** The quotient of two floats of 53 digits is the nearest-even rounding
    of the exact quotient. *)
Lemma div_nearest s1 m1 e1 s2 m2 e2 :
  2 ^ 52 <= Z.pos m1 < 2 ^ 53 -> 2 ^ 52 <= Z.pos m2 < 2 ^ 53 ->
  -400 <= e1 <= 400 -> -400 <= e2 <= 400 ->
  exists m' j,
    Float64.div (S754_finite s1 m1 e1) (S754_finite s2 m2 e2)
      = S754_finite (xorb s1 s2) m' (e1 - e2 - 53 + j) /\
    Z.pos m' = rne (Z.pos m1 * 2 ^ 53) (Z.pos m2 * 2 ^ j) /\
    2 ^ 52 <= Z.pos m' < 2 ^ 53 /\ 0 <= j <= 2.
Proof.
  intros H1 H2 He1 He2. unfold Float64.div, SFdiv. rewrite SFdiv_core_eq. cbv zeta.
  rewrite (Zdigits2_unique (Z.pos m1) 53) by lia.
  rewrite (Zdigits2_unique (Z.pos m2) 53) by lia.
  rewrite fexp_normal by lia.
  replace (Z.min (53 + e1 - (53 + e2) - 53) (e1 - e2)) with (e1 - e2 - 53) by lia.
  replace (e1 - e2 - (e1 - e2 - 53)) with 53 by lia.
  set (N := Z.pos m1 * 2 ^ 53).
  assert (Hq : 2 ^ 52 <= N / Z.pos m2 < 2 ^ 54).
  { split.
    - apply Z.div_le_lower_bound; [lia|]. unfold N. nia.
    - apply Z.div_lt_upper_bound; [lia|]. unfold N. nia. }
  assert (Hd : 53 <= Zdigits2 (N / Z.pos m2) <= 54).
  { pose proof (Zdigits2_bounds (N / Z.pos m2) ltac:(lia)) as Hb. split.
    - destruct (Z.lt_ge_cases (Zdigits2 (N / Z.pos m2)) 53) as [Hlt|]; [|assumption].
      assert (2 ^ Zdigits2 (N / Z.pos m2) <= 2 ^ 52) by (apply Z.pow_le_mono_r; lia). lia.
    - destruct (Z.le_gt_cases (Zdigits2 (N / Z.pos m2)) 54) as [|Hgt]; [assumption|].
      assert (2 ^ 54 <= 2 ^ (Zdigits2 (N / Z.pos m2) - 1)) by (apply Z.pow_le_mono_r; lia).
      lia. }
  destruct (round_nearest (xorb s1 s2) N (Z.pos m2) (e1 - e2 - 53) ltac:(lia) ltac:(lia)
              ltac:(lia)) as (m' & j & Heq & Hm' & Hb & Hj).
  exists m', j. split; [exact Heq|]. split; [exact Hm'|]. split; [exact Hb | lia].
Qed.

Lemma rne_upper N D : 0 < D -> 2 * (rne N D * D) <= 2 * N + D.
Proof.
  intros HD. pose proof (Z.div_mod N D ltac:(lia)) as E.
  pose proof (Z.mod_pos_bound N D HD) as Hb.
  destruct (rne_cases N D HD) as [[-> H]|[-> H]]; nia.
Qed.

Lemma rne_lower N D : 0 < D -> 2 * N - D <= 2 * (rne N D * D).
Proof.
  intros HD. pose proof (Z.div_mod N D ltac:(lia)) as E.
  pose proof (Z.mod_pos_bound N D HD) as Hb.
  destruct (rne_cases N D HD) as [[-> H]|[-> H]]; nia.
Qed.

Lemma rne_ge_int N D K : 0 < D -> K * D <= N -> K <= rne N D.
Proof.
  intros HD HK. assert (K <= N / D) by (apply Z.div_le_lower_bound; lia).
  destruct (rne_cases N D HD) as [[-> _]|[-> _]]; lia.
Qed.

(** The quotient of two integers converted to [float64]. *)
Lemma div_int t c :
  0 < t < 2 ^ 51 -> 0 < c < 2 ^ 53 ->
  exists M S,
    Float64.div (Float64.of_int t) (Float64.of_int c) = S754_finite false M (- S) /\
    Z.pos M = rne (t * 2 ^ S) c /\
    2 ^ 52 <= Z.pos M < 2 ^ 53 /\ 1 <= S <= 105.
Proof.
  intros Ht Hc.
  destruct (of_int_exact t ltac:(lia)) as (mt & st & -> & Hmt & Hbt & Hst).
  destruct (of_int_exact c Hc) as (mc & sc & -> & Hmc & Hbc & Hsc).
  assert (Hst2 : 2 <= st).
  { destruct (Z.le_gt_cases 2 st) as [|Hlt]; [assumption|].
    assert (2 ^ st <= 2 ^ 1) by (apply Z.pow_le_mono_r; lia).
    change (2 ^ 1) with 2 in *. nia. }
  destruct (div_nearest false mt (- st) false mc (- sc) Hbt Hbc ltac:(lia) ltac:(lia))
    as (M & j & Heq & HM & Hb & Hj).
  exists M, (st - sc + 53 - j).
  split; [rewrite Heq; f_equal; lia|]. split; [|split; [exact Hb | lia]].
  rewrite HM, Hmt, Hmc.
  rewrite <- (rne_scale (t * 2 ^ (st - sc + 53 - j)) c (2 ^ (sc + j)))
    by (try apply Z.pow_pos_nonneg; lia).
  f_equal.
  - rewrite <- !Z.mul_assoc, <- !Z.pow_add_r by lia. do 2 f_equal. lia.
  - rewrite <- !Z.mul_assoc, <- !Z.pow_add_r by lia. reflexivity.
Qed.

(** Adding [.5] to a positive float of 53 digits. *)
Lemma add_half M S :
  2 ^ 52 <= Z.pos M < 2 ^ 53 -> 1 <= S <= 200 ->
  let S' := Z.max S 53 in
  let total := Z.pos M * 2 ^ (S' - S) + 2 ^ (S' - 1) in
  exists M' j,
    Float64.add (S754_finite false M (- S)) Float64.half = S754_finite false M' (j - S') /\
    Z.pos M' = rne total (2 ^ j) /\
    2 ^ 52 <= Z.pos M' < 2 ^ 53 /\ 0 <= j.
Proof.
  intros HM HS S' total.
  unfold Float64.add, Float64.half, SFadd.
  pose proof (shl_align_eq M (- S) (Z.min (- S) (-53))) as [Ha _].
  pose proof (shl_align_eq 4503599627370496 (-53) (Z.min (- S) (-53))) as [Hb _].
  replace (Z.max 0 (- S - Z.min (- S) (-53))) with (S' - S) in Ha by (unfold S'; lia).
  replace (Z.max 0 (-53 - Z.min (- S) (-53))) with (S' - 53) in Hb by (unfold S'; lia).
  unfold cond_Zopp.
  set (a := fst (shl_align M (- S) (Z.min (- S) (-53)))) in *.
  set (b := fst (shl_align 4503599627370496 (-53) (Z.min (- S) (-53)))) in *.
  change (Z.pos a + Z.pos b) with (Z.pos (a + b)). unfold binary_normalize.
  assert (Htot : Z.pos (a + b) = total).
  { rewrite Pos2Z.inj_add, Ha, Hb. unfold total. f_equal.
    change (Z.pos 4503599627370496) with (2 ^ 52).
    rewrite <- Z.pow_add_r by (unfold S'; lia). f_equal. lia. }
  assert (H1 : 0 < 2 ^ (S' - S)) by (apply Z.pow_pos_nonneg; unfold S'; lia).
  assert (H2 : 2 ^ 52 <= 2 ^ (S' - 1)) by (apply Z.pow_le_mono_r; unfold S'; lia).
  assert (H3 : 2 ^ (S' - S) <= 2 ^ (S' - 1)) by (apply Z.pow_le_mono_r; unfold S'; lia).
  assert (H4 : 2 ^ (S' + 53) = 2 ^ 54 * 2 ^ (S' - 1))
    by (rewrite <- Z.pow_add_r by (unfold S'; lia); f_equal; lia).
  assert (Hlo : 2 ^ 52 <= total) by (unfold total; nia).
  assert (Hhi : total < 2 ^ (S' + 53)) by (unfold total; nia).
  pose proof (Zdigits2_bounds total ltac:(lia)) as Hd.
  assert (Hd53 : 53 <= Zdigits2 total <= S' + 53).
  { split.
    - destruct (Z.lt_ge_cases (Zdigits2 total) 53) as [Hlt|]; [|assumption].
      assert (2 ^ Zdigits2 total <= 2 ^ 52) by (apply Z.pow_le_mono_r; lia). lia.
    - destruct (Z.le_gt_cases (Zdigits2 total) (S' + 53)) as [|Hgt]; [assumption|].
      assert (2 ^ (S' + 53) <= 2 ^ (Zdigits2 total - 1))
        by (apply Z.pow_le_mono_r; unfold S' in *; lia).
      lia. }
  destruct (binary_round_nearest false (a + b) (Z.min (- S) (-53)))
    as (M' & s & j & Heq & HM' & Hb' & Hs & Hj).
  { rewrite Htot. unfold S' in *. lia. }
  rewrite Htot in *.
  assert (Hs0 : s = 0) by lia. clear Hs. subst s.
  rewrite Z.pow_0_r, Z.mul_1_r in HM'.
  exists M', j. split; [rewrite Heq; f_equal; unfold S'; lia|].
  split; [exact HM'|]. split; [exact Hb' | lia].
Qed.

Lemma to_int64_of_int n : 0 <= n < 2 ^ 53 -> Float64.to_int64 (Float64.of_int n) = Some n.
Proof.
  intros Hn. destruct (Z.eq_dec n 0) as [->|Hne]; [reflexivity|].
  destruct (of_int_exact n ltac:(lia)) as (m & s & -> & Hm & Hb & Hs).
  unfold Float64.to_int64, cond_Zopp.
  assert (Hv : (if 0 <=? - s then Z.pos m * 2 ^ (- s) else Z.pos m / 2 ^ (- - s)) = n).
  { destruct (Z.leb_spec 0 (- s)).
    - assert (s = 0) by lia. subst s. simpl in *. lia.
    - rewrite Z.opp_involutive, Hm. apply Z.div_mul.
      apply Z.pow_nonzero; lia. }
  rewrite Hv.
  unfold Int64.min_int, Int64.max_int.
  destruct (Z.leb_spec (- 2 ^ 63) n); [|lia].
  destruct (Z.leb_spec n (2 ^ 63 - 1)); [reflexivity | lia].
Qed.

Lemma floor_to_int64 M e n :
  e < 0 -> Z.pos M / 2 ^ (- e) = n -> 0 <= n < 2 ^ 53 ->
  Float64.to_int64 (Float64.Floor (S754_finite false M e)) = Some n.
Proof.
  intros He Hdiv Hn. unfold Float64.Floor, Float64.floor_int.
  destruct (Z.leb_spec 0 e); [lia|]. unfold cond_Zopp. rewrite Hdiv.
  now apply to_int64_of_int.
Qed.

(** The first rounding leaves room between the quotient and the next
    half-integer. *)
Lemma first_rounding t c n M A2 :
  0 < t -> 0 < c -> 0 < A2 -> 4 * t + 6 * c < 2 ^ 53 ->
  2 * c * n <= 2 * t + c < 2 * c * (n + 1) ->
  M = rne (t * (2 * A2)) c -> 2 ^ 52 <= M ->
  (2 * n - 1) * A2 <= M /\
  c <= A2 /\
  2 * (M * c) <= (2 * n + 1) * c * (2 * A2) - 2 * A2 + c.
Proof.
  intros Ht Hc HA2 Hbound Hn HM HMb.
  pose proof (rne_upper (t * (2 * A2)) c Hc) as HMu. rewrite <- HM in HMu.
  assert (H52 : 2 ^ 52 * c <= M * c) by (apply Z.mul_le_mono_nonneg_r; lia).
  split; [|split].
  - rewrite HM. apply rne_ge_int; [exact Hc|].
    assert (A2 * ((2 * n - 1) * c) <= A2 * (2 * t))
      by (apply Z.mul_le_mono_nonneg_l; lia).
    lia.
  - destruct (Z.le_gt_cases c A2) as [|Hlt]; [assumption|]. exfalso.
    assert (t * A2 <= t * (c - 1)) by (apply Z.mul_le_mono_nonneg_l; lia).
    assert (4 * t * (c - 1) <= (2 ^ 53 - 6 * c - 1) * (c - 1))
      by (apply Z.mul_le_mono_nonneg_r; lia).
    assert (1 * c <= c * c) by (apply Z.mul_le_mono_nonneg_r; lia).
    lia.
  - assert (2 * t * (2 * A2) <= ((2 * n + 1) * c - 1) * (2 * A2))
      by (apply Z.mul_le_mono_nonneg_r; lia).
    lia.
Qed.

(** The sum with one half, scaled by [R]. *)
Lemma half_sum c n M A2 R :
  0 < c -> 0 < A2 -> 0 < R ->
  (2 * n - 1) * A2 <= M -> c <= A2 ->
  2 * (M * c) <= (2 * n + 1) * c * (2 * A2) - 2 * A2 + c ->
  n * (2 * (A2 * R)) <= M * R + A2 * R /\
  2 * (A2 * R) - c * R <= 2 * c * ((n + 1) * (2 * (A2 * R)) - (M * R + A2 * R)) /\
  c * R < 2 * (A2 * R) /\
  M * R + A2 * R < (n + 1) * (2 * (A2 * R)).
Proof.
  intros Hc HA2 HR HMl Hc2 HMu.
  assert (H1 : (2 * n - 1) * A2 * R <= M * R) by (apply Z.mul_le_mono_nonneg_r; lia).
  assert (H2 : 2 * (M * c) * R <= ((2 * n + 1) * c * (2 * A2) - 2 * A2 + c) * R)
    by (apply Z.mul_le_mono_nonneg_r; lia).
  assert (H3 : c * R <= A2 * R) by (apply Z.mul_le_mono_nonneg_r; lia).
  assert (H4 : 0 < A2 * R) by (apply Z.mul_pos_pos; lia).
  assert (Htu : 2 * (A2 * R) - c * R
                <= 2 * c * ((n + 1) * (2 * (A2 * R)) - (M * R + A2 * R))) by lia.
  split; [lia|]. split; [exact Htu|]. split; [lia|].
  destruct (Z.lt_ge_cases (M * R + A2 * R) ((n + 1) * (2 * (A2 * R)))) as [|Hge];
    [assumption|]. exfalso.
  assert (c * ((n + 1) * (2 * (A2 * R)) - (M * R + A2 * R)) <= c * 0)
    by (apply Z.mul_le_mono_nonneg_l; lia).
  lia.
Qed.

(** The second rounding cannot reach the next integer. *)
Lemma second_rounding t c n M' W tot Q J cR :
  0 < c -> 0 <= n -> 0 < Q -> 0 < J -> 0 <= cR ->
  4 * t + 6 * c < 2 ^ 53 -> 2 * c * n <= 2 * t + c ->
  W = Q * J ->
  n * W <= tot -> tot < (n + 1) * W ->
  W - cR <= 2 * c * ((n + 1) * W - tot) -> 2 * cR <= W ->
  M' = rne tot J -> 2 ^ 52 <= M' ->
  M' / Q = n.
Proof.
  intros Hc Hn0 HQ HJ HcR Hbound Hn EW Htl Htlt Htu HcRW HM' HMb'.
  pose proof (rne_upper tot J HJ) as HMu. rewrite <- HM' in HMu.
  assert (Hcn : 4 * (c * (n + 1)) <= 2 ^ 53 - 1) by lia.
  assert (H52 : 2 ^ 52 * J <= M' * J) by (apply Z.mul_le_mono_nonneg_r; lia).
  assert (EnW : n * W = n * (Q * J)) by now rewrite EW.
  assert (HQc : 2 * c < Q).
  { destruct (Z.lt_ge_cases (2 * c) Q) as [|Hge]; [assumption|]. exfalso.
    assert ((n + 1) * J * Q <= (n + 1) * J * (2 * c))
      by (apply Z.mul_le_mono_nonneg_l; [apply Z.mul_nonneg_nonneg|]; lia).
    assert (4 * (c * (n + 1)) * J <= (2 ^ 53 - 1) * J)
      by (apply Z.mul_le_mono_nonneg_r; lia).
    lia. }
  assert (Hlo : n * Q <= M').
  { rewrite HM'. apply rne_ge_int; [exact HJ|]. lia. }
  assert (Hhi : M' < (n + 1) * Q).
  { destruct (Z.lt_ge_cases M' ((n + 1) * Q)) as [|Hge]; [assumption|]. exfalso.
    assert ((n + 1) * Q * J <= M' * J) by (apply Z.mul_le_mono_nonneg_r; lia).
    assert (HX : 2 * ((n + 1) * W - tot) <= J) by lia.
    assert (c * (2 * ((n + 1) * W - tot)) <= c * J)
      by (apply Z.mul_le_mono_nonneg_l; lia).
    assert ((2 * c + 1) * J <= Q * J) by (apply Z.mul_le_mono_nonneg_r; lia).
    lia. }
  symmetry. apply (Z.div_unique M' Q n (M' - n * Q)); lia.
Qed.

(** The arithmetic of the two roundings: under the bound, rounding the
    quotient and then the sum with one half still gives a float whose
    integer part is the mean rounded half up. *)
Lemma mean_arith t c S M j M' :
  0 < t -> 0 < c -> 4 * t + 6 * c < 2 ^ 53 ->
  1 <= S -> M = rne (t * 2 ^ S) c -> 2 ^ 52 <= M < 2 ^ 53 ->
  0 <= j -> M' = rne (M * 2 ^ (Z.max S 53 - S) + 2 ^ (Z.max S 53 - 1)) (2 ^ j) ->
  2 ^ 52 <= M' < 2 ^ 53 ->
  j < Z.max S 53 /\ M' / 2 ^ (Z.max S 53 - j) = (2 * t + c) / (2 * c).
Proof.
  intros Ht Hc Hbound HS HM HMb Hj HM' HMb'.
  set (S' := Z.max S 53) in *.
  set (n := (2 * t + c) / (2 * c)).
  assert (Hn : 2 * c * n <= 2 * t + c < 2 * c * (n + 1)).
  { pose proof (Z.div_mod (2 * t + c) (2 * c) ltac:(lia)) as E.
    pose proof (Z.mod_pos_bound (2 * t + c) (2 * c) ltac:(lia)) as Hb.
    fold n in E. lia. }
  assert (Hn0 : 0 <= n) by (apply Z.div_pos; lia).
  assert (HA2 : 0 < 2 ^ (S - 1)) by (apply Z.pow_pos_nonneg; lia).
  assert (HR : 0 < 2 ^ (S' - S)) by (apply Z.pow_pos_nonneg; unfold S'; lia).
  assert (HJ : 0 < 2 ^ j) by (apply Z.pow_pos_nonneg; lia).
  assert (EA : 2 ^ S = 2 * 2 ^ (S - 1)).
  { rewrite <- Z.pow_succ_r by lia. f_equal. lia. }
  assert (EB2 : 2 ^ (S' - 1) = 2 ^ (S - 1) * 2 ^ (S' - S)).
  { rewrite <- Z.pow_add_r by (unfold S'; lia). f_equal. lia. }
  assert (EB : 2 * (2 ^ (S - 1) * 2 ^ (S' - S)) = 2 ^ S').
  { rewrite <- EB2. rewrite <- Z.pow_succ_r by (unfold S'; lia). f_equal. lia. }
  rewrite EA in HM. rewrite EB2 in HM'.
  set (A2 := 2 ^ (S - 1)) in *. set (R := 2 ^ (S' - S)) in *.
  destruct (first_rounding t c n M A2 Ht Hc HA2 Hbound Hn HM ltac:(lia))
    as (HMl & Hc2 & HMu).
  destruct (half_sum c n M A2 R Hc HA2 HR HMl Hc2 HMu) as (Htl & Htu & HcR & Htlt).
  assert (HjS : j < S').
  { destruct (Z.lt_ge_cases j S') as [|Hge]; [assumption|]. exfalso.
    assert (HW : 2 ^ S' <= 2 ^ j) by (apply Z.pow_le_mono_r; lia).
    pose proof (rne_upper (M * R + A2 * R) (2 ^ j) HJ) as HMu2. rewrite <- HM' in HMu2.
    assert (2 ^ 52 * 2 ^ j <= M' * 2 ^ j) by (apply Z.mul_le_mono_nonneg_r; lia).
    assert (1 * (n + 1) <= c * (n + 1)) by (apply Z.mul_le_mono_nonneg_r; lia).
    assert (0 <= A2 * R) by (apply Z.mul_nonneg_nonneg; lia).
    assert (2 * (n + 1) * (A2 * R) <= (2 ^ 53 - 1) * (A2 * R))
      by (apply Z.mul_le_mono_nonneg_r; lia).
    lia. }
  split; [exact HjS|].
  assert (HQ : 0 < 2 ^ (S' - j)) by (apply Z.pow_pos_nonneg; lia).
  assert (EQ : 2 * (A2 * R) = 2 ^ (S' - j) * 2 ^ j).
  { rewrite EB. rewrite <- Z.pow_add_r by lia. f_equal. lia. }
  assert (HcR0 : 0 <= c * R) by (apply Z.mul_nonneg_nonneg; lia).
  assert (HcR2 : 2 * (c * R) <= 2 * (A2 * R)).
  { assert (c * R <= A2 * R) by (apply Z.mul_le_mono_nonneg_r; lia). lia. }
  apply (second_rounding t c n M' (2 * (A2 * R)) (M * R + A2 * R) (2 ^ (S' - j)) (2 ^ j)
           (c * R)); try assumption; lia.
Qed.

End FloatFacts.

(** ** The average *)

Module AverageFacts.

Import Reduce Spec ReduceFacts FloatFacts.
Local Open Scope Z_scope.

Lemma valid_total_snoc n i :
  valid_total (n ++ [i]) = valid_total n + (if 0 <=? i then i else 0).
Proof.
  unfold valid_total. rewrite valid_snoc. destruct (0 <=? i); [|lia].
  rewrite fold_right_app. simpl.
  induction (valid n) as [|x l IH]; simpl; lia.
Qed.

Lemma valid_count_snoc n i :
  valid_count (n ++ [i]) = valid_count n + (if 0 <=? i then 1 else 0).
Proof.
  unfold valid_count. rewrite valid_snoc. destruct (0 <=? i); [|lia].
  rewrite length_app. simpl. lia.
Qed.

Lemma valid_total_nonneg n : 0 <= valid_total n.
Proof.
  induction n as [|i n IH] using rev_ind; [reflexivity|].
  rewrite valid_total_snoc. destruct (Z.leb_spec 0 i); lia.
Qed.

Lemma valid_count_pos n : valid n <> [] <-> 0 < valid_count n.
Proof. unfold valid_count. destruct (valid n); simpl; split; try congruence; lia. Qed.

(** What the loop of [average] leaves. *)
Lemma average_acc_eq n :
  average_acc n = (Int64.wrap (valid_total n), Int64.wrap (valid_count n)).
Proof.
  unfold average_acc. induction n as [|i n IH] using rev_ind; [reflexivity|].
  rewrite fold_left_app, IH, valid_total_snoc, valid_count_snoc. simpl.
  unfold Int64.add. destruct (0 <=? i).
  - now rewrite !wrap_add_l.
  - now rewrite !Z.add_0_r.
Qed.

Lemma average_quotient t c :
  0 <= t -> 0 < c -> 4 * t + 6 * c < 2 ^ 53 ->
  Float64.to_int64
    (Float64.Floor (Float64.add (Float64.div (Float64.of_int t) (Float64.of_int c))
                      Float64.half))
  = Some (rounded_mean t c).
Proof.
  intros Ht Hc Hb. unfold rounded_mean.
  destruct (Z.eq_dec t 0) as [->|Hne].
  - destruct (of_int_exact c ltac:(lia)) as (mc & sc & -> & _).
    simpl. rewrite Z.div_small by lia. reflexivity.
  - destruct (div_int t c ltac:(lia) ltac:(lia)) as (M & S & -> & HM & HMb & HS).
    destruct (add_half M S HMb ltac:(lia)) as (M' & j & -> & HM' & HMb' & Hj).
    destruct (mean_arith t c S (Z.pos M) j (Z.pos M') ltac:(lia) Hc Hb ltac:(lia) HM HMb
                Hj HM' HMb') as [HjS Hdiv].
    apply floor_to_int64; [lia| |].
    + rewrite <- Hdiv. do 2 f_equal. lia.
    + split; [apply Z.div_pos; lia|].
      apply Z.div_lt_upper_bound; lia.
Qed.

Lemma rounded_mean_spec t c :
  0 < c ->
  (2 * rounded_mean t c - 1) * c <= 2 * t < (2 * rounded_mean t c + 1) * c.
Proof.
  intros Hc. unfold rounded_mean.
  pose proof (Z.div_mod (2 * t + c) (2 * c) ltac:(lia)) as E.
  pose proof (Z.mod_pos_bound (2 * t + c) (2 * c) ltac:(lia)) as Hb.
  nia.
Qed.

(** C3, as the code has it.  For a sample sequence with at least one
    non-negative sample, whose non-negative samples have a sum [T] and a
    number [C] with [4 * T + 6 * C < 2^53] (so whenever both are below
    [2^49]), [average] is the arithmetic mean of the non-negative samples,
    the negative ones left out, rounded to the nearest integer by
    [floor (x + 0.5)]: the integer [r] with [r - 1/2 <= T / C < r + 1/2].
    In particular [average [10;20;30] = 20] and [average [-1;10] = 10]. *)
Theorem average_rounded_mean (n : list Z) :
  valid n <> [] ->
  4 * valid_total n + 6 * valid_count n < 2 ^ 53 ->
  average_defined n = Some (rounded_mean (valid_total n) (valid_count n)) /\
  (forall impl_int64, average impl_int64 n = rounded_mean (valid_total n) (valid_count n)) /\
  (2 * rounded_mean (valid_total n) (valid_count n) - 1) * valid_count n
    <= 2 * valid_total n
    < (2 * rounded_mean (valid_total n) (valid_count n) + 1) * valid_count n /\
  average_defined [10; 20; 30] = Some 20 /\
  average_defined [-1; 10] = Some 10.
Proof.
  intros Hv Hb. apply valid_count_pos in Hv.
  pose proof (valid_total_nonneg n) as Ht.
  assert (Hd : average_defined n = Some (rounded_mean (valid_total n) (valid_count n))).
  { unfold average_defined, average_floor, average_favg. rewrite average_acc_eq.
    rewrite !wrap_small by (unfold Int64.in_range, Int64.min_int, Int64.max_int; lia).
    now apply average_quotient. }
  split; [exact Hd|]. split; [|split; [now apply rounded_mean_spec | split; reflexivity]].
  intros impl. unfold average. now rewrite Hd.
Qed.

(** C2.  [average] divides the sum by the count of the non-negative
    samples without looking at the count.  With at least one non-negative
    sample the divisor is not zero and the quotient is a finite float.
    With none, the loop leaves [0 / 0]: the quotient is NaN, Go leaves the
    conversion of NaN to [int64] implementation-dependent, and the result
    is whatever the platform gives.  So a result Go defines needs a
    non-negative sample. *)
Theorem average_division_guard (n : list Z) :
  Z.of_nat (length n) <= Int64.max_int ->
  (valid n <> [] ->
     snd (average_acc n) <> 0 /\
     Float64.is_nan (average_favg n) = false /\
     Float64.is_finite (average_favg n) = true) /\
  (valid n = [] ->
     average_acc n = (0, 0) /\
     average_favg n = S754_nan /\
     average_defined n = None /\
     forall impl_int64, average impl_int64 n = impl_int64 S754_nan) /\
  (forall z, average_defined n = Some z -> valid n <> []).
Proof.
  intros Hlen.
  assert (Hnone : valid n = [] ->
            average_acc n = (0, 0) /\ average_favg n = S754_nan /\
            average_defined n = None /\
            forall impl_int64, average impl_int64 n = impl_int64 S754_nan).
  { intros Hv.
    assert (Ha : average_acc n = (0, 0)).
    { rewrite average_acc_eq. unfold valid_total, valid_count. now rewrite Hv. }
    assert (Hf : average_favg n = S754_nan) by (unfold average_favg; now rewrite Ha).
    assert (Hfl : average_floor n = S754_nan) by (unfold average_floor; now rewrite Hf).
    assert (Hd : average_defined n = None) by (unfold average_defined; now rewrite Hfl).
    repeat split; try assumption.
    intros impl. unfold average. now rewrite Hd, Hfl. }
  split; [|split; [exact Hnone|]].
  - intros Hv. apply valid_count_pos in Hv.
    assert (Hc : valid_count n <= Int64.max_int).
    { unfold valid_count, valid. pose proof (List.filter_length_le (fun i => 0 <=? i) n). lia. }
    unfold average_favg. rewrite average_acc_eq. simpl.
    rewrite (wrap_small (valid_count n))
      by (unfold Int64.in_range, Int64.min_int, Int64.max_int in *; lia).
    split; [lia|].
    destruct (of_int_finite (valid_count n) ltac:(lia)
                ltac:(unfold Int64.max_int in Hc; lia)) as (sc & mc & ec & -> & Hbc & Hec).
    pose proof (wrap_in_range (valid_total n)) as Hr.
    destruct (Z.eq_dec (Int64.wrap (valid_total n)) 0) as [->|Hne]; [now split|].
    destruct (of_int_finite (Int64.wrap (valid_total n)) Hne
                ltac:(unfold Int64.in_range, Int64.min_int, Int64.max_int in Hr; lia))
      as (st & mt & et & -> & Hbt & Het).
    split; [apply div_finite_not_nan|].
    destruct (div_nearest st mt et sc mc ec Hbt Hbc ltac:(lia) ltac:(lia))
      as (m' & j & -> & _). reflexivity.
  - intros z Hz Hv. destruct (Hnone Hv) as (_ & _ & Hd & _). congruence.
Qed.

Lemma average_rounded_mean_witness :
  valid [3; -1; 4; 4] <> [] /\
  average_defined [3; -1; 4; 4] = Some 4 /\
  average Example.impl_min [3; -1; 4; 4] = 4.
Proof.
  split; [discriminate|].
  assert (Hv : valid [3; -1; 4; 4] <> []) by discriminate.
  assert (Hb : 4 * valid_total [3; -1; 4; 4] + 6 * valid_count [3; -1; 4; 4] < 2 ^ 53)
    by (vm_compute; reflexivity).
  split.
  - exact (proj1 (average_rounded_mean [3; -1; 4; 4] Hv Hb)).
  - exact (proj1 (proj2 (average_rounded_mean [3; -1; 4; 4] Hv Hb)) Example.impl_min).
Defined.

(** C3 as the claim words it fails where [float64] cannot hold the sum:
    the mean of the one sample [2^53 + 1] is that sample, and [average]
    gives [2^53]. *)
Lemma average_float_counterexample :
  valid [9007199254740993] <> [] /\
  rounded_mean (valid_total [9007199254740993]) (valid_count [9007199254740993])
    = 9007199254740993 /\
  average_defined [9007199254740993] = Some 9007199254740992 /\
  average Example.impl_min [9007199254740993] <> 9007199254740993.
Proof.
  split; [discriminate|]. split; [reflexivity|]. split; [reflexivity|].
  vm_compute. discriminate.
Qed.

Lemma average_division_guard_witness :
  Float64.is_finite (average_favg [-1; 10; -3]) = true /\
  average_favg [-1; -3] = S754_nan /\
  average Example.impl_min [-1; -3] = Int64.min_int.
Proof.
  assert (H1 : Z.of_nat (length [-1; 10; -3]) <= Int64.max_int) by (vm_compute; discriminate).
  assert (H2 : Z.of_nat (length [-1; -3]) <= Int64.max_int) by (vm_compute; discriminate).
  split; [|split].
  - apply (proj1 (average_division_guard [-1; 10; -3] H1)). discriminate.
  - apply (proj1 (proj2 (average_division_guard [-1; -3] H2))). reflexivity.
  - destruct (proj1 (proj2 (average_division_guard [-1; -3] H2)) eq_refl)
      as (_ & _ & _ & H).
    exact (H Example.impl_min).
Defined.

End AverageFacts.

(** ** More on the reductions *)

Module ReductionFacts.

Import Reduce Spec ReduceFacts.

(** X1.  The sentinel is unambiguous: [min] and [max] return [-1] exactly
    when no sample is non-negative, and otherwise
    [0 <= min n <= max n]. *)
Theorem sentinel_means_no_data (n : list Z) :
  (min n = -1 <-> valid n = []) /\
  (max n = -1 <-> valid n = []) /\
  (valid n <> [] -> 0 <= min n <= max n).
Proof.
  destruct (min_invariant n) as [[Hv Hm]|(Hv & H0 & Hin & Hle)];
    destruct (max_invariant n) as [[Hv' Hm']|(Hv' & H0' & Hin' & Hle')];
    try contradiction.
  - repeat split; try assumption; try congruence.
  - split; [split; [lia | contradiction]|].
    split; [split; [lia | contradiction]|].
    intros _. split; [exact H0 | now apply Hle'].
Qed.

Lemma valid_Permutation n m : Permutation n m -> Permutation (valid n) (valid m).
Proof.
  unfold valid. intros H.
  induction H as [|x l l' H IH|x y l|l l' l'' H1 IH1 H2 IH2]; simpl.
  - apply perm_nil.
  - destruct (0 <=? x); [now apply perm_skip | assumption].
  - destruct (0 <=? x), (0 <=? y); try reflexivity. apply perm_swap.
  - now transitivity (List.filter (fun i => 0 <=? i) l').
Qed.

Lemma total_Permutation (l k : list Z) :
  Permutation l k -> fold_right Z.add 0 l = fold_right Z.add 0 k.
Proof.
  intros H. induction H as [|x l l' H IH|x y l|l l' l'' H1 IH1 H2 IH2]; simpl; lia.
Qed.

Lemma positive_total_Permutation n m :
  Permutation n m -> positive_total n = positive_total m.
Proof.
  intros H. unfold positive_total. apply total_Permutation.
  induction H as [|x l l' H IH|x y l|l l' l'' H1 IH1 H2 IH2]; simpl.
  - apply perm_nil.
  - destruct (0 <? x); [now apply perm_skip | assumption].
  - destruct (0 <? x), (0 <? y); try reflexivity. apply perm_swap.
  - now transitivity (List.filter (fun i => 0 <? i) l').
Qed.

Lemma min_Permutation n m : Permutation n m -> min n = min m.
Proof.
  intros H. pose proof (valid_Permutation n m H) as Hv.
  destruct (min_invariant n) as [[Hn Hmn]|(Hn & _ & Hin & Hle)];
    destruct (min_invariant m) as [[Hm Hmm]|(Hm & _ & Hin' & Hle')].
  - congruence.
  - rewrite Hn in Hv. apply Permutation_nil in Hv. contradiction.
  - rewrite Hm in Hv. symmetry in Hv. apply Permutation_nil in Hv. contradiction.
  - apply Z.le_antisymm.
    + apply Hle. eapply Permutation_in; [symmetry; exact Hv | exact Hin'].
    + apply Hle'. eapply Permutation_in; [exact Hv | exact Hin].
Qed.

Lemma max_Permutation n m : Permutation n m -> max n = max m.
Proof.
  intros H. pose proof (valid_Permutation n m H) as Hv.
  destruct (max_invariant n) as [[Hn Hmn]|(Hn & _ & Hin & Hle)];
    destruct (max_invariant m) as [[Hm Hmm]|(Hm & _ & Hin' & Hle')].
  - congruence.
  - rewrite Hn in Hv. apply Permutation_nil in Hv. contradiction.
  - rewrite Hm in Hv. symmetry in Hv. apply Permutation_nil in Hv. contradiction.
  - apply Z.le_antisymm.
    + apply Hle'. eapply Permutation_in; [exact Hv | exact Hin].
    + apply Hle. eapply Permutation_in; [symmetry; exact Hv | exact Hin'].
Qed.

(** X2.  [min], [max], [sum] and [average] do not depend on the order of
    the samples (unlike [latest]). *)
Theorem reductions_ignore_order (n m : list Z) :
  Permutation n m ->
  min n = min m /\ max n = max m /\ sum n = sum m /\
  average_acc n = average_acc m /\
  forall impl_int64, average impl_int64 n = average impl_int64 m.
Proof.
  intros H.
  assert (Ha : average_acc n = average_acc m).
  { rewrite !AverageFacts.average_acc_eq. unfold valid_total, valid_count.
    pose proof (valid_Permutation n m H) as Hv.
    rewrite (total_Permutation _ _ Hv). now rewrite (Permutation_length Hv). }
  split; [now apply min_Permutation|]. split; [now apply max_Permutation|].
  split; [rewrite !sum_wraps; now rewrite (positive_total_Permutation n m H)|].
  split; [exact Ha|].
  intros impl. unfold average, average_defined, average_floor, average_favg.
  now rewrite Ha.
Qed.

Lemma reductions_ignore_order_witness :
  min [3; -1; 2] = min [2; 3; -1] /\ sum [3; -1; 2] = sum [2; 3; -1] /\
  average Example.impl_min [3; -1; 2] = average Example.impl_min [2; 3; -1].
Proof.
  assert (H : Permutation [3; -1; 2] [2; 3; -1]).
  { apply Permutation_sym. apply (Permutation_cons_app [3; -1] [] 2). reflexivity. }
  destruct (reductions_ignore_order [3; -1; 2] [2; 3; -1] H) as (H1 & _ & H3 & _ & H5).
  split; [exact H1|]. split; [exact H3 | exact (H5 Example.impl_min)].
Defined.

Lemma total_between (l : list Z) (a b : Z) :
  (forall i, In i l -> a <= i <= b) ->
  a * Z.of_nat (length l) <= fold_right Z.add 0 l <= b * Z.of_nat (length l).
Proof.
  induction l as [|x l IH]; intros H; [simpl; lia|].
  assert (Hx : a <= x <= b) by (apply H; now left).
  assert (Hl : forall i, In i l -> a <= i <= b) by (intros i Hi; apply H; now right).
  specialize (IH Hl). change (length (x :: l)) with (S (length l)).
  rewrite Nat2Z.inj_succ. simpl fold_right. lia.
Qed.

Lemma rounded_mean_between (t c a b : Z) :
  0 < c -> a * c <= t <= b * c -> a <= rounded_mean t c <= b.
Proof.
  intros Hc [Ha Hb]. unfold rounded_mean. split.
  - apply Z.div_le_lower_bound; lia.
  - assert ((2 * t + c) / (2 * c) < b + 1); [|lia].
    apply Z.div_lt_upper_bound; lia.
Qed.

(** X3.  Within the range where the float arithmetic is exact enough
    ([4 * T + 6 * C < 2^53] for the sum [T] and the number [C] of the
    non-negative samples), the average lies between the minimum and the
    maximum. *)
Theorem average_between_min_and_max (impl_int64 : spec_float -> Z) (n : list Z) :
  valid n <> [] ->
  4 * valid_total n + 6 * valid_count n < 2 ^ 53 ->
  min n <= average impl_int64 n <= max n.
Proof.
  intros Hv Hb.
  pose proof (proj1 (AverageFacts.valid_count_pos n) Hv) as Hc.
  pose proof (AverageFacts.valid_total_nonneg n) as Ht.
  assert (Hd : average_defined n = Some (rounded_mean (valid_total n) (valid_count n))).
  { unfold average_defined, average_floor, average_favg.
    rewrite AverageFacts.average_acc_eq.
    rewrite !wrap_small by (unfold Int64.in_range, Int64.min_int, Int64.max_int; lia).
    now apply AverageFacts.average_quotient. }
  unfold average. rewrite Hd.
  apply rounded_mean_between; [exact Hc|].
  destruct (min_invariant n) as [[Hn _]|(_ & _ & _ & Hle)]; [contradiction|].
  destruct (max_invariant n) as [[Hn _]|(_ & _ & _ & Hle')]; [contradiction|].
  unfold valid_total, valid_count.
  apply total_between. intros i Hi. split; [now apply Hle | now apply Hle'].
Qed.

Lemma average_between_min_and_max_witness :
  min [7; -1; 2; 4] <= average Example.impl_min [7; -1; 2; 4] <= max [7; -1; 2; 4].
Proof.
  apply (average_between_min_and_max Example.impl_min [7; -1; 2; 4]).
  - discriminate.
  - vm_compute. reflexivity.
Defined.

End ReductionFacts.

(** ** More on the point assembler *)

Module AssemblerMore.

Import Query Spec AssemblerFacts.
Local Open Scope string_scope.
Local Open Scope list_scope.
Local Open Scope Z_scope.

(** The only reduction that can fail is [.latest], on no samples. *)
Lemma value_of_None impl_int64 metricName Value :
  value_of impl_int64 metricName Value = None <->
  strings.HasSuffix metricName ".latest" = true /\ Value = [].
Proof.
  unfold value_of. split.
  - destruct (strings.HasSuffix metricName ".average"); [discriminate|].
    destruct (strings.HasSuffix metricName ".maximum"); [discriminate|].
    destruct (strings.HasSuffix metricName ".minimum"); [discriminate|].
    destruct (strings.HasSuffix metricName ".latest").
    + destruct Value as [|x l] using rev_ind; [now split|].
      rewrite ReduceFacts.latest_snoc. discriminate.
    + now destruct (strings.HasSuffix metricName ".summation").
  - intros [Hl ->].
    rewrite (StringFacts.HasSuffix_exclusive metricName ".latest" ".average" Hl)
      by reflexivity.
    rewrite (StringFacts.HasSuffix_exclusive metricName ".latest" ".maximum" Hl)
      by reflexivity.
    rewrite (StringFacts.HasSuffix_exclusive metricName ".latest" ".minimum" Hl)
      by reflexivity.
    now rewrite Hl.
Qed.

(** X5.  The reduction is chosen by the suffix of the metric name, and
    the five suffixes exclude each other: [.average], [.maximum],
    [.minimum] and [.summation] give [average], [max], [min] and [sum] of
    the samples, whatever the samples are. *)
Theorem value_by_suffix (impl_int64 : spec_float -> Z) (metricName : string)
    (Value : list Z) :
  (strings.HasSuffix metricName ".average" = true ->
     value_of impl_int64 metricName Value = Some (Reduce.average impl_int64 Value)) /\
  (strings.HasSuffix metricName ".maximum" = true ->
     value_of impl_int64 metricName Value = Some (Reduce.max Value)) /\
  (strings.HasSuffix metricName ".minimum" = true ->
     value_of impl_int64 metricName Value = Some (Reduce.min Value)) /\
  (strings.HasSuffix metricName ".summation" = true ->
     value_of impl_int64 metricName Value = Some (Reduce.sum Value)).
Proof.
  unfold value_of. repeat split; intros H.
  - now rewrite H.
  - rewrite (StringFacts.HasSuffix_exclusive metricName ".maximum" ".average" H)
      by reflexivity.
    now rewrite H.
  - rewrite (StringFacts.HasSuffix_exclusive metricName ".minimum" ".average" H)
      by reflexivity.
    rewrite (StringFacts.HasSuffix_exclusive metricName ".minimum" ".maximum" H)
      by reflexivity.
    now rewrite H.
  - rewrite (StringFacts.HasSuffix_exclusive metricName ".summation" ".average" H)
      by reflexivity.
    rewrite (StringFacts.HasSuffix_exclusive metricName ".summation" ".maximum" H)
      by reflexivity.
    rewrite (StringFacts.HasSuffix_exclusive metricName ".summation" ".minimum" H)
      by reflexivity.
    rewrite (StringFacts.HasSuffix_exclusive metricName ".summation" ".latest" H)
      by reflexivity.
    now rewrite H.
Qed.

Lemma value_by_suffix_witness :
  value_of Example.impl_min "cpu.ready.summation" [-5; 0; 3; 4] = Some 7 /\
  value_of Example.impl_min "mem.usage.maximum" [5; -1; 9] = Some 9.
Proof.
  split.
  - apply (proj2 (proj2 (proj2 (value_by_suffix Example.impl_min "cpu.ready.summation"
                                  [-5; 0; 3; 4])))). reflexivity.
  - apply (proj1 (proj2 (value_by_suffix Example.impl_min "mem.usage.maximum"
                           [5; -1; 9]))). reflexivity.
Defined.

Section Panics.

Variable ToLower : string -> string.
Variable impl_int64 : spec_float -> Z.
Variable names : gmap Z string.

Lemma serie_step_None tags st baseserie :
  serie_step ToLower impl_int64 names tags st baseserie = None <-> Spec.panics ToLower names baseserie.
Proof.
  destruct baseserie as [serie|id csv]; simpl; [|tauto].
  rewrite <- (value_of_None impl_int64).
  destruct (value_of impl_int64 _ _); [|tauto].
  split; [|discriminate]. now destruct (String.eqb _ _).
Qed.

Lemma series_loop_None tags st Value :
  series_loop ToLower impl_int64 names tags st Value = None <->
  exists baseserie, In baseserie Value /\ Spec.panics ToLower names baseserie.
Proof.
  revert st. induction Value as [|b Value IH]; intros st; simpl.
  - split; [discriminate | intros (b & [] & _)].
  - destruct (serie_step ToLower impl_int64 names tags st b) as [st'|] eqn:Hs.
    + rewrite IH. split.
      * intros (b' & Hin & Hp). exists b'. split; [now right | exact Hp].
      * intros (b' & [<-|Hin] & Hp).
        -- apply (serie_step_None tags st) in Hp. congruence.
        -- now exists b'.
    + split; [|reflexivity]. intros _. exists b. split; [now left|].
      now apply (serie_step_None tags st).
Qed.

End Panics.

(** X4.  The batch is lost (the program panics) exactly when a returned
    entity or one of its series is not of the type the code asserts, or a
    series whose metric name ends in [.latest] has no samples; nothing
    else in the assembly can fail. *)
Theorem batch_fails_exactly (ToLower : string -> string) (impl_int64 : spec_float -> Z)
    (config : Configuration) (Hostname : string) (names : gmap Z string)
    (inv : inventory) (Returnval : list BasePerfEntityMetricBase) :
  batch ToLower impl_int64 config Hostname names inv Returnval = None <->
  exists base, In base Returnval /\
    match base with
    | EntityMetricCSV _ _ => True
    | EntityMetric pem =>
        exists baseserie, In baseserie (PerfEntityMetric.Value pem) /\
          match baseserie with
          | SeriesCSV _ _ => True
          | IntSeries serie =>
              strings.HasSuffix (metricName_of ToLower names serie) ".latest" = true /\
              PerfMetricIntSeries.Value serie = []
          end
    end.
Proof.
  assert (Hentity : forall base,
            entity_points ToLower impl_int64 config Hostname names inv base = None <->
            match base with
            | EntityMetricCSV _ _ => True
            | EntityMetric pem =>
                exists baseserie, In baseserie (PerfEntityMetric.Value pem) /\
                                  Spec.panics ToLower names baseserie
            end).
  { intros [pem|e csv]; simpl; [|tauto].
    match goal with
    | |- context [series_loop ?a ?b ?c ?t ?s ?v] =>
        pose proof (series_loop_None a b c t s v) as HL;
        destruct (series_loop a b c t s v)
    end.
    - split; [discriminate|]. intros H. apply HL in H. discriminate.
    - split; [intros _; now apply HL | reflexivity]. }
  induction Returnval as [|base rest IH]; simpl.
  - split; [discriminate | intros (b & [] & _)].
  - destruct (entity_points ToLower impl_int64 config Hostname names inv base)
      as [pts|] eqn:He.
    + destruct (batch ToLower impl_int64 config Hostname names inv rest) as [pts'|].
      * split; [discriminate|]. intros (b & [<-|Hin] & Hb).
        -- apply Hentity in Hb. congruence.
        -- assert (Hn : Some pts' = None) by (apply IH; now exists b).
           discriminate.
      * split; [|reflexivity]. intros _.
        destruct (proj1 IH eq_refl) as (b & Hin & Hb). exists b. split; [now right | exact Hb].
    + split; [|reflexivity]. intros _. exists base. split; [now left|].
      now apply Hentity.
Qed.

End AssemblerMore.

Module StringMore.

Import strings Spec.
Local Open Scope string_scope.

Lemma HasPrefix_single x s c : HasPrefix (String x s) (String c "") = Ascii.eqb x c.
Proof. simpl. destruct (Ascii.eqb x c); [now destruct s | reflexivity]. Qed.

Lemma Index_from_single i s c :
  0 <= i -> (Index_from i s (String c "") = -1 <-> has c s = false).
Proof.
  revert i. induction s as [|x s IH]; intros i Hi.
  - simpl. tauto.
  - rewrite StringFacts.Index_from_eq, HasPrefix_single. simpl.
    destruct (Ascii.eqb x c); simpl.
    + split; [lia | discriminate].
    + apply IH. lia.
Qed.

Lemma has_app c a b : has c (a ++ b) = has c a || has c b.
Proof.
  induction a as [|x a IH]; simpl; [reflexivity|].
  rewrite IH. now rewrite orb_assoc.
Qed.

(** Replacing every [c] by a string without [c] leaves no [c]. *)
Lemma Replace_single_has c new s :
  has c new = false -> has c (Replace s (String c "") new) = false.
Proof.
  intros Hnew. unfold Replace.
  induction s as [|x s IH]; [reflexivity|].
  cbn [Replace_go]. rewrite HasPrefix_single.
  destruct (Ascii.eqb x c) eqn:E.
  - simpl String.length. simpl Nat.sub. rewrite has_app, Hnew. exact IH.
  - simpl. rewrite E. exact IH.
Qed.

(** Replacing never brings in a byte that neither [s] nor [new] has. *)
Lemma Replace_single_keeps a c new s :
  has a s = false -> has a new = false -> has a (Replace s (String c "") new) = false.
Proof.
  intros Hs Hnew. unfold Replace.
  induction s as [|x s IH]; [reflexivity|].
  simpl in Hs. apply orb_false_iff in Hs as [Hx Hs].
  cbn [Replace_go]. rewrite HasPrefix_single.
  destruct (Ascii.eqb x c).
  - simpl String.length. simpl Nat.sub. rewrite has_app, Hnew. now apply IH.
  - simpl. rewrite Hx. now apply IH.
Qed.

Lemma Replace_single_absent c new s :
  has c s = false -> Replace s (String c "") new = s.
Proof.
  unfold Replace. induction s as [|x s IH]; [reflexivity|].
  simpl has. intros Hs. apply orb_false_iff in Hs as [Hx Hs].
  cbn [Replace_go]. rewrite HasPrefix_single, Hx. now rewrite IH.
Qed.

Lemma Split_head_single s c :
  has c (Split_head s (String c "")) = false /\
  (s = Split_head s (String c "") \/
   exists rest, s = Split_head s (String c "") ++ String c rest).
Proof.
  induction s as [|x s [IH1 IH2]]; [split; [reflexivity | now left]|].
  cbn [Split_head]. rewrite HasPrefix_single.
  destruct (Ascii.eqb_spec x c) as [->|Hne].
  - split; [reflexivity|]. right. now exists s.
  - simpl. split.
    + rewrite IH1. destruct (Ascii.eqb_spec x c); [contradiction | reflexivity].
    + destruct IH2 as [IH2|[rest IH2]].
      * left. now rewrite <- IH2.
      * right. exists rest. change (String x s = String x (Split_head s (String c "") ++ String c rest)). f_equal. exact IH2.
Qed.

End StringMore.

Module NamingFacts.

Import Query Spec AssemblerFacts StringMore.
Local Open Scope string_scope.
Local Open Scope list_scope.
Local Open Scope Z_scope.

(** X7.  A field name has no dot left ([strings.Index] finds none), and
    the measurement is the part of the metric name in front of its first
    dot: it has no dot, and the metric name is the measurement alone or
    the measurement, a dot and the rest. *)
Theorem field_and_measurement_names (metricName : string) :
  strings.Index (influxMetricName_of metricName) "." = -1 /\
  strings.Index (measurementName_of metricName) "." = -1 /\
  (metricName = measurementName_of metricName \/
   exists rest, metricName = (measurementName_of metricName ++ "." ++ rest)%string).
Proof.
  unfold influxMetricName_of, measurementName_of, strings.Index.
  split; [|split].
  - apply Index_from_single; [lia|]. now apply Replace_single_has.
  - apply Index_from_single; [lia|]. apply Split_head_single.
  - apply Split_head_single.
Qed.

(** X6.  A series whose counter id is not in the name table (and
    [ToLower] of the empty string is empty, as in Go) is not skipped: its
    metric name is empty, no rollup suffix applies, and the default [-1]
    is written under the empty field name, in the entity's field map when
    the instance is empty and in that of the empty measurement and the
    instance otherwise. *)
Theorem unknown_counter_is_written (ToLower : string -> string)
    (impl_int64 : spec_float -> Z) (names : gmap Z string)
    (tags : gmap string string) (st : state) (serie : PerfMetricIntSeries.t) :
  ToLower "" = "" ->
  names !! PerfMetricId.CounterId (PerfMetricIntSeries.Id serie) = None ->
  let instanceName :=
    ToLower (strings.Replace (PerfMetricId.Instance (PerfMetricIntSeries.Id serie)) "." "_") in
  exists st',
    serie_step ToLower impl_int64 names tags st (IntSeries serie) = Some st' /\
    (instanceName = "" -> fields st' !! "" = Some (-1)) /\
    (instanceName <> "" ->
       lookup_special (special_fields st') "" (get "" tags "name") instanceName !! ""
         = Some (-1)).
Proof.
  intros Hlow Hnone instanceName.
  assert (Hname : metricName_of ToLower names serie = "").
  { unfold metricName_of, get. now rewrite Hnone. }
  unfold serie_step. rewrite Hname.
  change (influxMetricName_of "") with "".
  change (measurementName_of "") with "".
  change (value_of impl_int64 "" (PerfMetricIntSeries.Value serie)) with (Some (-1)).
  change (instanceName_of ToLower "" serie) with instanceName.
  destruct (String.eqb_spec instanceName "") as [E|E].
  - eexists. split; [reflexivity|]. simpl. split; [|congruence].
    intros _. apply lookup_insert_eq.
  - eexists. split; [reflexivity|]. simpl. split; [congruence|].
    intros _. rewrite lookup_update_special_eq. apply lookup_insert_eq.
Qed.

Lemma unknown_counter_is_written_witness :
  exists st',
    serie_step strings.ascii_ToLower Example.impl_min ∅ ∅ Example.no_state
      (IntSeries Example.none_serie) = Some st' /\
    fields st' !! "" = Some (-1).
Proof.
  assert (Hnone : (∅ : gmap Z string)
                  !! PerfMetricId.CounterId (PerfMetricIntSeries.Id Example.none_serie)
                  = None) by apply lookup_empty.
  destruct (unknown_counter_is_written strings.ascii_ToLower Example.impl_min ∅ ∅
              Example.no_state Example.none_serie eq_refl Hnone)
    as (st' & Hstep & Hfield & _).
  exists st'. split; [exact Hstep|]. apply Hfield. reflexivity.
Defined.

End NamingFacts.

Module PipelineFacts.

Import Resolver Query Spec ResolverFacts QueryFacts.
Local Open Scope string_scope.
Local Open Scope list_scope.

Lemma extends_refl g : extends g g.
Proof. split; [reflexivity|]. exists []. now rewrite app_nil_r. Qed.

Lemma extends_trans g1 g2 g3 : extends g1 g2 -> extends g2 g3 -> extends g1 g3.
Proof.
  intros [H1 [m1 E1]] [H2 [m2 E2]]. split; [congruence|].
  exists (m1 ++ m2). rewrite E2, E1. now rewrite app_assoc.
Qed.

Lemma Forall2_extends_refl groups : Forall2 extends groups groups.
Proof. induction groups; constructor; [apply extends_refl | assumption]. Qed.

Lemma grows_refl groups : grows groups groups.
Proof. exists groups, []. split; [now rewrite app_nil_r | apply Forall2_extends_refl]. Qed.

Lemma grows_trans g1 g2 g3 : grows g1 g2 -> grows g2 g3 -> grows g1 g3.
Proof.
  intros (e1 & n1 & -> & F1) (e2 & n2 & -> & F2).
  apply Forall2_app_inv_l in F2 as (e2a & e2b & Fa & Fb & ->).
  exists e2a, (e2b ++ n2). split; [now rewrite app_assoc|].
  clear - F1 Fa. revert e2a Fa.
  induction F1 as [|x y l l' Hxy F1 IH]; intros e2a Fa.
  - inversion Fa. constructor.
  - inversion Fa as [|y' z l2 l3 Hyz Fa']; subst. constructor.
    + now apply extends_trans with y.
    + now apply IH.
Qed.

Lemma add_to_group_grows metricd groups mtype :
  grows groups (add_to_group metricd groups mtype).
Proof.
  unfold add_to_group.
  destruct (append_first mtype metricd groups) as [groups'|] eqn:Ea.
  - apply append_first_Some in Ea as (before & g0 & after & -> & _ & Hg0 & ->).
    eexists _, []. split; [now rewrite app_nil_r|].
    apply Forall2_app; [apply Forall2_extends_refl|].
    constructor; [|apply Forall2_extends_refl].
    split; [simpl; congruence|]. now exists [metricd].
  - exists groups, [MetricGroup.Build mtype [metricd]].
    split; [reflexivity | apply Forall2_extends_refl].
Qed.

(** X8.  [Init] only adds: the groups it starts from are all still there,
    in their order and with their object types, each with its definitions
    as a prefix of what it holds afterwards; new groups come after
    them. *)
Theorem Init_only_adds (PerfCounter : list PerfCounterInfo.t) (config : Configuration)
    (MetricGroups : list MetricGroup.t) :
  exists ext new,
    Init PerfCounter config MetricGroups = ext ++ new /\
    Forall2 (fun g g' =>
               MetricGroup.ObjectType g' = MetricGroup.ObjectType g /\
               exists more, MetricGroup.Metrics g' = MetricGroup.Metrics g ++ more)
            MetricGroups ext.
Proof.
  change (grows MetricGroups (Init PerfCounter config MetricGroups)).
  unfold Init.
  apply (fold_left_invariant _ (grows MetricGroups)); [apply grows_refl|].
  intros g1 perf _ H1.
  apply (fold_left_invariant _ (grows MetricGroups)); [exact H1|].
  intros g2 metric _ H2.
  apply (fold_left_invariant _ (grows MetricGroups)); [exact H2|].
  intros g3 metricdef _ H3.
  unfold resolve_def. destruct (String.eqb _ _); [|exact H3].
  apply (fold_left_invariant _ (grows MetricGroups)); [exact H3|].
  intros g4 mtype _ H4.
  apply grows_trans with g4; [exact H4 | apply add_to_group_grows].
Qed.

End PipelineFacts.

Module MapFacts.

Lemma fold_insert_absent {K} `{Countable K} {V A} (key : A -> K) (val : A -> V)
    (l : list A) (acc : gmap K V) (k : K) :
  (forall x, In x l -> key x <> k) ->
  fold_left (fun acc x => <[key x := val x]> acc) l acc !! k = acc !! k.
Proof.
  revert acc. induction l as [|x l IH]; intros acc Hl; simpl; [reflexivity|].
  rewrite IH by (intros y Hy; apply Hl; now right).
  apply lookup_insert_ne. apply Hl. now left.
Qed.

Lemma fold_insert_present {K} `{Countable K} {V A} (key : A -> K) (val : A -> V)
    (l : list A) (acc : gmap K V) (k : K) :
  (exists x, In x l /\ key x = k) ->
  exists x, In x l /\ key x = k /\
            fold_left (fun acc x => <[key x := val x]> acc) l acc !! k = Some (val x).
Proof.
  induction l as [|x l IH] using rev_ind; intros (y & Hy & Hk); [destruct Hy|].
  rewrite fold_left_app. simpl.
  destruct (decide (key x = k)) as [E|E].
  - exists x. split; [apply in_or_app; right; now left|]. split; [exact E|].
    rewrite E. apply lookup_insert_eq.
  - apply in_app_or in Hy as [Hy|[Hy|[]]]; [|congruence].
    destruct IH as (z & Hz & Hzk & Hl); [now exists y|].
    exists z. split; [apply in_or_app; now left|]. split; [exact Hzk|].
    now rewrite lookup_insert_ne.
Qed.

Lemma fold_insert_Some {K} `{Countable K} {V A} (key : A -> K) (val : A -> V)
    (l : list A) (acc : gmap K V) (k : K) (v : V) :
  fold_left (fun acc x => <[key x := val x]> acc) l acc !! k = Some v ->
  acc !! k = Some v \/ exists x, In x l /\ key x = k /\ val x = v.
Proof.
  induction l as [|x l IH] using rev_ind; [now left|].
  rewrite fold_left_app. simpl.
  destruct (decide (key x = k)) as [E|E].
  - rewrite E, lookup_insert_eq. intros [= <-]. right. exists x.
    split; [apply in_or_app; right; now left | tauto].
  - rewrite lookup_insert_ne by exact E. intros Hl.
    destruct (IH Hl) as [Ha|(z & Hz & Hzk & Hv)]; [now left|].
    right. exists z. split; [apply in_or_app; now left | tauto].
Qed.

Lemma fold_left_flat_map {A B C} (f : A -> C -> A) (g : B -> list C) (l : list B) (a : A) :
  fold_left (fun a x => fold_left f (g x) a) l a = fold_left f (flat_map g l) a.
Proof.
  revert a. induction l as [|x l IH]; intros a; simpl; [reflexivity|].
  now rewrite fold_left_app, IH.
Qed.

End MapFacts.

Module PipelineMore.

Import Resolver Query Spec ResolverFacts QueryFacts MapFacts.
Local Open Scope string_scope.
Local Open Scope list_scope.

Lemma new_mors_from acc mors :
  fold_left (fun acc mor =>
               if String.eqb (ManagedObjectReference.Type_ mor) "VirtualMachine"
               then acc ++ [mor]
               else if String.eqb (ManagedObjectReference.Type_ mor) "HostSystem"
               then acc ++ [mor]
               else acc) mors acc
  = acc ++ List.filter queried mors.
Proof.
  revert acc. induction mors as [|mor mors IH]; intros acc; simpl.
  - now rewrite app_nil_r.
  - rewrite IH. unfold queried.
    destruct (String.eqb _ "VirtualMachine"); simpl; [now rewrite <- app_assoc|].
    destruct (String.eqb _ "HostSystem"); simpl; [now rewrite <- app_assoc | reflexivity].
Qed.

(** X9.  Samples are asked for the virtual machines and the hosts among
    the objects found, one query each and in the order found, and for
    nothing else: an object of any other type, a cluster or an object of a
    type a metric group names, gets no query. *)
Theorem only_machines_and_hosts_are_queried (config : Configuration)
    (MetricGroups : list MetricGroup.t) (mors : list ManagedObjectReference.t) :
  map PerfQuerySpec.Entity (queries config MetricGroups (new_mors mors))
  = List.filter (fun mor =>
                   String.eqb (ManagedObjectReference.Type_ mor) "VirtualMachine"
                   || String.eqb (ManagedObjectReference.Type_ mor) "HostSystem") mors.
Proof.
  rewrite queries_map, map_map. simpl. rewrite map_id.
  unfold new_mors. now rewrite new_mors_from.
Qed.

Lemma metricToName_flat MetricGroups :
  metricToName MetricGroups =
  fold_left (fun acc metricdef =>
               <[MetricDef.Key metricdef := MetricDef.Metric metricdef]> acc)
            (flat_map MetricGroup.Metrics MetricGroups) ∅.
Proof. unfold metricToName. apply fold_left_flat_map. Qed.

Lemma In_metricIds MetricGroups mor id :
  In id (metricIds MetricGroups mor) <->
  exists d, holds MetricGroups (ManagedObjectReference.Type_ mor) d /\ id = id_of d.
Proof.
  rewrite metricIds_matching, in_flat_map. unfold matching, holds. split.
  - intros (g & Hg & Hid). apply filter_In in Hg as [Hg Ht].
    apply String.eqb_eq in Ht. apply in_map_iff in Hid as (d & <- & Hd).
    exists d. split; [|reflexivity]. now exists g.
  - intros (d & (g & Hg & Ht & Hd) & ->). exists g. split.
    + apply filter_In. split; [exact Hg|]. now apply String.eqb_eq.
    + now apply in_map.
Qed.

(** X10.  From the catalog to the names of the answers.  When no two
    catalog entries with the same key differ in identifier, every counter
    id [Query] asks for an object, with the groups [Init] made from
    nothing, is the key of a catalog entry whose identifier is the name of
    a metric declared for the object's type, the id carries that metric's
    instance selector, and the name table gives that identifier back for
    the id. *)
Theorem queried_ids_resolve_to_declared_names
    (PerfCounter : list PerfCounterInfo.t) (config : Configuration)
    (mor : ManagedObjectReference.t) (id : PerfMetricId.t) :
  (forall p q, In p PerfCounter -> In q PerfCounter ->
               PerfCounterInfo.Key p = PerfCounterInfo.Key q ->
               identifier p = identifier q) ->
  In id (metricIds (Init PerfCounter config []) mor) ->
  exists perf metric metricdef,
    In perf PerfCounter /\ In metric (Metrics config) /\
    In metricdef (Metric.Definitions metric) /\
    In (ManagedObjectReference.Type_ mor) (Metric.ObjectType metric) /\
    MetricDef.Metric metricdef = identifier perf /\
    PerfMetricId.CounterId id = PerfCounterInfo.Key perf /\
    PerfMetricId.Instance id = MetricDef.Instances metricdef /\
    metricToName (Init PerfCounter config []) !! PerfMetricId.CounterId id
      = Some (identifier perf).
Proof.
  intros Hkeys Hid.
  apply In_metricIds in Hid as (d & Hd & ->).
  pose proof Hd as Hd0.
  apply Init_holds in Hd as [(g & [] & _)|(perf & metric & metricdef & Hp & Hm & Hmd & Ht & Hn & ->)].
  exists perf, metric, metricdef. repeat (split; [assumption || reflexivity|]).
  simpl. rewrite metricToName_flat.
  destruct (fold_insert_present MetricDef.Key MetricDef.Metric
              (flat_map MetricGroup.Metrics (Init PerfCounter config []))
              ∅ (PerfCounterInfo.Key perf)) as (d' & Hd' & Hk' & ->).
  { exists (resolved perf metricdef). split; [|reflexivity].
    destruct Hd0 as (g & Hg & _ & Hin). apply in_flat_map. now exists g. }
  f_equal.
  apply in_flat_map in Hd' as (g' & Hg' & Hin').
  assert (Hh : holds (Init PerfCounter config []) (MetricGroup.ObjectType g') d')
    by now exists g'.
  apply Init_holds in Hh as [(g & [] & _)|(perf' & metric' & metricdef' & Hp' & _ & _ & _ & Hn' & ->)].
  simpl in *. rewrite Hn'. now apply Hkeys.
Qed.

Lemma queried_ids_resolve_to_declared_names_witness :
  exists perf,
    In perf Example.catalog /\
    metricToName (Init Example.catalog Example.config []) !! 2%Z = Some (identifier perf).
Proof.
  assert (Hkeys : forall p q, In p Example.catalog -> In q Example.catalog ->
                    PerfCounterInfo.Key p = PerfCounterInfo.Key q ->
                    identifier p = identifier q).
  { intros p q Hp Hq.
    simpl in Hp, Hq.
    destruct Hp as [<-|[<-|[<-|[]]]]; destruct Hq as [<-|[<-|[<-|[]]]];
      simpl; intros E; (reflexivity || discriminate E). }
  assert (Hid : In (PerfMetricId.Build 2 "")
                   (metricIds (Init Example.catalog Example.config []) Example.vm1)).
  { vm_compute. left. reflexivity. }
  destruct (queried_ids_resolve_to_declared_names Example.catalog Example.config
              Example.vm1 (PerfMetricId.Build 2 "") Hkeys Hid)
    as (perf & metric & metricdef & Hp & _ & _ & _ & _ & _ & _ & Hname).
  exists perf. split; [exact Hp | exact Hname].
Defined.

End PipelineMore.

Module DatastoreFacts.

Import Inventory Spec StringMore.
Local Open Scope string_scope.

Lemma Replace_single_app c new a b :
  has c a = false ->
  strings.Replace (a ++ b) (String c "") new = a ++ strings.Replace b (String c "") new.
Proof.
  unfold strings.Replace. induction a as [|x a IH]; [reflexivity|].
  simpl has. intros Ha. apply orb_false_iff in Ha as [Hx Ha].
  change (String x a ++ b) with (String x (a ++ b)).
  cbn [strings.Replace_go]. rewrite HasPrefix_single, Hx.
  now rewrite IH.
Qed.

Lemma Replace_single_hit c new b :
  strings.Replace (String c b) (String c "") new = new ++ strings.Replace b (String c "") new.
Proof.
  unfold strings.Replace. cbn [strings.Replace_go].
  rewrite HasPrefix_single, Ascii.eqb_refl. reflexivity.
Qed.

Lemma FindString_skip pre rest :
  has "[" pre = false -> FindString (pre ++ rest) = FindString rest.
Proof.
  induction pre as [|x pre IH]; [reflexivity|].
  simpl has. intros H. apply orb_false_iff in H as [Hx H].
  change (String x pre ++ rest) with (String x (pre ++ rest)).
  cbn [FindString]. rewrite Hx. now apply IH.
Qed.

Lemma upto_close_found ds post :
  has "]" ds = false -> has newline ds = false ->
  upto_close (ds ++ String "]" post) = Some (ds ++ "]").
Proof.
  induction ds as [|x ds IH]; [reflexivity|].
  simpl has. intros H1 H2.
  apply orb_false_iff in H1 as [Hx1 H1]. apply orb_false_iff in H2 as [Hx2 H2].
  change (String x ds ++ String "]" post) with (String x (ds ++ String "]" post)).
  cbn [upto_close]. rewrite Hx1, Hx2, IH by assumption. reflexivity.
Qed.

(** X11.  The datastore tag is the text between the first pair of square
    brackets of the printed configuration: for a configuration
    [pre[ds]post] with no opening bracket in [pre], and no bracket and no
    line end in [ds], it is [ds]. *)
Theorem datastore_between_brackets (pre ds post : string) :
  has "[" pre = false ->
  has "[" ds = false -> has "]" ds = false -> has newline ds = false ->
  datastore_of (pre ++ "[" ++ ds ++ "]" ++ post) = ds.
Proof.
  intros Hpre Hds1 Hds2 Hds3. unfold datastore_of.
  rewrite FindString_skip by exact Hpre.
  change ("[" ++ ds ++ "]" ++ post) with (String "[" (ds ++ String "]" post)).
  cbn [FindString]. rewrite Ascii.eqb_refl, upto_close_found by assumption.
  rewrite Replace_single_hit. change ("" ++ ?x) with x.
  rewrite (Replace_single_absent "[").
  2:{ rewrite has_app, Hds1. reflexivity. }
  rewrite Replace_single_app by exact Hds2.
  change (strings.Replace "]" "]" "") with "".
  clear. induction ds as [|x ds IH]; [reflexivity|].
  change (String x (ds ++ "") = String x ds). now f_equal.
Qed.

Lemma datastore_between_brackets_witness :
  datastore_of ("{vm1 false " ++ "[" ++ "ds1" ++ "]" ++ " vm1/vm1.vmx 2048}") = "ds1".
Proof.
  apply datastore_between_brackets; reflexivity.
Defined.

Lemma FindString_none s : has "[" s = false -> FindString s = "".
Proof.
  induction s as [|x s IH]; [reflexivity|].
  simpl has. intros H. apply orb_false_iff in H as [Hx H].
  cbn [FindString]. rewrite Hx. now apply IH.
Qed.

(** X12.  The datastore tag never holds a square bracket, and for a
    printed configuration without an opening bracket it is the empty
    string. *)
Theorem datastore_has_no_bracket (Config : string) :
  has "[" (datastore_of Config) = false /\
  has "]" (datastore_of Config) = false /\
  (has "[" Config = false -> datastore_of Config = "").
Proof.
  unfold datastore_of. split; [|split].
  - apply Replace_single_keeps; [|reflexivity]. now apply Replace_single_has.
  - now apply Replace_single_has.
  - intros H. now rewrite FindString_none.
Qed.

End DatastoreFacts.

Module InventoryFacts.

Import Query Inventory Spec StringMore MapFacts AssemblerFacts ResolverFacts.
Local Open Scope string_scope.
Local Open Scope list_scope.

Lemma fold_insert_fmap {K} `{Countable K} {V W A} (g : V -> W) (key : A -> K)
    (val : A -> V) (l : list A) (acc : gmap K V) :
  fold_left (fun acc x => <[key x := g (val x)]> acc) l (g <$> acc)
  = g <$> fold_left (fun acc x => <[key x := val x]> acc) l acc.
Proof.
  revert acc. induction l as [|x l IH]; intros acc; simpl; [reflexivity|].
  now rewrite <- fmap_insert, IH.
Qed.

Lemma host_summary_table hsmo :
  host_summary hsmo
  = (fun h => <["name" := HostSystem.Name h]> (∅ : gmap string string)) <$> host_table hsmo.
Proof.
  unfold host_summary, host_table.
  rewrite <- (fold_insert_fmap _ HostSystem.Self (fun h => h)). now rewrite fmap_empty.
Qed.

Lemma host_extra_metrics_table hsmo :
  host_extra_metrics hsmo
  = (fun h => <["cpu_corecount_total" := HostSystem.NumCpuThreads h]> (∅ : gmap string Z))
      <$> host_table hsmo.
Proof.
  unfold host_extra_metrics, host_table.
  rewrite <- (fold_insert_fmap _ HostSystem.Self (fun h => h)). now rewrite fmap_empty.
Qed.

Lemma host_table_Some hsmo e h :
  host_table hsmo !! e = Some h -> In h hsmo /\ HostSystem.Self h = e.
Proof.
  unfold host_table. intros H.
  apply (fold_insert_Some HostSystem.Self (fun h => h)) in H as [H|(x & Hin & Hk & ->)].
  - rewrite lookup_empty in H. discriminate.
  - now split.
Qed.

Lemma host_table_None hsmo e :
  (forall h, In h hsmo -> HostSystem.Self h <> e) -> host_table hsmo !! e = None.
Proof.
  intros H. unfold host_table.
  rewrite (fold_insert_absent HostSystem.Self (fun h => h)) by exact H.
  apply lookup_empty.
Qed.

Lemma host_table_present hsmo e :
  (exists h, In h hsmo /\ HostSystem.Self h = e) -> is_Some (host_table hsmo !! e).
Proof.
  intros H. unfold host_table.
  destruct (fold_insert_present HostSystem.Self (fun h => h) hsmo ∅ e H) as (h & _ & _ & ->).
  now exists h.
Qed.

Lemma fold_left_pairs {K} `{Countable K} {V} (v : V) (l : list K) (acc : gmap K V) :
  fold_left (fun acc k => <[k := v]> acc) l acc =
  fold_left (fun acc (p : K * V) => <[p.1 := p.2]> acc) (map (fun k => (k, v)) l) acc.
Proof. revert acc. induction l as [|k l IH]; intros acc; simpl; [reflexivity | apply IH]. Qed.

Lemma vmToCluster_flat clmo :
  vmToCluster clmo =
  fold_left (fun acc (p : ManagedObjectReference.t * string) => <[p.1 := p.2]> acc)
    (flat_map (fun cl => map (fun vm => (vm, ClusterComputeResource.Name cl))
                             (ClusterComputeResource.DasVmConfig cl)) clmo) ∅.
Proof.
  unfold vmToCluster. generalize (∅ : gmap ManagedObjectReference.t string).
  induction clmo as [|cl clmo IH]; intros acc; simpl; [reflexivity|].
  now rewrite fold_left_app, IH, fold_left_pairs.
Qed.

Lemma vmToCluster_Some clmo vm c :
  vmToCluster clmo !! vm = Some c ->
  exists cl, In cl clmo /\ ClusterComputeResource.Name cl = c /\
             In vm (ClusterComputeResource.DasVmConfig cl).
Proof.
  rewrite vmToCluster_flat. intros H.
  apply (fold_insert_Some fst snd) in H as [H|((vm' & c') & Hin & Hk & Hv)].
  - rewrite lookup_empty in H. discriminate.
  - simpl in Hk, Hv. subst vm' c'.
    apply in_flat_map in Hin as (cl & Hcl & Hin).
    apply in_map_iff in Hin as (vm' & [= -> <-] & Hin). now exists cl.
Qed.

Lemma vmToCluster_None clmo vm :
  (forall cl, In cl clmo -> ~ In vm (ClusterComputeResource.DasVmConfig cl)) ->
  vmToCluster clmo !! vm = None.
Proof.
  intros H. destruct (vmToCluster clmo !! vm) as [c|] eqn:E; [|reflexivity].
  apply vmToCluster_Some in E as (cl & Hcl & _ & Hin). now destruct (H cl Hcl).
Qed.

Lemma host_summary_Some hsmo e s :
  host_summary hsmo !! e = Some s ->
  exists h, In h hsmo /\ HostSystem.Self h = e /\ s = <["name" := HostSystem.Name h]> ∅.
Proof.
  unfold host_summary. intros H.
  apply (fold_insert_Some HostSystem.Self
           (fun h => <["name" := HostSystem.Name h]> (∅ : gmap string string)))
    in H as [H|(h & Hin & Hk & Hv)].
  - rewrite lookup_empty in H. discriminate.
  - now exists h.
Qed.

Lemma host_summary_None hsmo e :
  (forall h, In h hsmo -> HostSystem.Self h <> e) -> host_summary hsmo !! e = None.
Proof.
  intros H. unfold host_summary.
  rewrite (fold_insert_absent HostSystem.Self
             (fun h => <["name" := HostSystem.Name h]> (∅ : gmap string string)))
    by exact H.
  apply lookup_empty.
Qed.

Lemma host_summary_present hsmo e :
  (exists h, In h hsmo /\ HostSystem.Self h = e) ->
  exists h, In h hsmo /\ HostSystem.Self h = e /\
            host_summary hsmo !! e = Some (<["name" := HostSystem.Name h]> ∅).
Proof.
  intros H. unfold host_summary.
  exact (fold_insert_present HostSystem.Self
           (fun h => <["name" := HostSystem.Name h]> (∅ : gmap string string)) hsmo ∅ e H).
Qed.

Lemma host_extra_metrics_present hsmo e :
  (exists h, In h hsmo /\ HostSystem.Self h = e) ->
  exists h, In h hsmo /\ HostSystem.Self h = e /\
            host_extra_metrics hsmo !! e
              = Some (<["cpu_corecount_total" := HostSystem.NumCpuThreads h]> ∅).
Proof.
  intros H. unfold host_extra_metrics.
  exact (fold_insert_present HostSystem.Self
           (fun h => <["cpu_corecount_total" := HostSystem.NumCpuThreads h]>
                       (∅ : gmap string Z)) hsmo ∅ e H).
Qed.

Lemma host_extra_metrics_None hsmo e :
  (forall h, In h hsmo -> HostSystem.Self h <> e) -> host_extra_metrics hsmo !! e = None.
Proof.
  intros H. unfold host_extra_metrics.
  rewrite (fold_insert_absent HostSystem.Self
             (fun h => <["cpu_corecount_total" := HostSystem.NumCpuThreads h]>
                         (∅ : gmap string Z)))
    by exact H.
  apply lookup_empty.
Qed.

Lemma esx_name hsmo host :
  get "" (get ∅ (host_summary hsmo) host) "name" = "" \/
  exists h, In h hsmo /\ HostSystem.Self h = host /\
            HostSystem.Name h = get "" (get ∅ (host_summary hsmo) host) "name".
Proof.
  unfold get. destruct (host_summary hsmo !! host) as [s|] eqn:Eh; simpl; [|now left].
  apply host_summary_Some in Eh as (h & Hh & Hs & ->).
  right. exists h. split; [exact Hh|]. split; [exact Hs|].
  now rewrite lookup_insert_eq.
Qed.



Lemma vm_summary_from_Some clusters hosts acc vmmo s mor tags :
  vm_summary_from clusters hosts acc vmmo = Some s ->
  s !! mor = Some tags ->
  acc !! mor = Some tags \/
  exists vm, In vm vmmo /\ VirtualMachine.Self vm = mor /\
             vm_tags clusters hosts vm = Some tags.
Proof.
  revert acc. induction vmmo as [|vm vmmo IH]; intros acc; simpl.
  - intros [= <-] H. now left.
  - destruct (vm_tags clusters hosts vm) as [summary|] eqn:E; [|discriminate].
    intros Hs Hl. destruct (IH _ Hs Hl) as [H|(v & Hin & Hv)].
    + destruct (decide (VirtualMachine.Self vm = mor)) as [Eq|Ne].
      * rewrite Eq, lookup_insert_eq in H. injection H as <-.
        right. exists vm. split; [now left | tauto].
      * rewrite lookup_insert_ne in H by exact Ne. now left.
    + right. exists v. split; [now right | exact Hv].
Qed.


Lemma vm_tags_keys clusters hosts vm tags k :
  vm_tags clusters hosts vm = Some tags -> is_Some (tags !! k) ->
  k = "datastore" \/ k = "cluster" \/ k = "esx".
Proof.
  unfold vm_tags. destruct (VirtualMachine.Host vm) as [host|]; [|discriminate].
  intros [= <-] [v Hk].
  destruct (decide (k = "esx")) as [->|N1]; [tauto|].
  rewrite lookup_insert_ne in Hk by congruence.
  destruct (negb _).
  - destruct (decide (k = "cluster")) as [->|N3]; [tauto|].
    rewrite lookup_insert_ne in Hk by congruence.
    destruct (decide (k = "datastore")) as [->|N2]; [tauto|].
    rewrite lookup_insert_ne in Hk by congruence.
    rewrite lookup_empty in Hk. discriminate.
  - destruct (decide (k = "datastore")) as [->|N2]; [tauto|].
    rewrite lookup_insert_ne in Hk by congruence.
    rewrite lookup_empty in Hk. discriminate.
Qed.

Lemma collect_Some hsmo vmmo clmo objects inv :
  collect hsmo vmmo clmo objects = Some inv ->
  Query.morToName inv = morToName objects /\
  vm_summary_from (vmToCluster clmo) (host_summary hsmo) ∅ vmmo = Some (Query.vm_summary inv) /\
  Query.host_summary inv = host_summary hsmo /\
  Query.host_extra_metrics inv = host_extra_metrics hsmo.
Proof.
  unfold collect, vm_summary.
  destruct (vm_summary_from _ _ _ _) as [vms|]; [|discriminate].
  intros [= <-]. simpl. tauto.
Qed.

Lemma site_collected :
  collect [Example.host9] [Example.machine1] [Example.cluster1] Example.entities
  = Some Example.site.
Proof. vm_compute. reflexivity. Qed.

(** X14.  The extra tags of a virtual machine.  An entry of the table of
    virtual machine tags belongs to a machine of the list and has the
    tags [datastore], [esx] and at most [cluster], and no others.  The
    cluster tag is a non-empty name of a cluster that lists the machine,
    and it is missing when every cluster that lists the machine has an
    empty name.  The tag [esx] is the name of a retrieved host that is the
    machine's host, or the empty string. *)
Theorem machine_tags (hsmo : list HostSystem.t) (vmmo : list VirtualMachine.t)
    (clmo : list ClusterComputeResource.t) (objects : list ManagedEntity.t)
    (inv : Query.inventory) (mor : ManagedObjectReference.t)
    (tags : gmap string string) :
  collect hsmo vmmo clmo objects = Some inv ->
  Query.vm_summary inv !! mor = Some tags ->
  exists vm,
    In vm vmmo /\ VirtualMachine.Self vm = mor /\
    tags !! "datastore" = Some (datastore_of (VirtualMachine.Config vm)) /\
    (forall c, tags !! "cluster" = Some c ->
       c <> "" /\
       exists cl, In cl clmo /\ ClusterComputeResource.Name cl = c /\
                  In mor (ClusterComputeResource.DasVmConfig cl)) /\
    ((forall cl, In cl clmo -> In mor (ClusterComputeResource.DasVmConfig cl) ->
                 ClusterComputeResource.Name cl = "") ->
     tags !! "cluster" = None) /\
    (exists e, tags !! "esx" = Some e /\
       (e = "" \/ exists h, In h hsmo /\ VirtualMachine.Host vm = Some (HostSystem.Self h) /\
                            HostSystem.Name h = e)) /\
    (forall k, is_Some (tags !! k) -> k = "datastore" \/ k = "cluster" \/ k = "esx").
Proof.
  intros Hc Hl. apply collect_Some in Hc as (_ & Hvms & _ & _).
  destruct (vm_summary_from_Some _ _ _ _ _ _ _ Hvms Hl) as [H|(vm & Hin & Hself & Htags)].
  { rewrite lookup_empty in H. discriminate. }
  exists vm. split; [exact Hin|]. split; [exact Hself|].
  assert (Hkeys := fun k => vm_tags_keys _ _ _ _ k Htags).
  unfold vm_tags in Htags. rewrite Hself in Htags.
  destruct (VirtualMachine.Host vm) as [host|]; [|discriminate].
  injection Htags as <-.
  assert (Hcl : forall c, get "" (vmToCluster clmo) mor = c -> c <> "" ->
            exists cl, In cl clmo /\ ClusterComputeResource.Name cl = c /\
                       In mor (ClusterComputeResource.DasVmConfig cl)).
  { unfold get. intros c Hc Hne.
    destruct (vmToCluster clmo !! mor) as [c'|] eqn:E; simpl in Hc; [|congruence].
    subst c'. now apply vmToCluster_Some. }
  assert (Hesx : get "" (get ∅ (host_summary hsmo) host) "name" = "" \/
                 exists h, In h hsmo /\ Some host = Some (HostSystem.Self h) /\
                   HostSystem.Name h = get "" (get ∅ (host_summary hsmo) host) "name").
  { destruct (esx_name hsmo host) as [He|(h & Hh & <- & He)]; [now left|].
    right. now exists h. }
  destruct (String.eqb_spec (get "" (vmToCluster clmo) mor) "") as [E|E]; simpl.
  - split; [reflexivity|]. split; [intros c [=]|]. split; [reflexivity|].
    split; [|exact Hkeys]. eexists. split; [reflexivity | exact Hesx].
  - split; [reflexivity|]. split.
    { intros c [= <-]. split; [exact E|]. now apply Hcl. }
    split.
    { intros Hall. exfalso. apply E.
      destruct (Hcl _ eq_refl E) as (cl & Hc1 & Hc2 & Hc3).
      rewrite <- Hc2. now apply Hall. }
    split; [|exact Hkeys]. eexists. split; [reflexivity | exact Hesx].
Qed.

Lemma machine_tags_witness :
  exists vm,
    In vm [Example.machine1] /\
    Example.machine1_tags !! "datastore"
      = Some (datastore_of (VirtualMachine.Config vm)).
Proof.
  pose proof site_collected as Hc.
  assert (Hl : Query.vm_summary Example.site !! Example.vm1
               = Some Example.machine1_tags)
    by (vm_compute; reflexivity).
  destruct (machine_tags _ _ _ _ _ _ _ Hc Hl) as (vm & Hin & _ & Hds & _).
  exists vm. split; [exact Hin | exact Hds].
Defined.

Lemma tags_of_lookup inv vcName name Entity k :
  tags_of inv vcName name Entity !! k =
  match Query.host_summary inv !! Entity ≫= (fun s => s !! k) with
  | Some v => Some v
  | None =>
      match Query.vm_summary inv !! Entity ≫= (fun s => s !! k) with
      | Some v => Some v
      | None => (<["host" := vcName]> (<["name" := name]> ∅) : gmap string string) !! k
      end
  end.
Proof.
  unfold tags_of.
  destruct (Query.host_summary inv !! Entity) as [hs|]; simpl;
    [rewrite copy_into_lookup; destruct (hs !! k); [reflexivity|]|];
    (destruct (Query.vm_summary inv !! Entity) as [vs|]; simpl;
      [rewrite copy_into_lookup; now destruct (vs !! k) | reflexivity]).
Qed.

(** X15.  The tags of an entity, with the inventory as collected.  The
    tag [host] is always the vCenter name.  Every tag other than [host]
    and [name] is an extra tag of the virtual machine the entity is.  The
    tag [name] is the entity's normalised name unless the entity is a
    retrieved host. *)
Theorem entity_tags (hsmo : list HostSystem.t) (vmmo : list VirtualMachine.t)
    (clmo : list ClusterComputeResource.t) (objects : list ManagedEntity.t)
    (inv : Query.inventory) (vcName name : string) (Entity : ManagedObjectReference.t) :
  collect hsmo vmmo clmo objects = Some inv ->
  tags_of inv vcName name Entity !! "host" = Some vcName /\
  (forall k, k <> "host" -> k <> "name" ->
     tags_of inv vcName name Entity !! k
     = Query.vm_summary inv !! Entity ≫= (fun summary => summary !! k)) /\
  ((forall h, In h hsmo -> HostSystem.Self h <> Entity) ->
   tags_of inv vcName name Entity !! "name" = Some name).
Proof.
  intros Hc. apply collect_Some in Hc as (_ & Hvms & Hhs & _).
  assert (Hvm : forall k, k = "host" \/ k = "name" ->
            Query.vm_summary inv !! Entity ≫= (fun s => s !! k) = None).
  { intros k Hk. destruct (Query.vm_summary inv !! Entity) as [s|] eqn:E; [|reflexivity].
    simpl. destruct (s !! k) as [v|] eqn:Ek; [|reflexivity]. exfalso.
    destruct (vm_summary_from_Some _ _ _ _ _ _ _ Hvms E) as [H|(vm & _ & _ & Htags)].
    { rewrite lookup_empty in H. discriminate. }
    assert (Hs : is_Some (s !! k)) by now exists v.
    destruct (vm_tags_keys _ _ _ _ k Htags Hs) as [-> | [-> | ->]];
      destruct Hk; discriminate. }
  assert (Hhost : forall k, k <> "name" ->
            Query.host_summary inv !! Entity ≫= (fun s => s !! k) = None).
  { intros k Hk. rewrite Hhs.
    destruct (host_summary hsmo !! Entity) as [s|] eqn:E; [|reflexivity].
    apply host_summary_Some in E as (h & _ & _ & ->). simpl.
    rewrite lookup_insert_ne by congruence. apply lookup_empty. }
  split; [|split].
  - rewrite tags_of_lookup, Hhost by discriminate. rewrite Hvm by now left.
    apply lookup_insert_eq.
  - intros k H1 H2. rewrite tags_of_lookup, Hhost by exact H2.
    destruct (Query.vm_summary inv !! Entity ≫= _) as [v|]; [reflexivity|].
    rewrite !lookup_insert_ne by congruence. apply lookup_empty.
  - intros Hno. rewrite tags_of_lookup, Hhs, host_summary_None by exact Hno. simpl.
    rewrite Hvm by now right.
    rewrite lookup_insert_ne by discriminate. apply lookup_insert_eq.
Qed.

Lemma entity_tags_witness :
  tags_of Example.site "vc" "vm1" Example.vm1 !! "host" = Some "vc" /\
  tags_of Example.site "vc" "vm1" Example.vm1 !! "name" = Some "vm1".
Proof.
  pose proof site_collected as Hc.
  destruct (entity_tags _ _ _ _ _ "vc" "vm1" Example.vm1 Hc) as (H1 & _ & H3).
  split; [exact H1|]. apply H3.
  intros h [<-|Hf]; [discriminate | destruct Hf].
Defined.

(** X16.  The point of a host.  For an entity that is a retrieved host
    the entity's point has the field [cpu_corecount_total] with the
    host's number of CPU threads, whatever the series wrote under that
    name, and the tag [name] is the host's configured name as retrieved,
    neither lower-cased nor without the domain. *)
Theorem host_point (ToLower : string -> string) (impl_int64 : spec_float -> Z)
    (config : Configuration) (Hostname : string) (names : gmap Z string)
    (hsmo : list HostSystem.t) (vmmo : list VirtualMachine.t)
    (clmo : list ClusterComputeResource.t) (objects : list ManagedEntity.t)
    (inv : Query.inventory) (pem : PerfEntityMetric.t) (pts : list Point.t) :
  collect hsmo vmmo clmo objects = Some inv ->
  (exists h, In h hsmo /\ HostSystem.Self h = PerfEntityMetric.Entity pem) ->
  entity_points ToLower impl_int64 config Hostname names inv (EntityMetric pem) = Some pts ->
  exists h pt rest,
    In h hsmo /\ HostSystem.Self h = PerfEntityMetric.Entity pem /\
    pts = pt :: rest /\
    Point.measurement pt = ToLower (ManagedObjectReference.Type_ (PerfEntityMetric.Entity pem)) /\
    Point.fields pt !! "cpu_corecount_total" = Some (HostSystem.NumCpuThreads h) /\
    Point.tags pt !! "name" = Some (HostSystem.Name h).
Proof.
  intros Hc Hex Hpts. apply collect_Some in Hc as (_ & _ & Hhs & Hhx).
  apply host_table_present in Hex as [h Hh].
  destruct (host_table_Some _ _ _ Hh) as [Hin Hself].
  unfold entity_points in Hpts.
  destruct (series_loop _ _ _ _ _ _) as [st|]; [|discriminate].
  injection Hpts as <-.
  exists h. eexists. eexists. split; [exact Hin|]. split; [exact Hself|].
  split; [reflexivity|]. split; [reflexivity|]. simpl. split.
  - rewrite Hhx, host_extra_metrics_table, lookup_fmap, Hh. simpl.
    rewrite copy_into_lookup. now rewrite lookup_insert_eq.
  - rewrite tags_of_lookup, Hhs, host_summary_table, lookup_fmap, Hh. simpl.
    now rewrite lookup_insert_eq.
Qed.

Lemma host_point_witness :
  exists h pt rest,
    In h [Example.host9] /\
    entity_points strings.ascii_ToLower Example.impl_min Example.config "vc.lab"
      Example.vm_names Example.site (EntityMetric Example.host_metric)
      = Some (pt :: rest) /\
    Point.fields pt !! "cpu_corecount_total" = Some (HostSystem.NumCpuThreads h) /\
    Point.tags pt !! "name" = Some (HostSystem.Name h).
Proof.
  pose proof site_collected as Hc.
  assert (Hex : exists h, In h [Example.host9] /\
                  HostSystem.Self h = PerfEntityMetric.Entity Example.host_metric).
  { exists Example.host9. split; [now left | reflexivity]. }
  destruct (entity_points strings.ascii_ToLower Example.impl_min Example.config "vc.lab"
              Example.vm_names Example.site (EntityMetric Example.host_metric))
    as [pts|] eqn:Hpts; [|vm_compute in Hpts; discriminate Hpts].
  destruct (host_point _ _ _ _ _ _ _ _ _ _ _ _ Hc Hex Hpts)
    as (h & pt & rest & Hin & _ & -> & _ & Hf & Ht).
  exists h, pt, rest. split; [exact Hin|]. split; [reflexivity|]. split; [exact Hf | exact Ht].
Defined.

End InventoryFacts.
